(** * ascii-play: the frame rendering and playback pipeline of [main.js]

    A shallow embedding of [main.js] and the properties its specification
    states about it.

    Data model.
    - A JavaScript number is an IEEE 754 binary64 value.  Its finite values
      are rationals, so a number is a [Q]; every arithmetic operation is the
      exact rational operation followed by [rnd], rounding to the nearest
      binary64 value, ties to even (IEEE 754, 4.3.1), subnormals included.
      Infinities, NaN and the sign of zero are not represented: the
      functions below never divide by zero and stay far below 2^1024 on the
      inputs the theorems range over.
    - An integer-valued number below 2^53 (a pixel component, a terminal
      size, a loop counter, a colour index) is a [Z]; [of_Z] injects it.
    - A [Buffer] is a [list byte]; a JavaScript string is a [string]; the
      object [{width, height}] is the record [Size].
    - The closure state of [playVideo] (buffer, frameQueue, isPlaying) is
      the record [Player], threaded explicitly through the callbacks,
      together with the pending timers and the writes to the terminal.
    - What the program does not decide is given by a [World]: the
      arguments, the file system, how the run of [ffprobe] ends and what
      it reports, the size of the terminal, the events of the decoder, the
      timers and the interrupts, and the moment of an interrupt that
      arrives before the program listens to it. *)

From Stdlib Require Import ZArith QArith Qround Qpower Lia Lqa.
From Stdlib Require Import Bool List Ascii String Strings.Byte DecimalString.
From Stdlib Require Import Floats.
Import ListNotations.

Local Open Scope Q_scope.

(** ** Binary64 arithmetic *)

Module Binary64.

Definition pow2 (e : Z) : Q := 2 ^ e.

(** [mag x] is the exponent [e] with [2^e <= x < 2^(e+1)], for [0 < x]. *)
Definition mag (x : Q) : Z :=
  let e0 := (Z.log2 (Qnum x) - Z.log2 (Zpos (Qden x)))%Z in
  if Qle_bool (pow2 e0) x then e0 else (e0 - 1)%Z.

(** The exponent of the unit in the last place: 53 significant bits, and
    no exponent below that of the smallest subnormal, 2^-1074. *)
Definition cexp (x : Q) : Z := Z.max (mag x - 52) (-1074).

(** The nearest integer, ties to the even one. *)
Definition ZnearestE (s : Q) : Z :=
  let f := Qfloor s in
  match Qcompare (s - inject_Z f) (1 # 2) with
  | Lt => f
  | Gt => (f + 1)%Z
  | Eq => if Z.even f then f else (f + 1)%Z
  end.

Definition rnd_pos (x : Q) : Q :=
  let c := cexp x in inject_Z (ZnearestE (x / pow2 c)) * pow2 c.

Definition rnd (x : Q) : Q :=
  Qred match Qcompare 0 x with
       | Eq => 0
       | Lt => rnd_pos x
       | Gt => - rnd_pos (- x)
       end.

(** The kernel's primitive binary64 floats, read as rationals: the
    reference the model is tested against. *)
Definition SF2Q (f : spec_float) : option Q :=
  match f with
  | S754_zero _ => Some 0
  | S754_finite s m e =>
      Some ((if s then -1 else 1) * inject_Z (Zpos m) * pow2 e)
  | S754_infinity _ | S754_nan => None
  end.

Definition agrees (f : float) (q : Q) : bool :=
  match SF2Q (Prim2SF f) with
  | Some v => Qeq_bool v q
  | None => false
  end.

End Binary64.

Import Binary64.

(** ** JavaScript numbers and [Math] *)

Definition fadd (x y : Q) : Q := rnd (x + y).
Definition fmul (x y : Q) : Q := rnd (x * y).
Definition fdiv (x y : Q) : Q := rnd (x / y).

Declare Scope js_scope.
Delimit Scope js_scope with js.
Arguments fadd (x y)%_js.
Arguments fmul (x y)%_js.
Arguments fdiv (x y)%_js.
Infix "+" := fadd : js_scope.
Infix "*" := fmul : js_scope.
Infix "/" := fdiv : js_scope.

(** An integer below 2^53 as a number. *)
Definition of_Z (z : Z) : Q := inject_Z z.

(** A decimal literal of the source: the binary64 value nearest to it. *)
Definition lit (q : Q) : Q := rnd q.

Definition Math_floor (x : Q) : Z := Qfloor x.

(** [Math.round]: the nearest integer, a tie going up. *)
Definition Math_round (x : Q) : Z := Qfloor (x + (1 # 2)).

(** A safe integer: positive and exactly representable. *)
Definition safe (z : Z) : Prop := (0 < z < 2 ^ 53)%Z.

(** ** Constants *)

Definition ESC : string := String (ascii_of_nat 27) EmptyString.
Definition LF : string := String (ascii_of_nat 10) EmptyString.

Definition ASCII_CHARS : string := " .:-=+*#%@".
Definition RESET : string := (ESC ++ "[0m")%string.

Definition CURSOR_HIDE : string := (ESC ++ "[?25l")%string.
Definition CURSOR_SHOW : string := (ESC ++ "[?25h")%string.
Definition CURSOR_HOME : string := (ESC ++ "[H")%string.

(** ** Colour quantization: [rgbToAnsi256] *)

Definition rgbToAnsi256 (r g b : Z) : Z :=
  if ((r =? g) && (g =? b))%Z then
    if (r <? 8)%Z then 16%Z
    else if (r >? 248)%Z then 231%Z
    else
      let step := Math_round (((of_Z (r - 8)) / 247) * 24)%js in
      (step + 232)%Z
  else
    let red := Math_round (of_Z r / 255 * 5)%js in
    let green := Math_round (of_Z g / 255 * 5)%js in
    let blue := Math_round (of_Z b / 255 * 5)%js in
    let ansi := (16 + (36 * red) + (6 * green) + blue)%Z in
    ansi.

(** The formula of the specification, in exact rational arithmetic. *)
Definition round_exact (x : Q) : Z := Qfloor (x + (1 # 2)).

Definition colorIndex_spec (r g b : Z) : Z :=
  if ((r =? g) && (g =? b))%Z then
    if (r <? 8)%Z then 16%Z
    else if (248 <? r)%Z then 231%Z
    else (232 + round_exact (inject_Z (r - 8) / 247 * 24)%Q)%Z
  else
    (16 + 36 * round_exact (inject_Z r / 255 * 5)%Q
        + 6 * round_exact (inject_Z g / 255 * 5)%Q
        + round_exact (inject_Z b / 255 * 5)%Q)%Z.

(** ** Glyph selection (the brightness lines of [renderFrame]) *)

Definition brightness (r g b : Z) : Q :=
  ((of_Z r * lit (299 # 1000) + of_Z g * lit (587 # 1000)
    + of_Z b * lit (114 # 1000)) / 255)%js.

Definition charIndex (r g b : Z) : Z :=
  Math_floor (brightness r g b
              * of_Z (Z.of_nat (String.length ASCII_CHARS) - 1))%js.

(** [s[i]]: [undefined] outside the string. *)
Definition str_get (s : string) (i : Z) : option ascii :=
  if (i <? 0)%Z then None else String.get (Z.to_nat i) s.

Definition char (r g b : Z) : option ascii :=
  str_get ASCII_CHARS (charIndex r g b).

(** The glyph selection of the specification, its formula taken as
    arithmetic on rational numbers, without any rounding:
    luma = (0.299 r + 0.587 g + 0.114 b) / 255, the index is
    floor (luma * (rampLength - 1)), clamped to the ramp. *)
Definition luma_spec (r g b : Z) : Q :=
  ((299 # 1000) * inject_Z r + (587 # 1000) * inject_Z g
   + (114 # 1000) * inject_Z b) / 255.

Definition glyphIndex_spec (r g b : Z) : Z :=
  let rampLength := Z.of_nat (String.length ASCII_CHARS) in
  let i := Qfloor (luma_spec r g b * inject_Z (rampLength - 1)) in
  Z.max 0 (Z.min (rampLength - 1) i).

Definition glyph_spec (r g b : Z) : option ascii :=
  String.get (Z.to_nat (glyphIndex_spec r g b)) ASCII_CHARS.

(** ** Dimension Fitter: [getTerminalSize], [calculateAspectRatioDimensions] *)

Record Size : Type := { width : Z; height : Z }.

(** [a || d] on an optional number: [undefined] and [0] are falsy. *)
Definition js_or (a : option Z) (d : Z) : Z :=
  match a with
  | Some v => if (v =? 0)%Z then d else v
  | None => d
  end.

(** [columns] and [rows] are [process.stdout.columns] and
    [process.stdout.rows], [None] when the output is not a terminal. *)
Definition getTerminalSize (columns rows : option Z) : Size :=
  {| width := js_or columns 80; height := js_or rows 24 |}.

Definition calculateAspectRatioDimensions (columns rows : option Z)
    (videoWidth videoHeight : Z) : Size :=
  let term := getTerminalSize columns rows in
  let maxHeight := (height term - 2)%Z in
  let maxWidth := width term in
  let charAspectRatio := 1 # 2 in
  let videoAspectRatio := (of_Z videoWidth / of_Z videoHeight)%js in
  let width0 := maxWidth in
  let height0 :=
    Math_floor ((of_Z width0 * charAspectRatio) / videoAspectRatio)%js in
  if (height0 >? maxHeight)%Z then
    let height1 := maxHeight in
    let width1 :=
      Math_floor ((of_Z height1 * videoAspectRatio) / charAspectRatio)%js in
    {| width := width1; height := height1 |}
  else {| width := width0; height := height0 |}.

(** ** Buffers, strings and the terminal *)

Definition byteZ (b : byte) : Z := Z.of_N (Byte.to_N b).

(** [buf[i]] on a [Buffer]: [undefined] outside it. *)
Definition buf_get (buf : list byte) (i : Z) : option Z :=
  if (i <? 0)%Z then None else option_map byteZ (nth_error buf (Z.to_nat i)).

(** [Buffer.slice(start, end)]: a negative index counts from the end, both
    indices are clamped to the buffer, an empty range gives an empty buffer.
    (A slice is a view of a buffer; no byte of a buffer is ever written
    after its creation, so a slice is modelled by its content.) *)
Definition clampIndex (len i : Z) : Z :=
  if (i <? 0)%Z then Z.max (len + i) 0 else Z.min i len.

Definition slice {A : Type} (buf : list A) (start stop : Z) : list A :=
  let len := Z.of_nat (List.length buf) in
  let s := clampIndex len start in
  let e := clampIndex len stop in
  firstn (Z.to_nat (e - s)) (skipn (Z.to_nat s) buf).

(** [Buffer.slice(start)]. *)
Definition slice_from {A : Type} (buf : list A) (start : Z) : list A :=
  slice buf start (Z.of_nat (List.length buf)).

(** An integer in a template literal. *)
Definition show_Z (z : Z) : string := NilZero.string_of_int (Z.to_int z).

(** [x.toFixed(2)], for [0 <= x]: the closest number of hundredths, the
    larger one on a tie. *)
Definition toFixed2 (x : Q) : string :=
  let n := Qfloor (x * 100 + (1 # 2)) in
  let cents := (n mod 100)%Z in
  (show_Z (n / 100) ++ "."
   ++ (if (cents <? 10)%Z then "0" else "") ++ show_Z cents)%string.

(** What reaches the terminal: a [process.stdout.write] (a [console.log]
    is a write of the line and a line feed) or a [console.clear]. *)
Inductive termOp : Type :=
| Write (s : string)
| Clear.

(** The state the callbacks of [playVideo] share.  [timers] holds the
    delays of the pending [setTimeout(playNextFrame, _)] calls, oldest
    first; [stdout] the terminal operations so far, oldest first.
    [enqueued] is a history, never read by the program: the frames
    [frameQueue.push] has received, oldest first. *)
Record Player : Type := {
  buffer : list byte;
  frameQueue : list (list byte);
  isPlaying : bool;
  timers : list Q;
  stdout : list termOp;
  enqueued : list (list byte)
}.

Definition set_buffer (v : list byte) (p : Player) : Player :=
  {| buffer := v; frameQueue := frameQueue p; isPlaying := isPlaying p;
     timers := timers p; stdout := stdout p; enqueued := enqueued p |}.

Definition set_frameQueue (v : list (list byte)) (p : Player) : Player :=
  {| buffer := buffer p; frameQueue := v; isPlaying := isPlaying p;
     timers := timers p; stdout := stdout p; enqueued := enqueued p |}.

Definition set_isPlaying (v : bool) (p : Player) : Player :=
  {| buffer := buffer p; frameQueue := frameQueue p; isPlaying := v;
     timers := timers p; stdout := stdout p; enqueued := enqueued p |}.

Definition set_timers (v : list Q) (p : Player) : Player :=
  {| buffer := buffer p; frameQueue := frameQueue p; isPlaying := isPlaying p;
     timers := v; stdout := stdout p; enqueued := enqueued p |}.

(** [process.stdout.write(s)]. *)
Definition stdout_write (s : string) (p : Player) : Player :=
  {| buffer := buffer p; frameQueue := frameQueue p; isPlaying := isPlaying p;
     timers := timers p; stdout := stdout p ++ [Write s];
     enqueued := enqueued p |}.

Definition console_log (s : string) (p : Player) : Player :=
  stdout_write (s ++ LF) p.

Definition console_clear (p : Player) : Player :=
  {| buffer := buffer p; frameQueue := frameQueue p; isPlaying := isPlaying p;
     timers := timers p; stdout := stdout p ++ [Clear];
     enqueued := enqueued p |}.

(** [frameQueue.push(frameBuffer)]. *)
Definition push (frameBuffer : list byte) (p : Player) : Player :=
  {| buffer := buffer p; frameQueue := frameQueue p ++ [frameBuffer];
     isPlaying := isPlaying p; timers := timers p; stdout := stdout p;
     enqueued := enqueued p ++ [frameBuffer] |}.

(** [setTimeout(playNextFrame, delay)]: [delay] is the delay asked for,
    in milliseconds. *)
Definition setTimeout (delay : Q) (p : Player) : Player :=
  set_timers (timers p ++ [delay]) p.

Definition initialPlayer (out : list termOp) : Player :=
  {| buffer := []; frameQueue := []; isPlaying := false; timers := [];
     stdout := out; enqueued := [] |}.

(** ** Frame Renderer: [renderFrame] *)

(** [for (let i = i0; ...; i++) body], [n] iterations left. *)
Fixpoint for_loop {T : Type} (n : nat) (i : Z) (body : Z -> T -> T) (t : T) : T :=
  match n with
  | O => t
  | S k => for_loop k (i + 1)%Z body (body i t)
  end.

(** [for (let i = 0; i < bound; i++) body]. *)
Definition for_lt {T : Type} (bound : Z) (body : Z -> T -> T) (t : T) : T :=
  for_loop (Z.to_nat bound) 0%Z body t.

Definition show_char (c : option ascii) : string :=
  match c with
  | Some a => String a EmptyString
  | None => "undefined"
  end.

(** The text one pixel adds to [output].  A component read outside the
    buffer is [undefined]: the brightness and the colour code are then
    NaN, and the character is [undefined]. *)
Definition pixelText (frameBuffer : list byte) (index : Z) : string :=
  match buf_get frameBuffer index,
        buf_get frameBuffer (index + 1),
        buf_get frameBuffer (index + 2) with
  | Some r, Some g, Some b =>
      let colorCode := rgbToAnsi256 r g b in
      (ESC ++ "[38;5;" ++ show_Z colorCode ++ "m" ++ show_char (char r g b))%string
  | _, _, _ => (ESC ++ "[38;5;" ++ "NaN" ++ "m" ++ "undefined")%string
  end.

(** One turn of the loop over [y]: the loop over [x], then the reset. *)
Definition renderRow (frameBuffer : list byte) (width : Z)
    (y : Z) (output : string) : string :=
  let output :=
    for_lt width (fun x output =>
      let index := ((y * width + x) * 3)%Z in
      (output ++ pixelText frameBuffer index)%string) output in
  (output ++ (RESET ++ LF))%string.

(** The value of [output] when the loops of [renderFrame] end. *)
Definition renderOutput (frameBuffer : list byte) (width height : Z) : string :=
  for_lt height (renderRow frameBuffer width) EmptyString.

Definition renderFrame (frameBuffer : list byte) (width height : Z)
    (p : Player) : Player :=
  let p := stdout_write CURSOR_HOME p in
  let output := renderOutput frameBuffer width height in
  stdout_write output p.

(** The rendered frame as the specification describes it: one line per
    raster row; in a line one cell per pixel, in row-major order, a
    colour-set escape sequence (of the colour index of the specification)
    and then the glyph of the pixel; a style reset and a line feed at the
    end of the line. *)
Definition pixel : Type := (Z * Z * Z)%type.

Fixpoint pixels (frameBuffer : list byte) : list pixel :=
  match frameBuffer with
  | r :: g :: b :: rest => (byteZ r, byteZ g, byteZ b) :: pixels rest
  | _ => []
  end.

Fixpoint rasterRows (width height : nat) (ps : list pixel) : list (list pixel) :=
  match height with
  | O => []
  | S h => firstn width ps :: rasterRows width h (skipn width ps)
  end.

Definition join (ss : list string) : string :=
  fold_right String.append EmptyString ss.

Definition colorSet (colorIndex : Z) : string :=
  (ESC ++ "[38;5;" ++ show_Z colorIndex ++ "m")%string.

Definition cellText (px : pixel) : string :=
  let '(r, g, b) := px in
  (colorSet (colorIndex_spec r g b) ++ show_char (char r g b))%string.

Definition lineText (row : list pixel) : string :=
  (join (map cellText row) ++ RESET ++ LF)%string.

Definition blockText (width height : nat) (frameBuffer : list byte) : string :=
  join (map lineText (rasterRows width height (pixels frameBuffer))).

(** ** Frame Ingestor and Playback Scheduler: the callbacks of [playVideo] *)

Section Playback.

Variables (width height : Z) (frameInterval : Q).

Definition frameSize : Z := (width * height * 3)%Z.

Definition playNextFrame (p : Player) : Player :=
  match frameQueue p with
  | frameBuffer :: rest =>
      let p := set_frameQueue rest p in
      let p := renderFrame frameBuffer width height p in
      setTimeout frameInterval p
  | [] => set_isPlaying false p
  end.

(** The body of the [while] loop of the ['data'] handler. *)
Definition takeFrame (p : Player) : Player :=
  let frameBuffer := slice (buffer p) 0 frameSize in
  let p := set_buffer (slice_from (buffer p) frameSize) p in
  let p := push frameBuffer p in
  if negb (isPlaying p) && (0 <? List.length (frameQueue p))%nat
  then playNextFrame (set_isPlaying true p)
  else p.

(** The [while] loop itself.  It never ends when [frameSize <= 0]:
    [None] is a loop still running after [fuel] iterations. *)
Fixpoint drain (fuel : nat) (p : Player) : option Player :=
  if (Z.of_nat (List.length (buffer p)) >=? frameSize)%Z then
    match fuel with
    | O => None
    | S fuel' => drain fuel' (takeFrame p)
    end
  else Some p.

(** [ffmpeg.stdout.on('data', ...)].  One iteration per byte of the
    buffer is more than the loop takes when it ends at all. *)
Definition onData (data : list byte) (p : Player) : option Player :=
  let p := set_buffer (buffer p ++ data) p in
  drain (S (List.length (buffer p))) p.

(** The oldest pending timer fires. *)
Definition onTimeout (p : Player) : Player :=
  match timers p with
  | _ :: rest => playNextFrame (set_timers rest p)
  | [] => p
  end.

Inductive playerEvent : Type :=
| OnData (data : list byte)
| OnTimeout.

Definition step (e : playerEvent) (p : Player) : option Player :=
  match e with
  | OnData data => onData data p
  | OnTimeout => Some (onTimeout p)
  end.

Fixpoint run (es : list playerEvent) (p : Player) : option Player :=
  match es with
  | [] => Some p
  | e :: es' =>
      match step e p with
      | Some p' => run es' p'
      | None => None
      end
  end.

(** The bytes the decoder has delivered. *)
Fixpoint received (es : list playerEvent) : list byte :=
  match es with
  | [] => []
  | OnData data :: es' => data ++ received es'
  | OnTimeout :: es' => received es'
  end.

Inductive reachable : Player -> Prop :=
| reachable_init : forall out, reachable (initialPlayer out)
| reachable_step : forall e p p',
    reachable p -> step e p = Some p' -> reachable p'.

(** Frames of exactly [frameSize] bytes. *)
Definition framed (frames : list (list byte)) : Prop :=
  Forall (fun f => Z.of_nat (List.length f) = frameSize) frames.

(** The two states of the scheduler. *)
Definition Idle (p : Player) : Prop :=
  isPlaying p = false /\ timers p = [].
Definition Playing (p : Player) : Prop :=
  isPlaying p = true /\ timers p = [frameInterval].

(** What rendering one frame writes. *)
Definition renderWrites (frameBuffer : list byte) : list termOp :=
  [Write CURSOR_HOME; Write (renderOutput frameBuffer width height)].

(** The history [enqueued] and the queue agree: the frames enqueued are
    those already rendered, in the order of their rendering, and then
    those still waiting in [frameQueue]. *)
Definition fifo_inv (out : list termOp) (p : Player) : Prop :=
  exists played,
    enqueued p = played ++ frameQueue p
    /\ stdout p = out ++ flat_map renderWrites played.

(** The invariant of the scheduler: it is Idle with an empty queue, or
    Playing with exactly one timer pending. *)
Definition scheduler_inv (p : Player) : Prop :=
  (Idle p /\ frameQueue p = []) \/ Playing p.

End Playback.

(** ** Process lifecycle: [playVideo] and the main program *)

Local Open Scope string_scope.

(** What [getVideoInfo] resolves to: the [width] and [height] of the
    stream and its frame rate, a positive number. *)
Record VideoInfo : Type := { info_width : Z; info_height : Z; fps : Q }.

(** What can happen once [ffmpeg] is spawned. *)
Inductive event : Type :=
| Playback (e : playerEvent)    (* stdout data, or a timer firing *)
| OnClose                       (* ffmpeg.on('close') *)
| OnError (message : string)    (* ffmpeg.on('error'): the spawn failed *)
| OnSigint.                     (* process.on('SIGINT'); ffmpeg.kill changes
                                   nothing of the state modelled here *)

Inductive exitPath : Type :=
| UsageError | InputNotFound | MetadataFailure | DecodeFailure
| InterruptedByUser | Completed
| ProbeSpawnFailure.            (* the 'error' event of ffprobe, which has
                                   no listener *)

(** How a run of events ends: the process exits, the promise of
    [playVideo] is rejected, the events are used up with the process still
    alive, a handler never returns, the process is killed by an interrupt
    that no handler catches (it has no exit code then), or an ['error']
    event that nobody listens to is thrown out of the event loop. *)
Inductive completion : Type :=
| Exit (path : exitPath) (code : Z)
| Reject (path : exitPath) (message : string)
| Pending
| Looping
| Killed
| Uncaught (message : string).

Section Session.

Variables (width height : Z) (frameInterval : Q).

(** [settled]: [ffmpeg] has closed and the promise is resolved.  From
    then on the process exits, with code 0, as soon as no timer is
    pending. *)
Fixpoint session (es : list event) (settled : bool) (p : Player)
    : Player * completion :=
  match es with
  | [] => (p, Pending)
  | Playback (OnData data) :: es' =>
      if settled then session es' settled p
      else match onData width height frameInterval data p with
           | Some p' => session es' settled p'
           | None =>
               (* the loop of the handler never ends: this is the state
                  after its first turn; the turns that follow only add
                  frames to the queue and write nothing *)
               (takeFrame width height frameInterval
                  (set_buffer (buffer p ++ data) p), Looping)
           end
  | Playback OnTimeout :: es' =>
      let p' := onTimeout width height frameInterval p in
      match settled, timers p' with
      | true, [] => (p', Exit Completed 0)
      | _, _ => session es' settled p'
      end
  | OnClose :: es' =>
      if settled then session es' settled p
      else
        let p' := stdout_write CURSOR_SHOW p in
        let p' := console_log (LF ++ "Playback finished") p' in
        match timers p' with
        | [] => (p', Exit Completed 0)
        | _ :: _ => session es' true p'
        end
  | OnError message :: es' =>
      let p' := stdout_write CURSOR_SHOW p in
      if settled then session es' settled p'
      else (p', Reject DecodeFailure message)
  | OnSigint :: _ =>
      let p' := stdout_write CURSOR_SHOW p in
      let p' := console_log (LF ++ LF ++ "Stopped by user") p' in
      (p', Exit InterruptedByUser 0)
  end.

End Session.

(** How the run of [ffprobe] inside [getVideoInfo] ends.  It closes, and
    the promise is then resolved or rejected; or its spawn fails: the
    ['error'] event of the child has no listener, so the error is thrown
    out of the event loop and Node ends the process with code 1, the
    handler of the rejection in the main program not being run; or the user
    interrupts while the probe runs: no handler of SIGINT is registered
    yet, and the signal kills the process. *)
Inductive probeEnd : Type :=
| ProbeClosed
| ProbeSpawnFailed (message : string)
| ProbeInterrupted.

(** The environment of one run of the program.  The terminal accepts
    every write; the stream [ffprobe] reports has integer dimensions and a
    frame rate that is a positive number. *)
Record World : Type := {
  argv : list string;                        (* process.argv.slice(2) *)
  existsSync : string -> bool;               (* fs.existsSync *)
  ffprobe : string -> probeEnd;
  getVideoInfo : string -> VideoInfo + string; (* resolved, or rejected,
                                                  when ffprobe has closed *)
  columns : option Z;                        (* process.stdout.columns *)
  rows : option Z;                           (* process.stdout.rows *)
  startupInterrupt : option nat;
    (* an interrupt while [playVideo] starts the playback, before its
       handler of SIGINT is registered: [Some n] when it arrives after [n]
       of the six terminal operations of the start (with [n] six or more:
       while ffmpeg is spawned and the handlers are registered) *)
  events : list event
}.

Definition playVideo (w : World) (inputFile : string) : Player * completion :=
  match ffprobe w inputFile with
  | ProbeSpawnFailed message => (initialPlayer [], Uncaught message)
  | ProbeInterrupted => (initialPlayer [], Killed)
  | ProbeClosed =>
      match getVideoInfo w inputFile with
      | inr message => (initialPlayer [], Reject MetadataFailure message)
      | inl videoInfo =>
          let dimensions :=
            calculateAspectRatioDimensions (columns w) (rows w)
              (info_width videoInfo) (info_height videoInfo) in
          let p := initialPlayer [] in
          let p := console_log ("Playing: " ++ inputFile) p in
          let p := console_log
            ("Video: " ++ show_Z (info_width videoInfo) ++ "x"
             ++ show_Z (info_height videoInfo) ++ " @ "
             ++ toFixed2 (fps videoInfo) ++ " fps") p in
          let p := console_log
            ("ASCII: " ++ show_Z (width dimensions) ++ "x"
             ++ show_Z (height dimensions)) p in
          let p := console_log ("Press Ctrl+C to stop" ++ LF) p in
          let p := stdout_write CURSOR_HIDE p in
          let p := console_clear p in
          match startupInterrupt w with
          | Some n => (initialPlayer (firstn n (stdout p)), Killed)
          | None =>
              let frameInterval := (1000 / fps videoInfo)%js in
              session (width dimensions) (height dimensions) frameInterval
                (events w) false p
          end
      end
  end.

(** What a run of the program leaves: the operations on the terminal,
    the lines the program wrote to the standard error, the error Node
    reports there when one was thrown out of the event loop, and how the
    run ended. *)
Record Outcome : Type := {
  terminal : list termOp;
  stderr : list string;
  uncaught : option string;
  result : completion
}.

Definition main (w : World) : Outcome :=
  match argv w with
  | [] =>
      {| terminal := [];
         stderr := ["Usage: node main.js <video-file>" ++ LF;
                    "   or: ascii-play <video-file>" ++ LF];
         uncaught := None;
         result := Exit UsageError 1 |}
  | inputFile :: _ =>
      if negb (existsSync w inputFile) then
        {| terminal := [];
           stderr := ["Error: File not found: " ++ inputFile ++ LF];
           uncaught := None;
           result := Exit InputNotFound 1 |}
      else
        match playVideo w inputFile with
        | (p, Reject path message) =>
            let p := stdout_write CURSOR_SHOW p in
            {| terminal := stdout p;
               stderr := ["Error: " ++ message ++ LF];
               uncaught := None;
               result := Exit path 1 |}
        | (p, Uncaught message) =>
            {| terminal := stdout p; stderr := [];
               uncaught := Some message;
               result := Exit ProbeSpawnFailure 1 |}
        | (p, c) =>
            {| terminal := stdout p; stderr := []; uncaught := None;
               result := c |}
        end
  end.

(** The cursor is visible after a sequence of terminal operations: no
    hide sequence was written, or a show sequence was written after the
    last one. *)
Fixpoint cursorVisible (visible : bool) (ops : list termOp) : bool :=
  match ops with
  | [] => visible
  | Write s :: ops' =>
      if String.eqb s CURSOR_HIDE then cursorVisible false ops'
      else if String.eqb s CURSOR_SHOW then cursorVisible true ops'
      else cursorVisible visible ops'
  | Clear :: ops' => cursorVisible visible ops'
  end.

(** A terminal operation that leaves the visibility of the cursor alone. *)
Definition neutralOp (op : termOp) : bool :=
  match op with
  | Write s => negb (String.eqb s CURSOR_HIDE) && negb (String.eqb s CURSOR_SHOW)
  | Clear => true
  end.

Fixpoint lastChar (s : string) : option ascii :=
  match s with
  | EmptyString => None
  | String c EmptyString => Some c
  | String _ rest => lastChar rest
  end.

(** A text that is empty or ends with a line feed. *)
Definition fullLines (s : string) : Prop :=
  s = EmptyString \/ lastChar s = Some (ascii_of_nat 10).

(** [p'] extends the terminal output of [p] by operations that leave the
    cursor alone. *)
Definition quietly_extends (p p' : Player) : Prop :=
  exists ops, stdout p' = (stdout p ++ ops)%list /\ forallb neutralOp ops = true.

(** The cursor has been shown and not hidden since. *)
Definition shown (p : Player) : Prop :=
  cursorVisible true (stdout p) = true /\ In (Write CURSOR_SHOW) (stdout p).

(** A run of the program on the file [clip.mp4], a 640x480 video at 25
    frames per second, in a terminal of 80 columns and 24 rows. *)
Definition clipWorld (present : bool) (probe : VideoInfo + string)
    (evs : list event) : World :=
  {| argv := ["clip.mp4"%string];
     existsSync := fun _ => present;
     ffprobe := fun _ => ProbeClosed;
     getVideoInfo := fun _ => probe;
     columns := Some 80%Z;
     rows := Some 24%Z;
     startupInterrupt := None;
     events := evs |}.

Definition clipInfo : VideoInfo :=
  {| info_width := 640; info_height := 480; fps := 25 |}.

(** ** Rounding errors: the glyph index in exact arithmetic *)

(** The relative error of one rounding of a normal number is at most
    [ulp53]. *)
Definition ulp53 : Q := pow2 (-53).

(** [b] to the power [k]. *)
Fixpoint qpow (b : Q) (k : nat) : Q :=
  match k with
  | O => 1
  | S k' => b * qpow b k'
  end.

(** [x] is [y] up to [k] roundings. *)
Definition approx (k : nat) (x y : Q) : Prop :=
  qpow (1 - ulp53) k * y <= x /\ x <= qpow (1 + ulp53) k * y.

(** Zero, or at least [2^t]. *)
Definition zero_or_above (t : Z) (x : Q) : Prop := x == 0 \/ pow2 t <= x.

(** A thousand times the exact luma, 0.299 r + 0.587 g + 0.114 b. *)
Definition lumaNumerator (r g b : Z) : Z := (299 * r + 587 * g + 114 * b)%Z.

(** [floor(luma * 9)] with luma = (0.299 r + 0.587 g + 0.114 b) / 255, in
    exact arithmetic. *)
Definition exactIndex (r g b : Z) : Z := (9 * lumaNumerator r g b / 255000)%Z.

(** ** Checking a property of every integer below a bound *)

Definition all_below (n : nat) (P : Z -> bool) : bool :=
  forallb P (map Z.of_nat (seq 0 n)).

(** The checks behind the colour quantization: on one component value,
    binary64 rounding agrees with the exact formula, and the exact level
    is in range. *)
Definition cube_level_ok (r : Z) : bool :=
  let level := round_exact (inject_Z r / 255 * 5) in
  Z.eqb (Math_round (of_Z r / 255 * 5)%js) level
  && Z.leb 0 level && Z.leb level 5.

Definition grey_step_ok (r : Z) : bool :=
  let grey := round_exact (inject_Z (r - 8) / 247 * 24) in
  Z.eqb (Math_round (of_Z (r - 8) / 247 * 24)%js) grey
  && (Z.ltb r 8 || Z.ltb 248 r || (Z.leb 0 grey && Z.leb grey 23)).

(** ** Testing the number model against the kernel's binary64 floats *)

Definition float_of_Z (z : Z) : float := PrimFloat.of_uint63 (Uint63.of_Z z).

(** Eight component values; the pixels (6,140,9) and (37,91,180) over
    them have a brightness that exact arithmetic puts on a glyph boundary. *)
Definition grid : list Z := [0; 6; 9; 37; 91; 140; 180; 255]%Z.

(** The arithmetic of [rgbToAnsi256], of the brightness and of the
    dimension fitter, computed by the kernel and by the model. *)
Definition cube_agrees (r : Z) : bool :=
  agrees (float_of_Z r / 255 * 5)%float (of_Z r / 255 * 5)%js.

Definition grey_agrees (r : Z) : bool :=
  agrees ((float_of_Z r - 8) / 247 * 24)%float (of_Z (r - 8) / 247 * 24)%js.

#[warnings="-inexact-float"]
Definition brightness_agrees (r g b : Z) : bool :=
  agrees ((float_of_Z r * 0.299 + float_of_Z g * 0.587
           + float_of_Z b * 0.114) / 255 * 9)%float
         (brightness r g b * 9)%js.

Definition fit_agrees (maxWidth maxHeight videoWidth videoHeight : Z) : bool :=
  let ratio := (float_of_Z videoWidth / float_of_Z videoHeight)%float in
  let videoAspectRatio := (of_Z videoWidth / of_Z videoHeight)%js in
  agrees (float_of_Z maxWidth * 0.5 / ratio)%float
         (of_Z maxWidth * 0.5 / videoAspectRatio)%js
  && agrees (float_of_Z maxHeight * ratio / 0.5)%float
            (of_Z maxHeight * videoAspectRatio / 0.5)%js.

(** ** Notions of the further properties *)

(** A terminal dimension as [process.stdout] reports it: absent, or a
    non-negative safe integer. *)
Definition reported (v : option Z) : Prop :=
  match v with
  | Some z => (0 <= z < 2 ^ 53)%Z
  | None => True
  end.

(** The number of frames rendered: [renderFrame] is the only writer of
    the cursor-home sequence. *)
Fixpoint renders (ops : list termOp) : nat :=
  match ops with
  | [] => 0
  | Write s :: ops' => (if String.eqb s CURSOR_HOME then 1 else 0) + renders ops'
  | Clear :: ops' => renders ops'
  end.

(** Every frame enqueued has been rendered or waits in the queue. *)
Definition accounted (p : Player) : Prop :=
  (renders (stdout p) + List.length (frameQueue p))%nat = List.length (enqueued p).

(** The characters of a rendered block: those of the colour-set and reset
    sequences, the ramp and the line feed. *)
Definition blockAlphabet : string :=
  (ESC ++ "[;m0123456789" ++ ASCII_CHARS ++ LF)%string.

Definition blockChar (c : ascii) : bool :=
  existsb (Ascii.eqb c) (list_ascii_of_string blockAlphabet).

Fixpoint string_all (P : ascii -> bool) (s : string) : bool :=
  match s with
  | EmptyString => true
  | String c rest => P c && string_all P rest
  end.

Definition colorSet_ok (colorCode : Z) : bool :=
  string_all blockChar (ESC ++ "[38;5;" ++ show_Z colorCode ++ "m")%string.

Definition ramp_ok (i : Z) : bool :=
  string_all blockChar (show_char (str_get ASCII_CHARS i)).

(** * Properties *)

Local Close Scope string_scope.
Local Open Scope Q_scope.

(** ** Rounding to binary64: monotone, and exact on binary64 values *)

Module Binary64Facts.

Lemma pow2_pos e : 0 < pow2 e.
Proof. apply Qpower_0_lt; reflexivity. Qed.

Lemma pow2_add a b : pow2 (a + b) == pow2 a * pow2 b.
Proof. apply Qpower_plus. discriminate. Qed.

Lemma pow2_sub a b : pow2 (a - b) == pow2 a / pow2 b.
Proof. apply Qpower_minus. discriminate. Qed.

Lemma pow2_le a b : (a <= b)%Z -> pow2 a <= pow2 b.
Proof. intros; apply Qpower_le_compat_l; [assumption | discriminate]. Qed.

Lemma pow2_lt_inv a b : pow2 a < pow2 b -> (a < b)%Z.
Proof. intros; apply (Qpower_lt_compat_l_inv 2); [assumption | reflexivity]. Qed.

Lemma pow2_inject n : (0 <= n)%Z -> inject_Z (2 ^ n) == pow2 n.
Proof. intros; apply Zpower_Qpower; assumption. Qed.

Lemma pow2_succ a : pow2 (a + 1) == 2 * pow2 a.
Proof. rewrite pow2_add. change (pow2 1) with 2. ring. Qed.

Lemma Q_as_quot (x : Q) : x * inject_Z (Zpos (Qden x)) == inject_Z (Qnum x).
Proof. destruct x as [n d]; unfold Qeq, Qmult, inject_Z; simpl. lia. Qed.

(** [mag] brackets its argument between two consecutive powers of two. *)
Lemma mag_spec x : 0 < x -> pow2 (mag x) <= x /\ x < pow2 (mag x + 1).
Proof.
  intros Hx.
  pose proof (Q_as_quot x) as Hq.
  assert (Hn : (0 < Qnum x)%Z)
    by (destruct x as [n d]; unfold Qlt in Hx; simpl in *; lia).
  unfold mag.
  set (n := Qnum x) in *. set (d := Zpos (Qden x)) in *.
  assert (Hd : (0 < d)%Z) by (subst d; lia).
  pose proof (Z.log2_spec n Hn) as [Hn1 Hn2].
  pose proof (Z.log2_spec d Hd) as [Hd1 Hd2].
  pose proof (Z.log2_nonneg n) as Ha. pose proof (Z.log2_nonneg d) as Hb.
  unfold Z.succ in *.
  rewrite Zle_Qle in Hn1, Hd1. rewrite Zlt_Qlt in Hn2, Hd2, Hd.
  rewrite pow2_inject in Hn1, Hn2, Hd1, Hd2 by lia.
  rewrite pow2_succ in Hn2, Hd2.
  pose proof (pow2_pos (Z.log2 d)) as HB.
  pose proof (pow2_pos (Z.log2 n)) as HA.
  pose proof (pow2_sub (Z.log2 n) (Z.log2 d)) as Hsub.
  set (e0 := (Z.log2 n - Z.log2 d)%Z) in *.
  assert (Hmul : pow2 e0 * pow2 (Z.log2 d) == pow2 (Z.log2 n)).
  { rewrite Hsub. field. lra. }
  clearbody e0. clear Hsub.
  pose proof (pow2_pos e0) as HE.
  set (A := pow2 (Z.log2 n)) in *. set (B := pow2 (Z.log2 d)) in *.
  set (N := inject_Z n) in *. set (D := inject_Z d) in *.
  change (inject_Z 0) with 0 in Hd.
  assert (Hup : x < 2 * pow2 e0) by nra.
  assert (Hlo : pow2 e0 < 2 * x) by nra.
  destruct (Qle_bool (pow2 e0) x) eqn:Hc.
  - apply Qle_bool_iff in Hc. rewrite pow2_succ. split; lra.
  - assert (Hlt : x < pow2 e0).
    { apply Qnot_le_lt. intro Hle. apply Qle_bool_iff in Hle. congruence. }
    replace (e0 - 1 + 1)%Z with e0 by lia.
    assert (Hh : pow2 e0 == 2 * pow2 (e0 - 1)).
    { rewrite <- pow2_succ. replace (e0 - 1 + 1)%Z with e0 by lia. reflexivity. }
    split; lra.
Qed.

Lemma mag_mono x y : 0 < x -> x <= y -> (mag x <= mag y)%Z.
Proof.
  intros Hx Hxy.
  destruct (mag_spec x Hx) as [H1 _].
  destruct (mag_spec y) as [_ H2]; [lra|].
  assert (H : pow2 (mag x) < pow2 (mag y + 1)) by lra.
  apply pow2_lt_inv in H. lia.
Qed.

Lemma cexp_mono x y : 0 < x -> x <= y -> (cexp x <= cexp y)%Z.
Proof. intros Hx Hxy. pose proof (mag_mono x y Hx Hxy). unfold cexp. lia. Qed.

Lemma ZnearestE_bounds s : (Qfloor s <= ZnearestE s <= Qfloor s + 1)%Z.
Proof.
  unfold ZnearestE. destruct (Qcompare _ _); [destruct (Z.even _)| |]; lia.
Qed.

Lemma ZnearestE_Z s n : s == inject_Z n -> ZnearestE s = n.
Proof.
  intros Hs. unfold ZnearestE. rewrite (Qfloor_comp _ _ Hs), Qfloor_Z.
  assert (Hc : Qcompare (s - inject_Z n) (1 # 2) = Lt)
    by (apply (proj1 (Qlt_alt _ _)); lra).
  rewrite Hc. reflexivity.
Qed.

Lemma ZnearestE_mono s t : s <= t -> (ZnearestE s <= ZnearestE t)%Z.
Proof.
  intros Hst.
  pose proof (Qfloor_resp_le _ _ Hst) as Hf.
  pose proof (ZnearestE_bounds s) as Hs. pose proof (ZnearestE_bounds t) as Ht.
  destruct (Z.eq_dec (Qfloor s) (Qfloor t)) as [E|NE]; [|lia].
  unfold ZnearestE in *. rewrite <- E in *.
  destruct (Qcompare_spec (s - inject_Z (Qfloor s)) (1 # 2)) as [H1|H1|H1];
    destruct (Qcompare_spec (t - inject_Z (Qfloor s)) (1 # 2)) as [H2|H2|H2];
    try destruct (Z.even (Qfloor s)); try lia; exfalso; lra.
Qed.

(** A positive number scaled by its unit in the last place has at most
    53 bits, and exactly 53 when the number is normal. *)
Lemma scaled_lt x : 0 < x -> x / pow2 (cexp x) < pow2 53.
Proof.
  intros Hx. destruct (mag_spec x Hx) as [_ H].
  pose proof (pow2_pos (cexp x)) as Hc.
  apply Qlt_shift_div_r; [assumption|].
  rewrite <- pow2_add.
  eapply Qlt_le_trans; [exact H|]. apply pow2_le. unfold cexp. lia.
Qed.

Lemma scaled_ge x :
  0 < x -> cexp x = (mag x - 52)%Z -> pow2 52 <= x / pow2 (cexp x).
Proof.
  intros Hx Hc. destruct (mag_spec x Hx) as [H _].
  apply Qle_shift_div_l; [apply pow2_pos|].
  rewrite <- pow2_add, Hc.
  replace (52 + (mag x - 52))%Z with (mag x) by lia. exact H.
Qed.

Lemma rnd_pos_nonneg x : 0 < x -> 0 <= rnd_pos x.
Proof.
  intros Hx. unfold rnd_pos.
  pose proof (pow2_pos (cexp x)) as Hc.
  assert (H : 0 <= x / pow2 (cexp x)).
  { apply Qle_shift_div_l; [assumption|]. lra. }
  pose proof (ZnearestE_mono 0 _ H) as Hm.
  rewrite (ZnearestE_Z 0 0%Z) in Hm by reflexivity.
  rewrite Zle_Qle in Hm. change (inject_Z 0) with 0 in Hm. nra.
Qed.

Lemma rnd_pos_mono x y : 0 < x -> x <= y -> rnd_pos x <= rnd_pos y.
Proof.
  intros Hx Hxy. assert (Hy : 0 < y) by lra.
  pose proof (cexp_mono x y Hx Hxy) as Hc.
  unfold rnd_pos.
  pose proof (pow2_pos (cexp x)) as Hpx. pose proof (pow2_pos (cexp y)) as Hpy.
  destruct (Z.eq_dec (cexp x) (cexp y)) as [E|NE].
  - (* same binade: rounding the significand is monotone *)
    rewrite E in *.
    assert (Hs : x / pow2 (cexp y) <= y / pow2 (cexp y)).
    { apply Qle_shift_div_l; [assumption|]. field_simplify; [lra|lra]. }
    apply ZnearestE_mono in Hs. rewrite Zle_Qle in Hs. nra.
  - (* [y] lies in a higher binade: a power of two separates the results *)
    assert (Hlt : (cexp x + 1 <= cexp y)%Z) by lia.
    assert (Hn : cexp y = (mag y - 52)%Z) by (unfold cexp in *; lia).
    pose proof (scaled_ge y Hy Hn) as Hge.
    pose proof (scaled_lt x Hx) as Hlt'.
    assert (Hmx : (ZnearestE (x / pow2 (cexp x)) <= 2 ^ 53)%Z).
    { rewrite <- (ZnearestE_Z (pow2 53) (2 ^ 53)%Z)
        by (symmetry; apply pow2_inject; lia).
      apply ZnearestE_mono. lra. }
    assert (Hmy : (2 ^ 52 <= ZnearestE (y / pow2 (cexp y)))%Z).
    { rewrite <- (ZnearestE_Z (pow2 52) (2 ^ 52)%Z) at 1
        by (symmetry; apply pow2_inject; lia).
      apply ZnearestE_mono. lra. }
    rewrite Zle_Qle in Hmx, Hmy. rewrite pow2_inject in Hmx, Hmy by lia.
    pose proof (pow2_le _ _ Hlt) as Hp. rewrite pow2_succ in Hp.
    assert (H53 : pow2 53 == 2 * pow2 52) by reflexivity.
    pose proof (pow2_pos 52).
    apply Qle_trans with (pow2 53 * pow2 (cexp x)); [nra|].
    apply Qle_trans with (pow2 52 * pow2 (cexp y)); [nra|nra].
Qed.

Lemma rnd_mono x y : x <= y -> rnd x <= rnd y.
Proof.
  intros Hxy. unfold rnd. apply Qred_le.
  destruct (Qcompare_spec 0 x) as [Hx|Hx|Hx];
    destruct (Qcompare_spec 0 y) as [Hy|Hy|Hy]; try lra.
  - apply rnd_pos_nonneg; assumption.
  - apply rnd_pos_mono; assumption.
  - pose proof (rnd_pos_nonneg (- x)). lra.
  - pose proof (rnd_pos_nonneg (- x)). pose proof (rnd_pos_nonneg y). lra.
  - pose proof (rnd_pos_mono (- y) (- x)). lra.
Qed.

Lemma rnd_comp x y : x == y -> rnd x == rnd y.
Proof. intros E. apply Qle_antisym; apply rnd_mono; lra. Qed.

#[export] Instance rnd_Proper : Proper (Qeq ==> Qeq) rnd.
Proof. intros x y E. apply rnd_comp, E. Qed.

Lemma rnd_pos_comp x y : 0 < x -> x == y -> rnd_pos x == rnd_pos y.
Proof. intros Hx E. apply Qle_antisym; apply rnd_pos_mono; lra. Qed.

Lemma rnd_pos_exact m e :
  (0 < m < 2 ^ 53)%Z -> (-1074 <= e)%Z ->
  rnd_pos (inject_Z m * pow2 e) == inject_Z m * pow2 e.
Proof.
  intros Hm He. set (x := inject_Z m * pow2 e).
  pose proof (pow2_pos e) as Hpe.
  assert (Hm0 : inject_Z 0 < inject_Z m) by (rewrite <- Zlt_Qlt; lia).
  change (inject_Z 0) with 0 in Hm0.
  assert (Hx : 0 < x) by (subst x; nra).
  assert (Hc : (cexp x <= e)%Z).
  { destruct (mag_spec x Hx) as [H1 _].
    assert (Hm53 : inject_Z m < pow2 53).
    { setoid_replace (pow2 53) with (inject_Z (2 ^ 53))
        by (symmetry; apply pow2_inject; lia).
      rewrite <- Zlt_Qlt. lia. }
    assert (H : x < pow2 53 * pow2 e) by (subst x; nra).
    rewrite <- pow2_add in H.
    assert (H0 : pow2 (mag x) < pow2 (53 + e)) by lra.
    apply pow2_lt_inv in H0. unfold cexp. lia. }
  pose proof (pow2_pos (cexp x)) as Hpc.
  unfold rnd_pos.
  rewrite (ZnearestE_Z _ (m * 2 ^ (e - cexp x))%Z).
  - rewrite inject_Z_mult, pow2_inject by lia. rewrite pow2_sub.
    subst x. field. lra.
  - rewrite inject_Z_mult, pow2_inject by lia. rewrite pow2_sub.
    subst x. field. lra.
Qed.

(** A number with at most 53 significant bits is left as it is. *)
Lemma rnd_exact m e :
  (Z.abs m < 2 ^ 53)%Z -> (-1074 <= e)%Z ->
  rnd (inject_Z m * pow2 e) == inject_Z m * pow2 e.
Proof.
  intros Hm He. unfold rnd. rewrite Qred_correct.
  pose proof (pow2_pos e) as Hp.
  destruct (Qcompare_spec 0 (inject_Z m * pow2 e)) as [H|H|H].
  - assumption.
  - apply rnd_pos_exact; [|assumption].
    assert (H0 : inject_Z 0 < inject_Z m) by (change (inject_Z 0) with 0; nra).
    rewrite <- Zlt_Qlt in H0. lia.
  - assert (H0 : inject_Z m < inject_Z 0) by (change (inject_Z 0) with 0; nra).
    rewrite <- Zlt_Qlt in H0.
    assert (E : - (inject_Z m * pow2 e) == inject_Z (- m) * pow2 e)
      by (rewrite inject_Z_opp; ring).
    assert (Hpos : 0 < - (inject_Z m * pow2 e)) by lra.
    rewrite (rnd_pos_comp _ _ Hpos E), rnd_pos_exact by lia.
    rewrite inject_Z_opp. ring.
Qed.

Lemma rnd_Z m : (Z.abs m < 2 ^ 53)%Z -> rnd (inject_Z m) == inject_Z m.
Proof.
  intros Hm. pose proof (rnd_exact m 0 Hm ltac:(lia)) as H.
  change (pow2 0) with 1 in H.
  rewrite Qmult_1_r in H. exact H.
Qed.

Lemma rnd_half m :
  (Z.abs m < 2 ^ 53)%Z -> rnd (inject_Z m * (1 # 2)) == inject_Z m * (1 # 2).
Proof. intros Hm. exact (rnd_exact m (-1) Hm ltac:(lia)). Qed.

Lemma rnd_nonneg x : 0 <= x -> 0 <= rnd x.
Proof. intros H. change 0 with (rnd 0) at 1. apply rnd_mono, H. Qed.

End Binary64Facts.

Import Binary64Facts.

(** The model computes what the kernel's binary64 floats compute: the
    literals of the source, products, sums and quotients of the pixel
    mapper and of the dimension fitter, ties and subnormal results. *)
#[warnings="-inexact-float"]
Example rnd_agrees_with_binary64 :
  forallb (fun c => agrees (fst c) (snd c))
    [ (0.299%float, lit 0.299);
      (0.587%float, lit 0.587);
      (0.114%float, lit 0.114);
      ((255 * 0.299)%float, (255 * lit 0.299)%js);
      ((6 * 0.299 + 140 * 0.587)%float, (6 * lit 0.299 + 140 * lit 0.587)%js);
      (((6 * 0.299 + 140 * 0.587 + 9 * 0.114) / 255 * 9)%float,
       (brightness 6 140 9 * 9)%js);
      ((1000 / 29.97)%float, (1000 / lit 29.97)%js);
      ((1 / 3)%float, (1 / 3)%js);
      ((-1 / 3)%float, (-1 / 3)%js);
      ((0x1.fffffffffffffp52 + 0.5)%float, (inject_Z (2 ^ 53 - 1) + 0.5)%js);
      ((0x1.ffffffffffffep52 + 0.5)%float, (inject_Z (2 ^ 53 - 2) + 0.5)%js);
      ((0x1p-1074 * 0.75)%float, (pow2 (-1074) * 0.75)%js);
      ((0x1p-1074 / 2)%float, (pow2 (-1074) / 2)%js);
      ((0x1p-1070 / 3)%float, (pow2 (-1070) / 3)%js) ] = true.
Proof. vm_compute. reflexivity. Qed.

(** So do the colour levels of all 256 component values, the scaled
    brightness of the 512 pixels of a grid, and the two quotients of the
    dimension fitter on a grid of terminal and video sizes. *)
Example pixel_arithmetic_agrees_with_binary64 :
  all_below 256 cube_agrees && all_below 256 grey_agrees
  && forallb (fun r => forallb (fun g =>
       forallb (brightness_agrees r g) grid) grid) grid = true.
Proof. vm_compute. reflexivity. Qed.

Example fitter_arithmetic_agrees_with_binary64 :
  forallb (fun t => forallb (fun w => forallb (fun h =>
    fit_agrees (t + 20) (t + 1) (8 * w + 16) (8 * h + 9)) grid) grid) grid
  = true.
Proof. vm_compute. reflexivity. Qed.

(** ** Bounded checks *)

Lemma all_below_spec n P :
  all_below n P = true -> forall z, (0 <= z < Z.of_nat n)%Z -> P z = true.
Proof.
  unfold all_below. intros H z Hz.
  rewrite forallb_forall in H. apply H.
  apply in_map_iff. exists (Z.to_nat z). split; [lia|].
  apply in_seq. lia.
Qed.

(** ** Monotone operations on numbers *)

Lemma fadd_mono x x' y y' : x <= x' -> y <= y' -> (x + y)%js <= (x' + y')%js.
Proof. intros Hx Hy. unfold fadd. apply rnd_mono. lra. Qed.

Lemma fmul_mono_l c x y : 0 <= c -> x <= y -> (x * c)%js <= (y * c)%js.
Proof. intros Hc Hxy. unfold fmul. apply rnd_mono. nra. Qed.

Lemma fdiv_mono_l c x y : 0 < c -> x <= y -> (x / c)%js <= (y / c)%js.
Proof.
  intros Hc Hxy. unfold fdiv. apply rnd_mono.
  apply Qle_shift_div_l; [assumption|]. field_simplify; lra.
Qed.

Lemma fmul_comm x y : (x * y)%js == (y * x)%js.
Proof. unfold fmul. apply rnd_comp. ring. Qed.

Lemma of_Z_le a b : (a <= b)%Z -> of_Z a <= of_Z b.
Proof. intros H. unfold of_Z. rewrite <- Zle_Qle. exact H. Qed.

(** ** C1: Dimension Fitter *)

Lemma videoAspectRatio_pos vw vh :
  safe vw -> safe vh -> 0 < (of_Z vw / of_Z vh)%js.
Proof.
  intros [Hw1 Hw2] [Hh1 Hh2]. unfold fdiv, of_Z.
  apply Qlt_le_trans with (pow2 (-53)); [apply pow2_pos|].
  rewrite <- (Qmult_1_l (pow2 (-53))).
  rewrite <- (rnd_exact 1 (-53)) by lia.
  apply rnd_mono.
  assert (Hw : inject_Z 1 <= inject_Z vw) by (rewrite <- Zle_Qle; lia).
  assert (Hh : inject_Z vh <= inject_Z (2 ^ 53)) by (rewrite <- Zle_Qle; lia).
  assert (Hh0 : inject_Z 0 < inject_Z vh) by (rewrite <- Zlt_Qlt; lia).
  rewrite pow2_inject in Hh by lia.
  change (inject_Z 1) with 1 in *. change (inject_Z 0) with 0 in *.
  apply Qle_shift_div_l; [assumption|].
  assert (E : pow2 (-53) * pow2 53 == 1) by reflexivity.
  pose proof (pow2_pos (-53)). nra.
Qed.

(** C1, as stated, fails: for a 1920x1080 video in a terminal of 80
    columns and 2 rows the fitter returns width 0 and height 0, so the
    four bounds do not hold together. *)
Lemma calculateAspectRatioDimensions_degenerate :
  let d := calculateAspectRatioDimensions (Some 80%Z) (Some 2%Z) 1920 1080 in
  width d = 0%Z /\ height d = 0%Z /\
  ~ (width d <= 80 /\ height d <= 2 - 2 /\ 1 <= width d /\ 1 <= height d)%Z.
Proof. vm_compute. repeat split; intros [_ [_ [H _]]]; apply H; reflexivity. Qed.

(** C1, amended: for positive safe-integer video and terminal sizes the
    fitted raster satisfies width <= terminalColumns and
    height <= terminalRows - 2.  (The lower bounds are not guaranteed:
    the fitter does not clamp.) *)
Theorem calculateAspectRatioDimensions_fits columns rows videoWidth videoHeight :
  safe videoWidth -> safe videoHeight -> safe columns -> safe rows ->
  let d := calculateAspectRatioDimensions (Some columns) (Some rows)
             videoWidth videoHeight in
  (width d <= columns /\ height d <= rows - 2)%Z.
Proof.
  intros Hvw Hvh Hc Hr.
  pose proof (videoAspectRatio_pos videoWidth videoHeight Hvw Hvh) as Hvar.
  unfold calculateAspectRatioDimensions, getTerminalSize, js_or; cbn [width height].
  destruct Hc as [Hc1 Hc2]. destruct Hr as [Hr1 Hr2].
  replace (columns =? 0)%Z with false by (symmetry; apply Z.eqb_neq; lia).
  replace (rows =? 0)%Z with false by (symmetry; apply Z.eqb_neq; lia).
  set (var := (of_Z videoWidth / of_Z videoHeight)%js) in *. clearbody var.
  set (maxH := (rows - 2)%Z).
  destruct (Z.gtb_spec (Math_floor (of_Z columns * (1 # 2) / var)%js) maxH)
    as [Hgt|Hle]; cbn [width height]; [|lia].
  split; [|lia].
  unfold Math_floor, fdiv, fmul, of_Z in *.
  (* the first fit overflows the rows: its quotient is at least maxH + 1 *)
  assert (Hq1 : inject_Z (maxH + 1)
                <= rnd (rnd (inject_Z columns * (1 # 2)) / var)).
  { eapply Qle_trans; [|apply Qfloor_le]. rewrite <- Zle_Qle. lia. }
  rewrite rnd_half in Hq1 by lia.
  assert (Hcols : inject_Z 0 < inject_Z columns) by (rewrite <- Zlt_Qlt; lia).
  change (inject_Z 0) with 0 in Hcols.
  (* hence maxH * ratio cannot exceed half the columns *)
  assert (Hprod : inject_Z maxH * var <= inject_Z columns * (1 # 2)).
  { destruct (Z_le_gt_dec maxH 0) as [Hn|Hp].
    - assert (H : inject_Z maxH <= inject_Z 0) by (rewrite <- Zle_Qle; lia).
      change (inject_Z 0) with 0 in H.
      assert (0 <= (- inject_Z maxH) * var) by (apply Qmult_le_0_compat; lra).
      lra.
    - apply Qnot_lt_le. intros Hcontra.
      assert (Hdiv : inject_Z columns * (1 # 2) / var <= inject_Z maxH).
      { apply Qle_shift_div_r; [assumption|]. lra. }
      apply rnd_mono in Hdiv. rewrite rnd_Z in Hdiv by lia.
      rewrite inject_Z_plus in Hq1. change (inject_Z 1) with 1 in Hq1. lra. }
  apply rnd_mono in Hprod. rewrite rnd_half in Hprod by lia.
  assert (Hw : rnd (inject_Z maxH * var) / (1 # 2) <= inject_Z columns).
  { apply Qle_shift_div_r; [reflexivity|]. lra. }
  apply rnd_mono in Hw. rewrite rnd_Z in Hw by lia.
  rewrite <- (Qfloor_Z columns). apply Qfloor_resp_le. exact Hw.
Qed.

Lemma calculateAspectRatioDimensions_fits_witness :
  let d := calculateAspectRatioDimensions (Some 80%Z) (Some 24%Z) 640 480 in
  (width d <= 80 /\ height d <= 24 - 2)%Z.
Proof.
  apply (calculateAspectRatioDimensions_fits 80 24 640 480);
    unfold safe; split; reflexivity.
Defined.

(** ** C3: colour quantization *)

(** Binary64 rounding never moves a cube level or a grey step across a
    rounding boundary: checked on each of the 256 component values. *)
Lemma cube_level_checked r : (0 <= r <= 255)%Z -> cube_level_ok r = true.
Proof.
  intros Hr. apply (all_below_spec 256 cube_level_ok); [vm_compute; reflexivity | lia].
Qed.

Lemma grey_step_checked r : (0 <= r <= 255)%Z -> grey_step_ok r = true.
Proof.
  intros Hr. apply (all_below_spec 256 grey_step_ok); [vm_compute; reflexivity | lia].
Qed.

Lemma cube_level_exact r :
  (0 <= r <= 255)%Z ->
  Math_round (of_Z r / 255 * 5)%js = round_exact (inject_Z r / 255 * 5).
Proof.
  intros Hr. pose proof (cube_level_checked r Hr) as H. unfold cube_level_ok in H.
  cbv zeta in H. apply andb_prop in H. destruct H as [H _].
  apply andb_prop in H. destruct H as [H _]. apply Z.eqb_eq in H. exact H.
Qed.

Lemma cube_level_range r :
  (0 <= r <= 255)%Z -> (0 <= round_exact (inject_Z r / 255 * 5) <= 5)%Z.
Proof.
  intros Hr. pose proof (cube_level_checked r Hr) as H. unfold cube_level_ok in H.
  cbv zeta in H. apply andb_prop in H. destruct H as [H H2].
  apply andb_prop in H. destruct H as [_ H1].
  apply Z.leb_le in H1. apply Z.leb_le in H2. lia.
Qed.

Lemma grey_step_exact r :
  (0 <= r <= 255)%Z ->
  Math_round (of_Z (r - 8) / 247 * 24)%js
  = round_exact (inject_Z (r - 8) / 247 * 24).
Proof.
  intros Hr. pose proof (grey_step_checked r Hr) as H. unfold grey_step_ok in H.
  cbv zeta in H. apply andb_prop in H. destruct H as [H _].
  apply Z.eqb_eq in H. exact H.
Qed.

Lemma grey_step_range r :
  (8 <= r <= 248)%Z -> (0 <= round_exact (inject_Z (r - 8) / 247 * 24) <= 23)%Z.
Proof.
  intros Hr. pose proof (grey_step_checked r ltac:(lia)) as H.
  unfold grey_step_ok in H. cbv zeta in H.
  apply andb_prop in H. destruct H as [_ H].
  replace (r <? 8)%Z with false in H by (symmetry; apply Z.ltb_ge; lia).
  replace (248 <? r)%Z with false in H by (symmetry; apply Z.ltb_ge; lia).
  simpl in H. apply andb_prop in H. destruct H as [H1 H2].
  apply Z.leb_le in H1. apply Z.leb_le in H2. lia.
Qed.

Lemma rgbToAnsi256_eq_spec r g b :
  (0 <= r <= 255)%Z -> (0 <= g <= 255)%Z -> (0 <= b <= 255)%Z ->
  rgbToAnsi256 r g b = colorIndex_spec r g b.
Proof.
  intros Hr Hg Hb. unfold rgbToAnsi256, colorIndex_spec.
  destruct ((r =? g) && (g =? b))%Z.
  - destruct (Z.ltb_spec r 8); [reflexivity|].
    rewrite Z.gtb_ltb.
    destruct (Z.ltb_spec 248 r); [reflexivity|].
    cbv zeta. rewrite grey_step_exact by lia. lia.
  - cbv zeta. rewrite !cube_level_exact by lia. lia.
Qed.

(** C3: for every pixel with components in 0..255, [rgbToAnsi256] returns
    the colour index of the specification's formula (evaluated exactly):
    grey pixels go to 16 below 8, to 231 above 248, and to
    232 + round((r-8)/247*24) otherwise; other pixels to
    16 + 36*round(r/255*5) + 6*round(g/255*5) + round(b/255*5).  The index
    lies in 16..255; (0,0,0) maps to 16, (255,255,255) to 231,
    (128,128,128) into 232..255 and (255,0,0) to 196. *)
Theorem rgbToAnsi256_correct r g b :
  (0 <= r <= 255)%Z -> (0 <= g <= 255)%Z -> (0 <= b <= 255)%Z ->
  rgbToAnsi256 r g b = colorIndex_spec r g b
  /\ (16 <= rgbToAnsi256 r g b <= 255)%Z
  /\ rgbToAnsi256 0 0 0 = 16%Z
  /\ rgbToAnsi256 255 255 255 = 231%Z
  /\ (232 <= rgbToAnsi256 128 128 128 <= 255)%Z
  /\ rgbToAnsi256 255 0 0 = 196%Z.
Proof.
  intros Hr Hg Hb.
  pose proof (rgbToAnsi256_eq_spec r g b Hr Hg Hb) as E.
  split; [exact E|]. split.
  - rewrite E. unfold colorIndex_spec.
    destruct ((r =? g) && (g =? b))%Z.
    + destruct (Z.ltb_spec r 8); [lia|].
      destruct (Z.ltb_spec 248 r); [lia|].
      pose proof (grey_step_range r ltac:(lia)). lia.
    + pose proof (cube_level_range r Hr). pose proof (cube_level_range g Hg).
      pose proof (cube_level_range b Hb). lia.
  - vm_compute. repeat split; discriminate.
Qed.

Lemma rgbToAnsi256_correct_witness :
  rgbToAnsi256 12 200 77 = colorIndex_spec 12 200 77
  /\ (16 <= rgbToAnsi256 12 200 77 <= 255)%Z
  /\ rgbToAnsi256 0 0 0 = 16%Z
  /\ rgbToAnsi256 255 255 255 = 231%Z
  /\ (232 <= rgbToAnsi256 128 128 128 <= 255)%Z
  /\ rgbToAnsi256 255 0 0 = 196%Z.
Proof. apply (rgbToAnsi256_correct 12 200 77); lia. Defined.

(** ** Glyph selection: the index and the ramp *)

Lemma lit_nonneg q : 0 <= q -> 0 <= lit q.
Proof. apply rnd_nonneg. Qed.

Lemma brightness_mono r g b r' g' b' :
  (r <= r')%Z -> (g <= g')%Z -> (b <= b')%Z ->
  brightness r g b <= brightness r' g' b'.
Proof.
  intros Hr Hg Hb. unfold brightness.
  assert (Hlit : forall q, 0 <= q -> forall x y : Z,
            (x <= y)%Z -> (of_Z x * lit q)%js <= (of_Z y * lit q)%js).
  { intros q Hq x y Hxy.
    apply fmul_mono_l; [apply lit_nonneg, Hq | apply of_Z_le, Hxy]. }
  apply fdiv_mono_l; [reflexivity|].
  apply fadd_mono; [apply fadd_mono|]; apply Hlit; solve [assumption | discriminate].
Qed.

Lemma charIndex_mono r g b r' g' b' :
  (r <= r')%Z -> (g <= g')%Z -> (b <= b')%Z ->
  (charIndex r g b <= charIndex r' g' b')%Z.
Proof.
  intros Hr Hg Hb. unfold charIndex, Math_floor.
  apply Qfloor_resp_le, fmul_mono_l; [discriminate|].
  apply brightness_mono; assumption.
Qed.

Lemma charIndex_range r g b :
  (0 <= r <= 255)%Z -> (0 <= g <= 255)%Z -> (0 <= b <= 255)%Z ->
  (0 <= charIndex r g b <= 9)%Z.
Proof.
  intros Hr Hg Hb.
  pose proof (charIndex_mono 0 0 0 r g b) as Hlo.
  pose proof (charIndex_mono r g b 255 255 255) as Hhi.
  assert (E0 : charIndex 0 0 0 = 0%Z) by (vm_compute; reflexivity).
  assert (E1 : charIndex 255 255 255 = 9%Z) by (vm_compute; reflexivity).
  lia.
Qed.

Lemma ramp_defined i :
  (0 <= i <= 9)%Z -> exists c, String.get (Z.to_nat i) ASCII_CHARS = Some c.
Proof.
  intros Hi.
  assert (H : (Z.to_nat i < 10)%nat) by lia.
  destruct (Z.to_nat i) as [|[|[|[|[|[|[|[|[|[|n]]]]]]]]]];
    try (eexists; reflexivity); lia.
Qed.

Lemma char_at_charIndex r g b :
  (0 <= r <= 255)%Z -> (0 <= g <= 255)%Z -> (0 <= b <= 255)%Z ->
  char r g b = String.get (Z.to_nat (charIndex r g b)) ASCII_CHARS.
Proof.
  intros Hr Hg Hb. pose proof (charIndex_range r g b Hr Hg Hb) as Hi.
  unfold char, str_get.
  replace (charIndex r g b <? 0)%Z with false by (symmetry; apply Z.ltb_ge; lia).
  reflexivity.
Qed.

Lemma char_defined r g b :
  (0 <= r <= 255)%Z -> (0 <= g <= 255)%Z -> (0 <= b <= 255)%Z ->
  exists c, char r g b = Some c.
Proof.
  intros Hr Hg Hb. rewrite char_at_charIndex by assumption.
  apply ramp_defined, charIndex_range; assumption.
Qed.

(** ** The glyph index in binary64 and in exact arithmetic *)

Lemma ulp53_bounds : 0 < ulp53 /\ ulp53 < 1.
Proof. split; reflexivity. Qed.

Lemma qpow_lo_pos k : 0 < qpow (1 - ulp53) k.
Proof.
  induction k as [|k IH]; cbn [qpow]; [reflexivity|].
  destruct ulp53_bounds. apply Qmult_lt_0_compat; [lra | exact IH].
Qed.

Lemma qpow_hi_pos k : 0 < qpow (1 + ulp53) k.
Proof.
  induction k as [|k IH]; cbn [qpow]; [reflexivity|].
  destruct ulp53_bounds. apply Qmult_lt_0_compat; [lra | exact IH].
Qed.

Lemma ZnearestE_err s :
  inject_Z (ZnearestE s) - s <= 1 # 2 /\ s - inject_Z (ZnearestE s) <= 1 # 2.
Proof.
  pose proof (Qfloor_le s) as Hlo. pose proof (Qlt_floor s) as Hhi.
  rewrite inject_Z_plus in Hhi. change (inject_Z 1) with 1 in Hhi.
  unfold ZnearestE.
  destruct (Qcompare_spec (s - inject_Z (Qfloor s)) (1 # 2)) as [H|H|H];
    [destruct (Z.even (Qfloor s))| |];
    rewrite ?inject_Z_plus; change (inject_Z 1) with 1; split; lra.
Qed.

(** One rounding of a normal number changes it by at most 2^-53 of
    itself. *)
Lemma rnd_relative x :
  pow2 (-1022) <= x -> (1 - ulp53) * x <= rnd x /\ rnd x <= (1 + ulp53) * x.
Proof.
  intros Hx. pose proof (pow2_pos (-1022)) as HT.
  assert (Hpos : 0 < x) by lra.
  destruct (mag_spec x Hpos) as [Hm1 Hm2].
  assert (Hmag : (-1022 <= mag x)%Z).
  { assert (H : pow2 (-1022) < pow2 (mag x + 1)) by lra.
    apply pow2_lt_inv in H. lia. }
  assert (Hc : cexp x = (mag x - 52)%Z) by (unfold cexp; lia).
  assert (E : rnd x == rnd_pos x).
  { unfold rnd. rewrite Qred_correct.
    destruct (Qcompare_spec 0 x); [lra | reflexivity | lra]. }
  rewrite E. unfold rnd_pos. rewrite Hc.
  set (c := (mag x - 52)%Z). pose proof (pow2_pos c) as Hpc.
  destruct (ZnearestE_err (x / pow2 c)) as [H1 H2].
  set (m := inject_Z (ZnearestE (x / pow2 c))) in *.
  assert (Hx' : x == (x / pow2 c) * pow2 c) by (field; lra).
  assert (Hhalf : (1 # 2) * pow2 c <= ulp53 * x).
  { assert (Hc1 : pow2 (mag x) == pow2 53 * ((1 # 2) * pow2 c)).
    { subst c. replace (mag x) with (53 + (-1) + (mag x - 52))%Z at 1 by lia.
      rewrite !pow2_add. change (pow2 (-1)) with (1 # 2). ring. }
    assert (Hu : ulp53 * pow2 53 == 1) by reflexivity.
    unfold ulp53 in *. pose proof (pow2_pos (-53)). pose proof (pow2_pos 53).
    nra. }
  set (s := x / pow2 c) in *.
  split; nra.
Qed.

Lemma approx_nonneg k x y : approx k x y -> 0 <= y -> 0 <= x.
Proof.
  intros [H _] Hy. pose proof (qpow_lo_pos k).
  apply Qle_trans with (qpow (1 - ulp53) k * y); [|exact H].
  apply Qmult_le_0_compat; lra.
Qed.

Lemma approx_S k x y : approx k x y -> 0 <= y -> approx (S k) x y.
Proof.
  intros [H1 H2] Hy. pose proof (qpow_lo_pos k). pose proof (qpow_hi_pos k).
  destruct ulp53_bounds as [Hu0 Hu1].
  assert (Hlo : 0 <= qpow (1 - ulp53) k * y) by (apply Qmult_le_0_compat; lra).
  assert (Hhi : 0 <= qpow (1 + ulp53) k * y) by (apply Qmult_le_0_compat; lra).
  split; cbn [qpow].
  - apply Qle_trans with (qpow (1 - ulp53) k * y); [|exact H1].
    rewrite <- Qmult_assoc.
    set (t := qpow (1 - ulp53) k * y) in *. nra.
  - apply Qle_trans with (qpow (1 + ulp53) k * y); [exact H2|].
    rewrite <- Qmult_assoc.
    set (t := qpow (1 + ulp53) k * y) in *. nra.
Qed.

Lemma approx_rnd k t x y :
  approx k x y -> 0 <= y -> zero_or_above t x -> (-1022 <= t)%Z ->
  approx (S k) (rnd x) y.
Proof.
  intros Ha Hy [H0|Ht] Htn.
  - destruct (approx_S k x y Ha Hy) as [H1 H2].
    assert (E : rnd x == x) by (rewrite (rnd_comp x 0 H0), H0; reflexivity).
    split; rewrite E; assumption.
  - destruct (rnd_relative x) as [R1 R2].
    { apply Qle_trans with (pow2 t); [apply pow2_le; lia | exact Ht]. }
    destruct Ha as [H1 H2]. destruct ulp53_bounds as [Hu0 Hu1].
    split; cbn [qpow]; rewrite <- Qmult_assoc.
    + apply Qle_trans with ((1 - ulp53) * x); [|exact R1].
      set (a := qpow (1 - ulp53) k * y) in *. nra.
    + apply Qle_trans with ((1 + ulp53) * x); [exact R2|].
      set (a := qpow (1 + ulp53) k * y) in *. nra.
Qed.

Lemma approx_add k x1 y1 x2 y2 :
  approx k x1 y1 -> approx k x2 y2 -> approx k (x1 + x2) (y1 + y2).
Proof. intros [A1 A2] [B1 B2]. split; rewrite Qmult_plus_distr_r; lra. Qed.

Lemma approx_scale k c x y : 0 <= c -> approx k x y -> approx k (c * x) (c * y).
Proof.
  intros Hc [H1 H2]. split.
  - setoid_replace (qpow (1 - ulp53) k * (c * y))
      with (c * (qpow (1 - ulp53) k * y)) by ring.
    set (a := qpow (1 - ulp53) k * y) in *. nra.
  - setoid_replace (qpow (1 + ulp53) k * (c * y))
      with (c * (qpow (1 + ulp53) k * y)) by ring.
    set (a := qpow (1 + ulp53) k * y) in *. nra.
Qed.

Lemma zero_or_above_rnd t x :
  (-1022 <= t <= 1000)%Z -> zero_or_above t x -> zero_or_above t (rnd x).
Proof.
  intros Ht [H0|H]; [left|right].
  - rewrite (rnd_comp x 0 H0). reflexivity.
  - assert (E : rnd (pow2 t) == pow2 t).
    { pose proof (rnd_exact 1 t ltac:(lia) ltac:(lia)) as R.
      change (inject_Z 1) with 1 in R. rewrite Qmult_1_l in R. exact R. }
    rewrite <- E. apply rnd_mono, H.
Qed.

Lemma zero_or_above_add t x y :
  zero_or_above t x -> zero_or_above t y -> zero_or_above t (x + y).
Proof.
  pose proof (pow2_pos t).
  intros [Hx|Hx] [Hy|Hy]; [left; lra | right; lra | right; lra | right; lra].
Qed.

Lemma approx_comp k x x' y y' :
  x == x' -> y == y' -> approx k x y -> approx k x' y'.
Proof. intros Ex Ey [H1 H2]. split; rewrite <- Ex, <- Ey; assumption. Qed.

Lemma approx_refl x : approx 0 x x.
Proof. split; cbn [qpow]; lra. Qed.

(** A literal of the source, rounded once. *)
Lemma approx_lit q :
  pow2 (-4) <= q -> approx 1 (lit q) q /\ pow2 (-4) <= lit q.
Proof.
  intros Hq. pose proof (pow2_pos (-4)). split.
  - apply (approx_rnd 0 (-4)); [apply approx_refl | lra | right; exact Hq | lia].
  - destruct (zero_or_above_rnd (-4) q ltac:(lia) (or_intror Hq)) as [H0|H1];
      [|exact H1].
    exfalso. unfold lit in *.
    assert (rnd (pow2 (-4)) <= rnd q) by (apply rnd_mono, Hq).
    assert (E : rnd (pow2 (-4)) == pow2 (-4)) by reflexivity.
    lra.
Qed.

(** A component times a weight, rounded. *)
Lemma approx_term c q :
  (0 <= c)%Z -> pow2 (-4) <= q ->
  approx 2 (of_Z c * lit q)%js (inject_Z c * q)
  /\ zero_or_above (-4) (of_Z c * lit q)%js.
Proof.
  intros Hc Hq. destruct (approx_lit q Hq) as [Ha Hl].
  pose proof (pow2_pos (-4)) as Hp.
  assert (Hc0 : 0 <= inject_Z c).
  { change 0 with (inject_Z 0). rewrite <- Zle_Qle. exact Hc. }
  assert (Hz : zero_or_above (-4) (of_Z c * lit q)).
  { unfold of_Z. destruct (Z.eq_dec c 0) as [->|Hne].
    - left. ring.
    - right. assert (H1 : inject_Z 1 <= inject_Z c) by (rewrite <- Zle_Qle; lia).
      change (inject_Z 1) with 1 in H1. nra. }
  split.
  - unfold fmul. apply (approx_rnd 1 (-4)); [|nra|exact Hz|lia].
    apply approx_scale; assumption.
  - unfold fmul. apply zero_or_above_rnd; [lia|exact Hz].
Qed.

Lemma Qfloor_between v k :
  inject_Z k <= v -> v < inject_Z (k + 1) -> Qfloor v = k.
Proof.
  intros H1 H2.
  pose proof (Qfloor_resp_le _ _ H1) as Hlo. rewrite Qfloor_Z in Hlo.
  destruct (Z_lt_le_dec (Qfloor v) (k + 1)) as [Hlt|Hge]; [lia|].
  exfalso. pose proof (Qfloor_le v) as Hf.
  rewrite Zle_Qle in Hge. lra.
Qed.

(** The scaled brightness in binary64 is the exact one up to six
    roundings. *)
Lemma scaled_brightness_approx r g b :
  (0 <= r)%Z -> (0 <= g)%Z -> (0 <= b)%Z ->
  approx 6 (brightness r g b * 9)%js
           (inject_Z (9 * lumaNumerator r g b) / 255000).
Proof.
  intros Hr Hg Hb.
  assert (H299 : pow2 (-4) <= 0.299) by discriminate.
  assert (H587 : pow2 (-4) <= 0.587) by discriminate.
  assert (H114 : pow2 (-4) <= 0.114) by discriminate.
  destruct (approx_term r 0.299 Hr H299) as [Ar Zr].
  destruct (approx_term g 0.587 Hg H587) as [Ag Zg].
  destruct (approx_term b 0.114 Hb H114) as [Ab Zb].
  assert (Qr : 0 <= inject_Z r) by (change 0 with (inject_Z 0); rewrite <- Zle_Qle; lia).
  assert (Qg : 0 <= inject_Z g) by (change 0 with (inject_Z 0); rewrite <- Zle_Qle; lia).
  assert (Qb : 0 <= inject_Z b) by (change 0 with (inject_Z 0); rewrite <- Zle_Qle; lia).
  set (tr := (of_Z r * lit 0.299)%js) in *.
  set (tg := (of_Z g * lit 0.587)%js) in *.
  set (tb := (of_Z b * lit 0.114)%js) in *.
  (* the first sum *)
  assert (A1 : approx 3 (tr + tg)%js (inject_Z r * 0.299 + inject_Z g * 0.587)).
  { unfold fadd. apply (approx_rnd 2 (-4)); [apply approx_add; assumption | lra
      | apply zero_or_above_add; assumption | lia]. }
  assert (Z1 : zero_or_above (-4) (tr + tg)%js).
  { unfold fadd. apply zero_or_above_rnd; [lia|]. apply zero_or_above_add; assumption. }
  (* the second sum *)
  set (Y := inject_Z r * 0.299 + inject_Z g * 0.587 + inject_Z b * 0.114).
  assert (HY : 0 <= Y) by (subst Y; lra).
  assert (A2 : approx 4 (tr + tg + tb)%js Y).
  { unfold fadd at 1. apply (approx_rnd 3 (-4)); [|exact HY| |lia].
    - apply approx_add; [exact A1|]. apply approx_S; [exact Ab|lra].
    - apply zero_or_above_add; assumption. }
  assert (Z2 : zero_or_above (-4) (tr + tg + tb)%js).
  { unfold fadd at 1. apply zero_or_above_rnd; [lia|].
    apply zero_or_above_add; assumption. }
  set (sum := (tr + tg + tb)%js) in *.
  (* the division by 255 *)
  assert (A3 : approx 5 (sum / 255)%js ((1 # 255) * Y)).
  { unfold fdiv.
    apply (approx_rnd 4 (-12)); [| lra | | lia].
    - apply (approx_comp 4 ((1 # 255) * sum) _ ((1 # 255) * Y));
        [field | reflexivity |].
      apply approx_scale; [discriminate | exact A2].
    - destruct Z2 as [H0|H4]; [left; rewrite H0; reflexivity | right].
      assert (E : pow2 (-12) <= pow2 (-4) / 255) by discriminate.
      apply Qle_trans with (pow2 (-4) / 255); [exact E|].
      apply Qle_shift_div_l; [reflexivity|]. field_simplify. lra. }
  assert (Z3 : zero_or_above (-12) (sum / 255)%js).
  { unfold fdiv. apply zero_or_above_rnd; [lia|].
    destruct Z2 as [H0|H4]; [left; rewrite H0; reflexivity | right].
    assert (E : pow2 (-12) <= pow2 (-4) / 255) by discriminate.
    apply Qle_trans with (pow2 (-4) / 255); [exact E|].
    apply Qle_shift_div_l; [reflexivity|]. field_simplify. lra. }
  (* the scaling by 9 *)
  change (brightness r g b) with (sum / 255)%js.
  set (br := (sum / 255)%js) in *.
  unfold fmul.
  apply (approx_comp 6 (rnd (9 * br)) _ (9 * ((1 # 255) * Y)) _).
  - apply rnd_comp. ring.
  - subst Y. unfold lumaNumerator.
    rewrite !inject_Z_mult, !inject_Z_plus, !inject_Z_mult. field.
  - apply (approx_rnd 5 (-12)); [| lra | | lia].
    + apply approx_scale; [discriminate | exact A3].
    + pose proof (pow2_pos (-12)).
      destruct Z3 as [H0|H12]; [left; rewrite H0; reflexivity | right; lra].
Qed.

(** The glyph index the program computes is the exact one, except that on
    a pixel whose exact scaled luma is an integer it may be the index
    below. *)
Lemma charIndex_exactIndex r g b :
  (0 <= r <= 255)%Z -> (0 <= g <= 255)%Z -> (0 <= b <= 255)%Z ->
  (exactIndex r g b - 1 <= charIndex r g b <= exactIndex r g b)%Z
  /\ ((9 * lumaNumerator r g b) mod 255000 <> 0 ->
      charIndex r g b = exactIndex r g b)%Z.
Proof.
  intros Hr Hg Hb.
  destruct (scaled_brightness_approx r g b) as [Hlo Hhi]; try lia.
  unfold charIndex, Math_floor.
  change (of_Z (Z.of_nat (String.length ASCII_CHARS) - 1)) with (inject_Z 9).
  change (inject_Z 9) with 9.
  set (v := (brightness r g b * 9)%js) in *.
  unfold exactIndex. set (M := (9 * lumaNumerator r g b)%Z) in *.
  assert (HM : (0 <= M <= 9 * 255000)%Z) by (subst M; unfold lumaNumerator; lia).
  pose proof (Z.div_mod M 255000 ltac:(lia)) as Hdm.
  pose proof (Z.mod_pos_bound M 255000 ltac:(lia)) as Hrem.
  set (k := (M / 255000)%Z) in *. set (rho := (M mod 255000)%Z) in *.
  set (E := inject_Z M / 255000) in *.
  assert (HE : E == inject_Z k + inject_Z rho / 255000).
  { subst E. rewrite Hdm, inject_Z_plus, inject_Z_mult. field. }
  assert (HE9 : 0 <= E /\ E <= 9).
  { subst E. split.
    - apply Qle_shift_div_l; [reflexivity|]. rewrite Qmult_0_l.
      change 0 with (inject_Z 0). rewrite <- Zle_Qle. lia.
    - apply Qle_shift_div_r; [reflexivity|].
      change (9 * 255000) with (inject_Z (9 * 255000)). rewrite <- Zle_Qle. lia. }
  set (delta := pow2 (-50)).
  assert (Hd1 : qpow (1 + ulp53) 6 <= 1 + delta) by (vm_compute; discriminate).
  assert (Hd2 : 1 - delta <= qpow (1 - ulp53) 6) by (vm_compute; discriminate).
  assert (Hd3 : 0 < delta /\ 9 * delta < 1 # 255000) by (split; reflexivity).
  assert (Hv : E - 9 * delta <= v /\ v <= E + 9 * delta).
  { destruct HE9 as [HE0' HE9'], Hd3. set (lo := qpow (1 - ulp53) 6) in *.
    set (hi := qpow (1 + ulp53) 6) in *. split; nra. }
  assert (Hrho : 0 <= inject_Z rho / 255000 /\ inject_Z rho / 255000 < 1).
  { split.
    - apply Qle_shift_div_l; [reflexivity|]. rewrite Qmult_0_l.
      change 0 with (inject_Z 0). rewrite <- Zle_Qle. lia.
    - apply Qlt_shift_div_r; [reflexivity|]. rewrite Qmult_1_l.
      change 255000 with (inject_Z 255000). rewrite <- Zlt_Qlt. lia. }
  destruct Hv as [Hv1 Hv2]. destruct Hd3 as [Hd3 Hd4].
  assert (Hfr1 : rho <> 0%Z -> 1 # 255000 <= inject_Z rho / 255000).
  { intros Hne. apply Qle_shift_div_l; [reflexivity|].
    setoid_replace ((1 # 255000) * 255000) with (inject_Z 1) by reflexivity.
    rewrite <- Zle_Qle. lia. }
  assert (Hfr2 : inject_Z rho / 255000 <= 254999 # 255000).
  { apply Qle_shift_div_r; [reflexivity|].
    setoid_replace ((254999 # 255000) * 255000) with (inject_Z 254999)
      by reflexivity.
    rewrite <- Zle_Qle. lia. }
  set (fr := inject_Z rho / 255000) in *.
  destruct Hrho as [Hfr0 Hfr3]. destruct HE9 as [HE0 HE9].
  clearbody fr delta E v.
  split.
  - split.
    + assert (H : inject_Z (k - 1) <= v).
      { assert (E1 : inject_Z (k - 1) == inject_Z k - 1)
          by (unfold Qeq; simpl; lia).
        rewrite E1. lra. }
      apply Qfloor_resp_le in H. rewrite Qfloor_Z in H. exact H.
    + destruct (Z_le_gt_dec (Qfloor v) k) as [Hle|Hgt]; [exact Hle|].
      exfalso. pose proof (Qfloor_le v) as Hf.
      assert (H : inject_Z (k + 1) <= inject_Z (Qfloor v)) by (rewrite <- Zle_Qle; lia).
      rewrite inject_Z_plus in H. change (inject_Z 1) with 1 in H.
      lra.
  - intros Hne. specialize (Hfr1 Hne). apply Qfloor_between.
    + lra.
    + rewrite inject_Z_plus. change (inject_Z 1) with 1. lra.
Qed.

(** The pixel (6,140,9) is such a pixel: exactly, 6*0.299 + 140*0.587 +
    9*0.114 is 85, a third of 255, and the index would be 3; the sum in
    binary64 falls just short of 85, and the program selects index 2. *)
Remark charIndex_binary64_rounding :
  charIndex 6 140 9 = 2%Z /\ exactIndex 6 140 9 = 3%Z
  /\ ((9 * lumaNumerator 6 140 9) mod 255000 = 0)%Z.
Proof. vm_compute. repeat split; reflexivity. Qed.

(** ** C4: glyph selection *)

(** The formula of the specification in integers. *)
Lemma glyphIndex_spec_exactIndex r g b :
  (0 <= r <= 255)%Z -> (0 <= g <= 255)%Z -> (0 <= b <= 255)%Z ->
  glyphIndex_spec r g b = exactIndex r g b
  /\ (0 <= exactIndex r g b <= 9)%Z.
Proof.
  intros Hr Hg Hb. unfold glyphIndex_spec, exactIndex. cbv zeta.
  change (Z.of_nat (String.length ASCII_CHARS) - 1)%Z with 9%Z.
  change (Z.of_nat (String.length ASCII_CHARS)) with 10%Z.
  set (M := (9 * lumaNumerator r g b)%Z).
  assert (HM : (0 <= M <= 9 * 255000)%Z) by (subst M; unfold lumaNumerator; lia).
  assert (E : luma_spec r g b * inject_Z 9 == inject_Z M / 255000).
  { subst M. unfold luma_spec, lumaNumerator.
    rewrite !inject_Z_mult, !inject_Z_plus, !inject_Z_mult.
    change (inject_Z 9) with 9. change (inject_Z 299) with 299.
    change (inject_Z 587) with 587. change (inject_Z 114) with 114. field. }
  pose proof (Z.div_mod M 255000 ltac:(lia)) as Hdm.
  pose proof (Z.mod_pos_bound M 255000 ltac:(lia)) as Hrem.
  assert (Hk : (0 <= M / 255000 <= 9)%Z).
  { split; [apply Z.div_pos; lia|]. apply Z.div_le_upper_bound; lia. }
  assert (Hfl : Qfloor (luma_spec r g b * inject_Z 9) = (M / 255000)%Z).
  { rewrite E. apply Qfloor_between.
    - apply Qle_shift_div_l; [reflexivity|].
      change 255000 with (inject_Z 255000).
      rewrite <- inject_Z_mult, <- Zle_Qle. lia.
    - apply Qlt_shift_div_r; [reflexivity|].
      change 255000 with (inject_Z 255000).
      rewrite <- inject_Z_mult, <- Zlt_Qlt. lia. }
  rewrite Hfl. split; lia.
Qed.

(** C4, as stated, fails: for the pixel (6,140,9) the luma of the
    formula is exactly a third, the index floor (luma * 9) is 3 and the
    glyph of the formula is '-'; the program, computing in binary64,
    selects index 2, the glyph ':'. *)
Lemma glyph_below_formula_on_boundary :
  luma_spec 6 140 9 == 1 # 3
  /\ glyphIndex_spec 6 140 9 = 3%Z
  /\ glyph_spec 6 140 9 = Some "-"%char
  /\ charIndex 6 140 9 = 2%Z
  /\ char 6 140 9 = Some ":"%char
  /\ char 6 140 9 <> glyph_spec 6 140 9.
Proof.
  assert (H : luma_spec 6 140 9 == 1 # 3) by reflexivity.
  assert (Hi : glyphIndex_spec 6 140 9 = 3%Z) by (vm_compute; reflexivity).
  assert (Hg : glyph_spec 6 140 9 = Some "-"%char)
    by (unfold glyph_spec; rewrite Hi; reflexivity).
  assert (Hc : charIndex 6 140 9 = 2%Z) by (vm_compute; reflexivity).
  assert (Hch : char 6 140 9 = Some ":"%char)
    by (unfold char; rewrite Hc; reflexivity).
  repeat split; try assumption.
  rewrite Hg, Hch. discriminate.
Qed.

(** C4, amended: for every pixel with components in 0..255, the glyph is
    the character of the ramp " .:-=+*#%@" at the index the program
    computes in binary64, which always lies in 0..rampLength-1, so that the
    glyph is always a ramp character.  That index is the index of the
    formula, floor (luma * (rampLength - 1)) with
    luma = (0.299 r + 0.587 g + 0.114 b) / 255 in exact arithmetic, or the
    index just below it; it is the index of the formula, and the glyph the
    glyph of the formula, on every pixel for which luma * (rampLength - 1)
    is not an integer, that is, for which 9 * (299 r + 587 g + 114 b) is
    not a multiple of 255000.  Luma 0 gives the space and luma 1 gives
    '@'; black has luma 0 and white has luma 1. *)
Theorem glyph_selection r g b :
  (0 <= r <= 255)%Z -> (0 <= g <= 255)%Z -> (0 <= b <= 255)%Z ->
  (0 <= charIndex r g b <= Z.of_nat (String.length ASCII_CHARS) - 1)%Z
  /\ char r g b = String.get (Z.to_nat (charIndex r g b)) ASCII_CHARS
  /\ (exists c, char r g b = Some c)
  /\ (glyphIndex_spec r g b - 1 <= charIndex r g b <= glyphIndex_spec r g b)%Z
  /\ (((9 * (299 * r + 587 * g + 114 * b)) mod 255000 <> 0)%Z ->
      charIndex r g b = glyphIndex_spec r g b
      /\ char r g b = glyph_spec r g b)
  /\ (luma_spec r g b == 0 -> char r g b = Some " "%char)
  /\ (luma_spec r g b == 1 -> char r g b = Some "@"%char)
  /\ luma_spec 0 0 0 == 0 /\ char 0 0 0 = Some " "%char
  /\ luma_spec 255 255 255 == 1 /\ char 255 255 255 = Some "@"%char.
Proof.
  intros Hr Hg Hb. pose proof (charIndex_range r g b Hr Hg Hb) as Hi.
  pose proof (char_at_charIndex r g b Hr Hg Hb) as Hget.
  destruct (glyphIndex_spec_exactIndex r g b Hr Hg Hb) as [Hspec _].
  destruct (charIndex_exactIndex r g b Hr Hg Hb) as [Hnear Hsame].
  assert (Hluma : luma_spec r g b
                  == inject_Z (299 * r + 587 * g + 114 * b) / 255000).
  { unfold luma_spec. rewrite !inject_Z_plus, !inject_Z_mult.
    change (inject_Z 299) with 299. change (inject_Z 587) with 587.
    change (inject_Z 114) with 114. field. }
  split; [exact Hi|]. split; [exact Hget|].
  split; [apply char_defined; assumption|].
  split; [rewrite Hspec; exact Hnear|].
  split.
  { intros Hne. specialize (Hsame Hne).
    split; [rewrite Hspec; exact Hsame|].
    rewrite Hget. unfold glyph_spec. rewrite Hspec, Hsame. reflexivity. }
  split.
  { intros H0. rewrite Hluma in H0.
    assert (E : (299 * r + 587 * g + 114 * b = 0)%Z).
    { remember (299 * r + 587 * g + 114 * b)%Z as N.
      unfold Qeq in H0. cbn in H0. lia. }
    assert (r = 0 /\ g = 0 /\ b = 0)%Z as (-> & -> & ->) by lia.
    vm_compute. reflexivity. }
  split.
  { intros H1. rewrite Hluma in H1.
    assert (E : (299 * r + 587 * g + 114 * b = 255000)%Z).
    { remember (299 * r + 587 * g + 114 * b)%Z as N.
      unfold Qeq in H1. cbn in H1. lia. }
    assert (r = 255 /\ g = 255 /\ b = 255)%Z as (-> & -> & ->) by lia.
    vm_compute. reflexivity. }
  vm_compute. repeat split; reflexivity.
Qed.

Lemma glyph_selection_witness :
  (0 <= charIndex 10 200 30 <= Z.of_nat (String.length ASCII_CHARS) - 1)%Z
  /\ char 10 200 30
     = String.get (Z.to_nat (charIndex 10 200 30)) ASCII_CHARS
  /\ (exists c, char 10 200 30 = Some c)
  /\ (glyphIndex_spec 10 200 30 - 1 <= charIndex 10 200 30
      <= glyphIndex_spec 10 200 30)%Z
  /\ (((9 * (299 * 10 + 587 * 200 + 114 * 30)) mod 255000 <> 0)%Z ->
      charIndex 10 200 30 = glyphIndex_spec 10 200 30
      /\ char 10 200 30 = glyph_spec 10 200 30)
  /\ (luma_spec 10 200 30 == 0 -> char 10 200 30 = Some " "%char)
  /\ (luma_spec 10 200 30 == 1 -> char 10 200 30 = Some "@"%char)
  /\ luma_spec 0 0 0 == 0 /\ char 0 0 0 = Some " "%char
  /\ luma_spec 255 255 255 == 1 /\ char 255 255 255 = Some "@"%char.
Proof. apply (glyph_selection 10 200 30); lia. Defined.

(** ** Frame Ingestor: C6, C10 *)

Lemma slice_frame {A : Type} (buf : list A) (n : Z) :
  (0 < n <= Z.of_nat (List.length buf))%Z ->
  slice buf 0 n = firstn (Z.to_nat n) buf.
Proof.
  intros Hn. unfold slice, clampIndex.
  replace (0 <? 0)%Z with false by reflexivity.
  replace (n <? 0)%Z with false by (symmetry; apply Z.ltb_ge; lia).
  rewrite Z.min_l by lia. rewrite Z.min_l by lia.
  cbn [Z.to_nat skipn]. rewrite Z.sub_0_r. reflexivity.
Qed.

Lemma slice_from_frame {A : Type} (buf : list A) (n : Z) :
  (0 < n <= Z.of_nat (List.length buf))%Z ->
  slice_from buf n = skipn (Z.to_nat n) buf.
Proof.
  intros Hn. unfold slice_from, slice, clampIndex.
  replace (n <? 0)%Z with false by (symmetry; apply Z.ltb_ge; lia).
  replace (Z.of_nat (List.length buf) <? 0)%Z with false
    by (symmetry; apply Z.ltb_ge; lia).
  rewrite !Z.min_l by lia.
  apply firstn_all2. rewrite length_skipn. lia.
Qed.

Section IngestorFacts.

Variables (width height : Z) (frameInterval : Q).

Local Abbreviation frameSize := (frameSize width height).
Local Abbreviation playNextFrame := (playNextFrame width height frameInterval).
Local Abbreviation takeFrame := (takeFrame width height frameInterval).
Local Abbreviation drain := (drain width height frameInterval).
Local Abbreviation onData := (onData width height frameInterval).
Local Abbreviation onTimeout := (onTimeout width height frameInterval).
Local Abbreviation step := (step width height frameInterval).
Local Abbreviation run := (run width height frameInterval).

(** The scheduler touches neither the accumulation buffer nor the
    history of enqueued frames. *)
Lemma playNextFrame_buffer p : buffer (playNextFrame p) = buffer p.
Proof. unfold playNextFrame. destruct (frameQueue p); reflexivity. Qed.

Lemma playNextFrame_enqueued p : enqueued (playNextFrame p) = enqueued p.
Proof. unfold playNextFrame. destruct (frameQueue p); reflexivity. Qed.

Lemma onTimeout_buffer p : buffer (onTimeout p) = buffer p.
Proof.
  unfold onTimeout. destruct (timers p); [reflexivity|].
  rewrite playNextFrame_buffer. reflexivity.
Qed.

Lemma onTimeout_enqueued p : enqueued (onTimeout p) = enqueued p.
Proof.
  unfold onTimeout. destruct (timers p); [reflexivity|].
  rewrite playNextFrame_enqueued. reflexivity.
Qed.

Local Abbreviation framed := (framed width height).

Lemma drain_spec fuel : forall p,
  (0 < frameSize)%Z ->
  (List.length (buffer p) < fuel)%nat ->
  exists p' frames,
    drain fuel p = Some p'
    /\ enqueued p' = enqueued p ++ frames
    /\ framed frames
    /\ List.concat frames ++ buffer p' = buffer p
    /\ (Z.of_nat (List.length (buffer p')) < frameSize)%Z.
Proof.
  induction fuel as [|fuel IH]; intros p Hfs Hfuel; [lia|].
  cbn [drain].
  destruct (Z.geb_spec (Z.of_nat (List.length (buffer p))) frameSize) as [Hge|Hlt].
  - set (p2 := takeFrame p).
    assert (Hb2 : buffer p2 = skipn (Z.to_nat frameSize) (buffer p)).
    { subst p2. unfold takeFrame. cbv zeta. destruct (negb _ && _);
        [rewrite playNextFrame_buffer|]; cbn;
        apply slice_from_frame; lia. }
    assert (He2 : enqueued p2 = enqueued p ++ [firstn (Z.to_nat frameSize) (buffer p)]).
    { subst p2. unfold takeFrame. cbv zeta. destruct (negb _ && _);
        [rewrite playNextFrame_enqueued|]; cbn;
        rewrite slice_frame by lia; reflexivity. }
    destruct (IH p2 Hfs) as (p' & frames & Hd & He & Hf & Hc & Hr).
    { rewrite Hb2, length_skipn. lia. }
    exists p', (firstn (Z.to_nat frameSize) (buffer p) :: frames).
    split; [exact Hd|]. split.
    { rewrite He, He2, <- app_assoc. reflexivity. }
    split.
    { constructor; [|exact Hf]. rewrite length_firstn. lia. }
    split; [|exact Hr].
    simpl List.concat. rewrite <- app_assoc, Hc, Hb2. apply firstn_skipn.
  - exists p, []. repeat split; try (rewrite ?app_nil_r; reflexivity);
      [constructor | lia].
Qed.

Lemma onData_spec data p :
  (0 < frameSize)%Z ->
  exists p' frames,
    onData data p = Some p'
    /\ enqueued p' = enqueued p ++ frames
    /\ framed frames
    /\ List.concat frames ++ buffer p' = buffer p ++ data
    /\ (Z.of_nat (List.length (buffer p')) < frameSize)%Z.
Proof.
  intros Hfs. unfold onData.
  destruct (drain_spec (S (List.length (buffer (set_buffer (buffer p ++ data) p))))
              (set_buffer (buffer p ++ data) p) Hfs ltac:(lia))
    as (p' & frames & H).
  exists p', frames. exact H.
Qed.

(** When [frameSize] is not positive the loop never ends. *)
Lemma drain_diverges fuel : forall p,
  (frameSize <= 0)%Z -> drain fuel p = None.
Proof.
  induction fuel as [|fuel IH]; intros p Hfs; cbn [drain];
    (destruct (Z.geb_spec (Z.of_nat (List.length (buffer p))) frameSize);
     [|lia]); [reflexivity | apply IH, Hfs].
Qed.

(** What a run of events does to the ingestor: every byte received ends
    up, in order, in a frame of exactly [frameSize] bytes or in the
    residue, and the residue is shorter than a frame. *)
Lemma run_spec es : forall p,
  (0 < frameSize)%Z ->
  (Z.of_nat (List.length (buffer p)) < frameSize)%Z ->
  exists p' frames,
    run es p = Some p'
    /\ enqueued p' = enqueued p ++ frames
    /\ framed frames
    /\ List.concat frames ++ buffer p' = buffer p ++ received es
    /\ (Z.of_nat (List.length (buffer p')) < frameSize)%Z.
Proof.
  induction es as [|e es IH]; intros p Hfs Hb.
  - exists p, []. cbn. rewrite !app_nil_r. repeat split; [constructor | exact Hb].
  - destruct e as [data|]; cbn [run step received].
    + destruct (onData_spec data p Hfs) as (p1 & fr1 & Hd & He & Hf & Hc & Hr).
      rewrite Hd.
      destruct (IH p1 Hfs Hr) as (p' & fr2 & Hd' & He' & Hf' & Hc' & Hr').
      exists p', (fr1 ++ fr2). split; [exact Hd'|]. split.
      { rewrite He', He, <- app_assoc. reflexivity. }
      split; [apply Forall_app; split; assumption|].
      split; [|exact Hr'].
      rewrite concat_app, <- app_assoc, Hc', app_assoc, Hc, <- app_assoc.
      reflexivity.
    + destruct (IH (onTimeout p) Hfs) as (p' & fr & Hd & He & Hf & Hc & Hr).
      { rewrite onTimeout_buffer. exact Hb. }
      exists p', fr. rewrite onTimeout_enqueued, onTimeout_buffer in *.
      repeat split; assumption.
Qed.

(** Frames of one size are determined by their concatenation. *)
Lemma framed_unique (n : Z) : forall (A B : list (list byte)) (r r' : list byte),
  (0 < n)%Z ->
  Forall (fun f => Z.of_nat (List.length f) = n) A ->
  Forall (fun f => Z.of_nat (List.length f) = n) B ->
  (Z.of_nat (List.length r) < n)%Z -> (Z.of_nat (List.length r') < n)%Z ->
  List.concat A ++ r = List.concat B ++ r' -> A = B /\ r = r'.
Proof.
  induction A as [|a A IH]; intros B r r' Hn HA HB Hr Hr' E.
  - destruct B as [|b B]; [split; [reflexivity | exact E]|].
    exfalso. inversion HB; subst. cbn in E.
    apply (f_equal (@List.length byte)) in E. rewrite !length_app in E. lia.
  - destruct B as [|b B].
    + exfalso. inversion HA; subst. cbn in E.
      apply (f_equal (@List.length byte)) in E. rewrite !length_app in E. lia.
    + inversion HA as [|? ? Ha HA']; inversion HB as [|? ? Hb HB']; subst.
      simpl List.concat in E. rewrite <- !app_assoc in E.
      assert (Hab : a = b /\ List.concat A ++ r = List.concat B ++ r').
      { assert (Hl : List.length a = List.length b) by lia.
        clear - E Hl. revert b Hl E.
        induction a as [|x a IHa]; intros [|y b] Hl E; try discriminate.
        - split; [reflexivity | exact E].
        - cbn in E. injection E as -> E. cbn in Hl.
          destruct (IHa b ltac:(lia) E) as [-> E']. split; [reflexivity | exact E']. }
      destruct Hab as [-> E'].
      destruct (IH B r r' Hn HA' HB' Hr Hr' E') as [-> ->]. split; reflexivity.
Qed.


(** C6: after the ['data'] handler has processed a chunk, from any state,
    the accumulation buffer holds fewer than [frameSize] bytes; so it does
    after every chunk of every sequence of chunks. *)
Theorem residual_shorter_than_frame :
  (0 < frameSize)%Z ->
  (forall p data, exists p',
      onData data p = Some p'
      /\ (Z.of_nat (List.length (buffer p')) < frameSize)%Z)
  /\ (forall es out, exists p',
      run es (initialPlayer out) = Some p'
      /\ (Z.of_nat (List.length (buffer p')) < frameSize)%Z).
Proof.
  intros Hfs. split.
  - intros p data.
    destruct (onData_spec data p Hfs) as (p' & frames & Hd & _ & _ & _ & Hr).
    exists p'. split; assumption.
  - intros es out.
    destruct (run_spec es (initialPlayer out) Hfs) as (p & frames & Hr & _ & _ & _ & Hb).
    { cbn. exact Hfs. }
    exists p. split; assumption.
Qed.

End IngestorFacts.

Lemma residual_shorter_than_frame_witness :
  (forall p data, exists p',
      onData 1 1 40 data p = Some p'
      /\ (Z.of_nat (List.length (buffer p')) < frameSize 1 1)%Z)
  /\ (forall es out, exists p',
      run 1 1 40 es (initialPlayer out) = Some p'
      /\ (Z.of_nat (List.length (buffer p')) < frameSize 1 1)%Z).
Proof. apply (residual_shorter_than_frame 1 1 40). reflexivity. Defined.


(** ** Frames are rendered in the order of their arrival *)

Section FifoFacts.

Variables (width height : Z) (frameInterval : Q).

Local Abbreviation playNextFrame := (playNextFrame width height frameInterval).
Local Abbreviation takeFrame := (takeFrame width height frameInterval).
Local Abbreviation drain := (drain width height frameInterval).
Local Abbreviation onData := (onData width height frameInterval).
Local Abbreviation onTimeout := (onTimeout width height frameInterval).
Local Abbreviation fifo_inv := (fifo_inv width height).
Local Abbreviation renderWrites := (renderWrites width height).

Lemma playNextFrame_fifo out p : fifo_inv out p -> fifo_inv out (playNextFrame p).
Proof.
  intros (played & He & Hs). unfold playNextFrame.
  destruct (frameQueue p) as [|f rest] eqn:Hq.
  - exists played. cbn. rewrite Hq. split; assumption.
  - exists (played ++ [f]). cbn. split.
    + rewrite He, <- app_assoc. reflexivity.
    + rewrite Hs, flat_map_app, <- !app_assoc. reflexivity.
Qed.

Lemma takeFrame_fifo out p : fifo_inv out p -> fifo_inv out (takeFrame p).
Proof.
  intros (played & He & Hs). unfold takeFrame. cbv zeta.
  set (p1 := push _ _).
  assert (H1 : fifo_inv out p1).
  { exists played. subst p1. cbn. rewrite He, <- app_assoc. split; [reflexivity|exact Hs]. }
  destruct (negb _ && _); [|exact H1].
  apply playNextFrame_fifo. exact H1.
Qed.

Lemma drain_fifo out fuel : forall p p',
  fifo_inv out p -> drain fuel p = Some p' -> fifo_inv out p'.
Proof.
  induction fuel as [|fuel IH]; intros p p' Hinv Hd; cbn [drain] in Hd;
    destruct (Z.of_nat (List.length (buffer p)) >=? frameSize width height)%Z;
    try discriminate; try (injection Hd as <-; exact Hinv).
  revert Hd. apply IH, takeFrame_fifo, Hinv.
Qed.

Lemma run_fifo out es : forall p p',
  fifo_inv out p -> run width height frameInterval es p = Some p' ->
  fifo_inv out p'.
Proof.
  induction es as [|e es IH]; intros p p' Hinv Hr; cbn [run] in Hr.
  - injection Hr as <-. exact Hinv.
  - destruct e as [data|]; cbn [step] in Hr.
    + destruct (onData data p) as [p1|] eqn:Hd; [|discriminate].
      apply (IH p1 p'); [|exact Hr].
      unfold onData in Hd. cbv zeta in Hd. revert Hd. apply drain_fifo.
      destruct Hinv as (played & He & Hs). exists played. split; assumption.
    + apply (IH (onTimeout p) p'); [|exact Hr].
      unfold onTimeout. destruct (timers p); [exact Hinv|].
      apply playNextFrame_fifo.
      destruct Hinv as (played & He & Hs). exists played. split; assumption.
Qed.

(** After any run of events the terminal shows, after what was there
    before, the frames rendered so far, each by a cursor-home and one block;
    they are the first of the frames enqueued, in their order, and the rest
    are the frames waiting in the queue. *)
Lemma frames_rendered_in_order es out p :
  run width height frameInterval es (initialPlayer out) = Some p ->
  exists played,
    enqueued p = played ++ frameQueue p
    /\ stdout p = out ++ flat_map renderWrites played.
Proof.
  apply run_fifo. exists []. cbn. rewrite app_nil_r. split; reflexivity.
Qed.

End FifoFacts.

(** ** Frame Ingestor: C2 *)

(** C2: when the bytes received are those of N complete frames, however
    they were cut into chunks (and whatever timers fired in between), the
    ingestor has pushed exactly those N frames, each of [frameSize] bytes,
    in their order, onto the queue: the frames that the scheduler has
    taken from the head of the queue since and rendered, in their order,
    followed by the frames that are in [frameQueue], are the N frames; and
    nothing is left in the buffer.  The frames depend on the bytes only,
    not on the chunks. *)
Theorem ingest_reassembles width height frameInterval frames es out :
  (0 < frameSize width height)%Z ->
  framed width height frames ->
  received es = List.concat frames ->
  exists p played,
    run width height frameInterval es (initialPlayer out) = Some p
    /\ frames = played ++ frameQueue p
    /\ stdout p = out ++ flat_map (renderWrites width height) played
    /\ enqueued p = frames
    /\ List.length (played ++ frameQueue p) = List.length frames
    /\ framed width height (played ++ frameQueue p)
    /\ buffer p = [].
Proof.
  intros Hfs Hframes Hbytes.
  destruct (run_spec width height frameInterval es (initialPlayer out) Hfs)
    as (p & fr & Hr & He & Hf & Hc & Hb).
  { cbn. exact Hfs. }
  cbn in He, Hc. rewrite Hbytes in Hc.
  destruct (framed_unique (frameSize width height) fr frames (buffer p) []
              Hfs Hf Hframes Hb) as [-> Hnil].
  { cbn. exact Hfs. }
  { rewrite app_nil_r. exact Hc. }
  destruct (frames_rendered_in_order width height frameInterval es out p Hr)
    as (played & Hq & Hs).
  rewrite He in Hq.
  exists p, played. rewrite <- Hq.
  repeat split; try assumption.
Qed.

(** Two frames of three bytes, delivered one byte at a time. *)
Lemma ingest_reassembles_witness :
  exists p played,
    run 1 1 40
      (map (fun b => OnData [b]) [x01; x02; x03; x04; x05; x06]%byte)
      (initialPlayer []) = Some p
    /\ [[x01; x02; x03]; [x04; x05; x06]]%byte = played ++ frameQueue p
    /\ stdout p = [] ++ flat_map (renderWrites 1 1) played
    /\ enqueued p = [[x01; x02; x03]; [x04; x05; x06]]%byte
    /\ List.length (played ++ frameQueue p) = 2%nat
    /\ framed 1 1 (played ++ frameQueue p)
    /\ buffer p = [].
Proof.
  apply (ingest_reassembles 1 1 40
           [[x01; x02; x03]; [x04; x05; x06]]%byte
           (map (fun b => OnData [b]) [x01; x02; x03; x04; x05; x06]%byte) []).
  - reflexivity.
  - repeat constructor.
  - reflexivity.
Defined.

(** ** Playback Scheduler: C5 *)

Section SchedulerFacts.

Variables (width height : Z) (frameInterval : Q).

Local Abbreviation playNextFrame := (playNextFrame width height frameInterval).
Local Abbreviation takeFrame := (takeFrame width height frameInterval).
Local Abbreviation drain := (drain width height frameInterval).
Local Abbreviation onData := (onData width height frameInterval).
Local Abbreviation onTimeout := (onTimeout width height frameInterval).
Local Abbreviation step := (step width height frameInterval).
Local Abbreviation reachable := (reachable width height frameInterval).
Local Abbreviation Playing := (Playing frameInterval).

(** What [playNextFrame] does when a frame is waiting, and when none is. *)
Lemma playNextFrame_render p f rest :
  frameQueue p = f :: rest ->
  let p' := playNextFrame p in
  stdout p' = stdout p ++ [Write CURSOR_HOME; Write (renderOutput f width height)]
  /\ frameQueue p' = rest
  /\ timers p' = timers p ++ [frameInterval]
  /\ isPlaying p' = isPlaying p.
Proof.
  intros Hq. unfold playNextFrame. rewrite Hq. cbn.
  rewrite <- app_assoc. repeat split; reflexivity.
Qed.

Lemma playNextFrame_idle p :
  frameQueue p = [] ->
  let p' := playNextFrame p in
  stdout p' = stdout p /\ frameQueue p' = [] /\ timers p' = timers p
  /\ isPlaying p' = false.
Proof.
  intros Hq. unfold playNextFrame. rewrite Hq. cbn. repeat split; assumption.
Qed.

Local Abbreviation scheduler_inv := (scheduler_inv frameInterval).

Lemma takeFrame_playing p : scheduler_inv p -> Playing (takeFrame p).
Proof.
  intros Hinv. unfold takeFrame. cbv zeta.
  set (f := slice (buffer p) 0 (frameSize width height)).
  set (p1 := push f (set_buffer (slice_from (buffer p) (frameSize width height)) p)).
  destruct Hinv as [[[Hi Ht] Hq]|[Hi Ht]].
  - (* Idle: the frame just pushed is rendered at once, a timer is set *)
    assert (Hq1 : frameQueue (set_isPlaying true p1) = [f])
      by (subst p1; cbn; rewrite Hq; reflexivity).
    assert (Hc : negb (isPlaying p1) && (0 <? List.length (frameQueue p1))%nat = true)
      by (subst p1; cbn; rewrite Hi, Hq; reflexivity).
    rewrite Hc.
    destruct (playNextFrame_render _ _ _ Hq1) as (_ & _ & Ht' & Hi').
    split; [rewrite Hi'; reflexivity|].
    rewrite Ht'. subst p1; cbn. rewrite Ht. reflexivity.
  - (* Playing: the frame only joins the queue *)
    assert (Hc : negb (isPlaying p1) && (0 <? List.length (frameQueue p1))%nat = false)
      by (subst p1; cbn; rewrite Hi; reflexivity).
    rewrite Hc. subst p1; split; cbn; assumption.
Qed.

Lemma drain_playing fuel : forall p p',
  Playing p -> drain fuel p = Some p' -> Playing p'.
Proof.
  induction fuel as [|fuel IH]; intros p p' HP Hd; cbn [drain] in Hd;
    destruct (Z.of_nat (List.length (buffer p)) >=? frameSize width height)%Z;
    try discriminate; try (injection Hd as <-; exact HP).
  revert Hd. apply IH. apply takeFrame_playing. right. exact HP.
Qed.

(** While the scheduler is Playing, frames that arrive are only queued:
    nothing is written to the terminal. *)
Lemma takeFrame_playing_silent p :
  Playing p -> stdout (takeFrame p) = stdout p.
Proof.
  intros [Hi Ht]. unfold takeFrame. cbv zeta.
  set (p1 := push _ _).
  assert (Hc : negb (isPlaying p1) && (0 <? List.length (frameQueue p1))%nat = false)
    by (subst p1; cbn; rewrite Hi; reflexivity).
  rewrite Hc. reflexivity.
Qed.

Lemma drain_playing_silent fuel : forall p p',
  Playing p -> drain fuel p = Some p' -> stdout p' = stdout p.
Proof.
  induction fuel as [|fuel IH]; intros p p' HP Hd; cbn [drain] in Hd;
    destruct (Z.of_nat (List.length (buffer p)) >=? frameSize width height)%Z;
    try discriminate; try (injection Hd as <-; reflexivity).
  rewrite (IH _ _ (takeFrame_playing p (or_intror HP)) Hd).
  apply takeFrame_playing_silent, HP.
Qed.

(** A run of the loop leaves the state as it was (no frame was complete)
    or leaves the scheduler Playing. *)
Lemma drain_cases fuel p p' :
  scheduler_inv p -> drain fuel p = Some p' -> p' = p \/ Playing p'.
Proof.
  intros Hinv Hd. destruct fuel as [|fuel]; cbn [drain] in Hd;
    destruct (Z.of_nat (List.length (buffer p)) >=? frameSize width height)%Z;
    try discriminate; try (injection Hd as <-; left; reflexivity).
  right. revert Hd. apply drain_playing, takeFrame_playing, Hinv.
Qed.

Lemma onData_cases data p p' :
  scheduler_inv p -> onData data p = Some p' ->
  p' = set_buffer (buffer p ++ data) p \/ Playing p'.
Proof.
  intros Hinv Hd. unfold onData in Hd. cbv zeta in Hd.
  apply drain_cases in Hd; [exact Hd|].
  destruct Hinv as [[[Hi Ht] Hq]|[Hi Ht]]; [left|right]; repeat split; assumption.
Qed.

Lemma onData_scheduler_inv data p p' :
  scheduler_inv p -> onData data p = Some p' -> scheduler_inv p'.
Proof.
  intros Hinv Hd.
  destruct (onData_cases data p p' Hinv Hd) as [->|HP]; [|right; exact HP].
  destruct Hinv as [[[Hi Ht] Hq]|[Hi Ht]]; [left|right]; repeat split; assumption.
Qed.

Lemma onTimeout_scheduler_inv p : scheduler_inv p -> scheduler_inv (onTimeout p).
Proof.
  intros [[[Hi Ht] Hq]|[Hi Ht]]; unfold onTimeout; rewrite Ht.
  - left. repeat split; assumption.
  - destruct (frameQueue p) as [|f rest] eqn:Hq.
    + left.
      destruct (playNextFrame_idle (set_timers [] p) Hq) as (_ & Hq' & Ht' & Hi').
      repeat split; assumption.
    + right.
      destruct (playNextFrame_render (set_timers [] p) f rest Hq) as (_ & _ & Ht' & Hi').
      split; [rewrite Hi'; exact Hi | rewrite Ht'; reflexivity].
Qed.

Lemma reachable_scheduler_inv p : reachable p -> scheduler_inv p.
Proof.
  induction 1 as [out|e p p' _ IH Hs].
  - left. repeat split.
  - destruct e as [data|].
    + change (onData data p = Some p') in Hs.
      destruct (onData_cases data p p' IH Hs) as [->|HP]; [|right; exact HP].
      destruct IH as [[[Hi Ht] Hq]|[Hi Ht]]; [left|right]; repeat split; assumption.
    + change (Some (onTimeout p) = Some p') in Hs.
      injection Hs as <-. apply onTimeout_scheduler_inv, IH.
Qed.

(** The states and the transitions of the scheduler, for any raster and
    any delay of the timers. *)
Lemma scheduler_steps p :
  reachable p ->
  ((Idle p /\ frameQueue p = []) \/ Playing p)
  /\ (forall f rest, Playing p -> frameQueue p = f :: rest ->
        let p' := onTimeout p in
        stdout p' = stdout p
                    ++ [Write CURSOR_HOME; Write (renderOutput f width height)]
        /\ frameQueue p' = rest /\ Playing p')
  /\ (Playing p -> frameQueue p = [] ->
        let p' := onTimeout p in
        stdout p' = stdout p /\ frameQueue p' = [] /\ Idle p')
  /\ (Idle p -> onTimeout p = p)
  /\ (forall data p', Idle p -> frameQueue p = [] ->
        onData data p = Some p' -> enqueued p' <> enqueued p -> Playing p')
  /\ (forall data p', Playing p ->
        onData data p = Some p' -> stdout p' = stdout p /\ Playing p').
Proof.
  intros Hreach. pose proof (reachable_scheduler_inv p Hreach) as Hinv.
  split; [exact Hinv|]. split; [|split; [|split; [|split]]].
  - intros f rest [Hi Ht] Hq. unfold onTimeout. rewrite Ht.
    destruct (playNextFrame_render (set_timers [] p) f rest Hq) as (Hs & Hq' & Ht' & Hi').
    cbv zeta. repeat split;
      [exact Hs | exact Hq' | rewrite Hi'; exact Hi | rewrite Ht'; reflexivity].
  - intros [Hi Ht] Hq. unfold onTimeout. rewrite Ht.
    destruct (playNextFrame_idle (set_timers [] p) Hq) as (Hs & Hq' & Ht' & Hi').
    cbv zeta. repeat split; [exact Hs | exact Hq' | exact Hi' | exact Ht'].
  - intros [Hi Ht]. unfold onTimeout. rewrite Ht. reflexivity.
  - intros data p' Hidle Hq Hd Hne.
    destruct (onData_cases data p p' Hinv Hd) as [->|HP]; [|exact HP].
    exfalso. apply Hne. reflexivity.
  - intros data p' HP Hd. unfold onData in Hd. cbv zeta in Hd.
    assert (HP0 : Playing (set_buffer (buffer p ++ data) p))
      by (destruct HP as [Hi Ht]; split; assumption).
    split.
    + apply (drain_playing_silent _ _ _ HP0 Hd).
    + apply (drain_playing _ _ _ HP0 Hd).
Qed.

End SchedulerFacts.

(** The scheduler of the program: whatever happens in a session, the
    invariant of the scheduler holds of the state of the player. *)
Lemma session_scheduler_inv width height frameInterval es :
  forall settled p p' c,
  session width height frameInterval es settled p = (p', c) ->
  scheduler_inv frameInterval p -> scheduler_inv frameInterval p'.
Proof.
  induction es as [|e es IH]; intros settled p p' c Hs Hinv.
  - cbn in Hs. injection Hs as <- <-. exact Hinv.
  - destruct e as [[data|]| |message|]; cbn [session] in Hs.
    + destruct settled; [apply (IH _ _ _ _ Hs Hinv)|].
      destruct (onData width height frameInterval data p) as [p1|] eqn:Hd.
      * apply (IH _ _ _ _ Hs).
        apply (onData_scheduler_inv width height frameInterval data p p1 Hinv Hd).
      * injection Hs as <- <-. right.
        apply takeFrame_playing.
        destruct Hinv as [[[Hi Ht] Hq]|[Hi Ht]]; [left|right];
          repeat split; assumption.
    + pose proof (onTimeout_scheduler_inv width height frameInterval p Hinv)
        as Hinv'.
      destruct settled; [|apply (IH _ _ _ _ Hs Hinv')].
      destruct (timers (onTimeout width height frameInterval p));
        [|apply (IH _ _ _ _ Hs Hinv')].
      injection Hs as <- <-. exact Hinv'.
    + destruct settled; [apply (IH _ _ _ _ Hs Hinv)|].
      cbv zeta in Hs.
      set (p1 := console_log _ (stdout_write CURSOR_SHOW p)) in *.
      assert (Hinv1 : scheduler_inv frameInterval p1) by exact Hinv.
      destruct (timers p1); [|apply (IH _ _ _ _ Hs Hinv1)].
      injection Hs as <- <-. exact Hinv1.
    + cbv zeta in Hs. destruct settled.
      * apply (IH _ _ _ _ Hs). exact Hinv.
      * injection Hs as <- <-. exact Hinv.
    + cbv zeta in Hs. injection Hs as <- <-. exact Hinv.
Qed.

(** C5, amended: the scheduler of the program, which [playVideo] runs
    with the delay [frameInterval = 1000 / fps], is at every moment Idle
    (with an empty queue) or Playing with exactly one timer pending, of
    delay [1000 / fps]: every delay the program asks for is [1000 / fps].
    Rendering a frame always schedules the next tick [frameInterval] later,
    whether or not the queue is then empty; at a tick the scheduler renders
    the next frame if the queue is non-empty and stays Playing, and becomes
    Idle, writing nothing and scheduling nothing, if the queue is empty.  A
    frame enqueued while Idle starts playback; frames enqueued while
    Playing are only queued. *)
Theorem scheduler_transitions (w : World) inputFile videoInfo :
  getVideoInfo w inputFile = inl videoInfo ->
  let dimensions :=
    calculateAspectRatioDimensions (columns w) (rows w)
      (info_width videoInfo) (info_height videoInfo) in
  let width := width dimensions in
  let height := height dimensions in
  let frameInterval := (1000 / fps videoInfo)%js in
  (let p := fst (playVideo w inputFile) in
   ((Idle p /\ frameQueue p = []) \/ Playing frameInterval p)
   /\ Forall (fun delay => delay = frameInterval) (timers p))
  /\ forall p, reachable width height frameInterval p ->
       ((Idle p /\ frameQueue p = []) \/ Playing frameInterval p)
       /\ (forall f rest, Playing frameInterval p -> frameQueue p = f :: rest ->
             let p' := onTimeout width height frameInterval p in
             stdout p' = stdout p
                         ++ [Write CURSOR_HOME;
                             Write (renderOutput f width height)]
             /\ frameQueue p' = rest /\ Playing frameInterval p')
       /\ (Playing frameInterval p -> frameQueue p = [] ->
             let p' := onTimeout width height frameInterval p in
             stdout p' = stdout p /\ frameQueue p' = [] /\ Idle p')
       /\ (Idle p -> onTimeout width height frameInterval p = p)
       /\ (forall data p', Idle p -> frameQueue p = [] ->
             onData width height frameInterval data p = Some p' ->
             enqueued p' <> enqueued p -> Playing frameInterval p')
       /\ (forall data p', Playing frameInterval p ->
             onData width height frameInterval data p = Some p' ->
             stdout p' = stdout p /\ Playing frameInterval p').
Proof.
  intros Hinfo. cbv zeta. split.
  - assert (Hinv : scheduler_inv (1000 / fps videoInfo)%js
                     (fst (playVideo w inputFile))).
    { unfold playVideo. destruct (ffprobe w inputFile);
        try solve [left; repeat split].
      rewrite Hinfo. cbv zeta.
      destruct (startupInterrupt w); [left; repeat split|].
      match goal with
      | |- context [session ?wd ?ht ?fi ?es false ?p0] =>
          pose proof (session_scheduler_inv wd ht fi es false p0) as Hs;
          destruct (session wd ht fi es false p0) as [p' c]
      end.
      apply (Hs p' c eq_refl). left. repeat split. }
    split; [exact Hinv|].
    destruct Hinv as [[[_ Ht] _]|[_ Ht]]; rewrite Ht; repeat constructor.
  - intros p Hp. apply scheduler_steps, Hp.
Qed.

(** C5, as stated, fails: two frames arrive in one chunk, the first is
    rendered at once and the second at the next tick; after that render
    the queue is empty, yet the scheduler is not Idle: [isPlaying] is still
    true and a timer is pending. *)
Lemma scheduler_not_idle_after_last_frame :
  exists p,
    run 1 1 (1000 / 25)%js
      [OnData [x00; x00; x00; xff; xff; xff]%byte; OnTimeout]
      (initialPlayer []) = Some p
    /\ stdout p = [Write CURSOR_HOME; Write (renderOutput [x00; x00; x00]%byte 1 1);
                   Write CURSOR_HOME; Write (renderOutput [xff; xff; xff]%byte 1 1)]
    /\ frameQueue p = []
    /\ isPlaying p = true
    /\ timers p = [(1000 / 25)%js]
    /\ ~ Idle p.
Proof.
  eexists. split; [vm_compute; reflexivity|].
  repeat split; try (vm_compute; reflexivity).
  intros [H _]. discriminate H.
Qed.

(** A run of the program on a raster of two columns and one row, at 25
    frames per second: one chunk of one frame has arrived. *)
Lemma scheduler_transitions_witness :
  let w := {| argv := ["clip.mp4"%string]; existsSync := fun _ => true;
              ffprobe := fun _ => ProbeClosed;
              getVideoInfo := fun _ =>
                inl {| info_width := 1; info_height := 1; fps := 25 |};
              columns := Some 2%Z; rows := Some 3%Z;
              startupInterrupt := None;
              events := [Playback (OnData (List.repeat x80 6))] |} in
  (let p := fst (playVideo w "clip.mp4") in
   ((Idle p /\ frameQueue p = []) \/ Playing (1000 / 25)%js p)
   /\ Forall (fun delay => delay = (1000 / 25)%js) (timers p))
  /\ forall p, reachable 2 1 (1000 / 25)%js p ->
       ((Idle p /\ frameQueue p = []) \/ Playing (1000 / 25)%js p)
       /\ (forall f rest, Playing (1000 / 25)%js p -> frameQueue p = f :: rest ->
             let p' := onTimeout 2 1 (1000 / 25)%js p in
             stdout p' = stdout p
                         ++ [Write CURSOR_HOME; Write (renderOutput f 2 1)]
             /\ frameQueue p' = rest /\ Playing (1000 / 25)%js p')
       /\ (Playing (1000 / 25)%js p -> frameQueue p = [] ->
             let p' := onTimeout 2 1 (1000 / 25)%js p in
             stdout p' = stdout p /\ frameQueue p' = [] /\ Idle p')
       /\ (Idle p -> onTimeout 2 1 (1000 / 25)%js p = p)
       /\ (forall data p', Idle p -> frameQueue p = [] ->
             onData 2 1 (1000 / 25)%js data p = Some p' ->
             enqueued p' <> enqueued p -> Playing (1000 / 25)%js p')
       /\ (forall data p', Playing (1000 / 25)%js p ->
             onData 2 1 (1000 / 25)%js data p = Some p' ->
             stdout p' = stdout p /\ Playing (1000 / 25)%js p').
Proof.
  intros w.
  exact (scheduler_transitions w "clip.mp4"
           {| info_width := 1; info_height := 1; fps := 25 |} eq_refl).
Defined.

(** ** Frame Renderer: C8, C9 *)

(** C8: [renderFrame] moves the cursor to the top-left and then writes
    the whole assembled block in one write, whatever the size of the
    raster: two writes to the terminal, the block being the second; it
    changes nothing else of the state. *)
Theorem renderFrame_one_bulk_write frameBuffer width height p :
  stdout (renderFrame frameBuffer width height p)
  = stdout p ++ [Write CURSOR_HOME;
                 Write (renderOutput frameBuffer width height)]
  /\ buffer (renderFrame frameBuffer width height p) = buffer p
  /\ frameQueue (renderFrame frameBuffer width height p) = frameQueue p
  /\ isPlaying (renderFrame frameBuffer width height p) = isPlaying p
  /\ timers (renderFrame frameBuffer width height p) = timers p
  /\ enqueued (renderFrame frameBuffer width height p) = enqueued p.
Proof.
  unfold renderFrame, stdout_write. cbn. rewrite <- app_assoc.
  repeat split; reflexivity.
Qed.

Lemma string_app_assoc (a b c : string) :
  ((a ++ b) ++ c)%string = (a ++ (b ++ c))%string.
Proof. induction a as [|x a IH]; cbn; [reflexivity | rewrite IH; reflexivity]. Qed.

Lemma string_app_nil_r (a : string) : (a ++ "")%string = a.
Proof. induction a as [|x a IH]; cbn; [reflexivity | rewrite IH; reflexivity]. Qed.

(** Reading the three bytes of pixel [k]. *)
Lemma pixels_nth : forall k frameBuffer r g b,
  nth_error (pixels frameBuffer) k = Some (r, g, b) ->
  buf_get frameBuffer (Z.of_nat k * 3) = Some r
  /\ buf_get frameBuffer (Z.of_nat k * 3 + 1) = Some g
  /\ buf_get frameBuffer (Z.of_nat k * 3 + 2) = Some b.
Proof.
  assert (Hget : forall (fb : list byte) (n : nat) (z : Z),
             z = Z.of_nat n -> buf_get fb z = option_map byteZ (nth_error fb n)).
  { intros fb n z ->. unfold buf_get.
    replace (Z.of_nat n <? 0)%Z with false by (symmetry; apply Z.ltb_ge; lia).
    rewrite Nat2Z.id. reflexivity. }
  induction k as [|k IH]; intros [|r0 [|g0 [|b0 rest]]] r g b H;
    cbn [pixels nth_error] in H; try discriminate.
  - injection H as <- <- <-.
    rewrite (Hget _ 0%nat), (Hget _ 1%nat), (Hget _ 2%nat) by lia.
    repeat split; reflexivity.
  - destruct (IH rest r g b H) as (Hr & Hg & Hb).
    rewrite (Hget rest (k * 3)%nat) in Hr by lia.
    rewrite (Hget rest (k * 3 + 1)%nat) in Hg by lia.
    rewrite (Hget rest (k * 3 + 2)%nat) in Hb by lia.
    rewrite (Hget _ (3 + k * 3)%nat), (Hget _ (3 + (k * 3 + 1))%nat),
      (Hget _ (3 + (k * 3 + 2))%nat) by lia.
    cbn [Nat.add nth_error]. repeat split; assumption.
Qed.

Lemma byteZ_range x : (0 <= byteZ x <= 255)%Z.
Proof.
  unfold byteZ. pose proof (Byte.to_N_bounded x). lia.
Qed.

Lemma pixels_range frameBuffer :
  Forall (fun '(r, g, b) =>
            (0 <= r <= 255)%Z /\ (0 <= g <= 255)%Z /\ (0 <= b <= 255)%Z)
         (pixels frameBuffer).
Proof.
  assert (H : forall n (fb : list byte), (List.length fb <= n)%nat ->
            Forall (fun '(r, g, b) =>
              (0 <= r <= 255)%Z /\ (0 <= g <= 255)%Z /\ (0 <= b <= 255)%Z)
              (pixels fb)).
  { induction n as [|n IH]; intros [|r [|g [|b rest]]] Hl; cbn [pixels];
      try constructor; cbn in Hl; try lia.
    - repeat split; apply byteZ_range.
    - apply IH. lia. }
  apply (H (List.length frameBuffer)). lia.
Qed.

Lemma pixels_length frameBuffer n :
  List.length frameBuffer = (n * 3)%nat -> List.length (pixels frameBuffer) = n.
Proof.
  revert frameBuffer. induction n as [|n IH]; intros [|r [|g [|b rest]]] H;
    cbn in H; try discriminate; cbn [pixels List.length]; try reflexivity.
  f_equal. apply IH. lia.
Qed.

(** The text the program writes for pixel [k] is the cell of the
    specification. *)
Lemma pixelText_cell frameBuffer k px :
  nth_error (pixels frameBuffer) k = Some px ->
  pixelText frameBuffer (Z.of_nat k * 3) = cellText px.
Proof.
  intros H. destruct px as [[r g] b].
  pose proof (pixels_range frameBuffer) as Hrange.
  rewrite Forall_forall in Hrange.
  specialize (Hrange _ (nth_error_In _ _ H)). cbn in Hrange.
  destruct Hrange as (Hr & Hg & Hb).
  destruct (pixels_nth k frameBuffer r g b H) as (Er & Eg & Eb).
  unfold pixelText. rewrite Er, Eg, Eb. unfold cellText, colorSet.
  rewrite rgbToAnsi256_eq_spec by assumption.
  rewrite !string_app_assoc. reflexivity.
Qed.

(** The inner loop appends the cells of one row. *)
Lemma inner_loop frameBuffer (w y : nat) : forall n x output,
  (y * w + x + n <= List.length (pixels frameBuffer))%nat ->
  for_loop n (Z.of_nat x)
    (fun x output =>
       (output
        ++ pixelText frameBuffer ((Z.of_nat y * Z.of_nat w + x) * 3))%string)
    output
  = (output
     ++ join (map cellText
                (firstn n (skipn (y * w + x) (pixels frameBuffer)))))%string.
Proof.
  induction n as [|n IH]; intros x output Hlen.
  - cbn. rewrite string_app_nil_r. reflexivity.
  - cbn [for_loop].
    destruct (nth_error (pixels frameBuffer) (y * w + x)) as [px|] eqn:Hpx;
      [|apply nth_error_None in Hpx; lia].
    replace ((Z.of_nat y * Z.of_nat w + Z.of_nat x) * 3)%Z
      with (Z.of_nat (y * w + x) * 3)%Z by lia.
    rewrite (pixelText_cell _ _ _ Hpx).
    replace (Z.of_nat x + 1)%Z with (Z.of_nat (S x)) by lia.
    rewrite IH by lia.
    destruct (nth_error_split _ _ Hpx) as (l1 & l2 & Hsplit & Hl1).
    assert (Hskip : skipn (y * w + x) (pixels frameBuffer) = px :: l2).
    { rewrite Hsplit, <- Hl1, skipn_app, skipn_all, Nat.sub_diag. reflexivity. }
    assert (Hskip' : skipn (y * w + S x) (pixels frameBuffer) = l2).
    { replace (y * w + S x)%nat with (S (List.length l1)) by lia.
      rewrite Hsplit. change (S (List.length l1)) with (1 + List.length l1)%nat.
      rewrite <- skipn_skipn, skipn_app, skipn_all, Nat.sub_diag. reflexivity. }
    rewrite Hskip, Hskip'. cbn [firstn map join fold_right].
    rewrite string_app_assoc. reflexivity.
Qed.

Lemma rasterRows_skipn (w : nat) : forall h ps,
  rasterRows w (S h) ps = firstn w ps :: rasterRows w h (skipn w ps).
Proof. reflexivity. Qed.

(** The outer loop appends the lines of the remaining rows. *)
Lemma outer_loop frameBuffer (w : nat) : forall n y output,
  ((y + n) * w <= List.length (pixels frameBuffer))%nat ->
  for_loop n (Z.of_nat y) (renderRow frameBuffer (Z.of_nat w)) output
  = (output
     ++ join (map lineText
                (rasterRows w n (skipn (y * w) (pixels frameBuffer)))))%string.
Proof.
  induction n as [|n IH]; intros y output Hlen.
  - cbn. rewrite string_app_nil_r. reflexivity.
  - cbn [for_loop].
    replace (Z.of_nat y + 1)%Z with (Z.of_nat (S y)) by lia.
    rewrite IH by lia.
    unfold renderRow, for_lt. cbv zeta. rewrite Nat2Z.id.
    change (@for_loop string w 0%Z) with (@for_loop string w (Z.of_nat 0)).
    rewrite (inner_loop frameBuffer w y w 0 output) by lia.
    rewrite rasterRows_skipn. cbn [map join fold_right].
    rewrite Nat.add_0_r, skipn_skipn.
    replace (w + y * w)%nat with (S y * w)%nat by lia.
    unfold lineText at 2. rewrite !string_app_assoc. reflexivity.
Qed.

Lemma rasterRows_shape (w : nat) : forall h ps,
  List.length ps = (h * w)%nat ->
  List.length (rasterRows w h ps) = h
  /\ Forall (fun row => List.length row = w) (rasterRows w h ps)
  /\ List.concat (rasterRows w h ps) = ps.
Proof.
  induction h as [|h IH]; intros ps Hlen.
  - cbn in *. destruct ps; [|discriminate]. repeat split. constructor.
  - cbn [rasterRows].
    destruct (IH (skipn w ps)) as (Hl & Hf & Hc).
    { rewrite length_skipn. lia. }
    cbn [List.length List.concat]. split; [lia|]. split.
    + constructor; [|exact Hf]. rewrite length_firstn. lia.
    + rewrite Hc. apply firstn_skipn.
Qed.

(** C9: for a frame of exactly width*height*3 bytes the assembled block
    is the concatenation of one line per raster row; a line is the cells of
    the pixels of that row, in row-major order, each a colour-set escape
    sequence immediately followed by the glyph, a ramp character; and the
    line ends with the style reset and then the line feed. *)
Theorem renderOutput_format frameBuffer (w h : nat) :
  List.length frameBuffer = (w * h * 3)%nat ->
  let rows := rasterRows w h (pixels frameBuffer) in
  renderOutput frameBuffer (Z.of_nat w) (Z.of_nat h) = blockText w h frameBuffer
  /\ blockText w h frameBuffer = join (map lineText rows)
  /\ (forall row, lineText row
                  = (join (map cellText row) ++ RESET ++ LF)%string)
  /\ List.length rows = h
  /\ Forall (fun row => List.length row = w) rows
  /\ List.concat rows = pixels frameBuffer
  /\ Forall (fun px => exists c,
               In c (list_ascii_of_string ASCII_CHARS)
               /\ cellText px
                  = (colorSet (colorIndex_spec (fst (fst px)) (snd (fst px)) (snd px))
                     ++ String c EmptyString)%string)
            (pixels frameBuffer).
Proof.
  intros Hlen.
  assert (Hpx : List.length (pixels frameBuffer) = (h * w)%nat).
  { apply pixels_length. rewrite Hlen. lia. }
  destruct (rasterRows_shape w h (pixels frameBuffer) Hpx) as (Hl & Hf & Hc).
  cbv zeta. split.
  { unfold renderOutput, for_lt. rewrite Nat2Z.id.
    change (@for_loop string h 0%Z) with (@for_loop string h (Z.of_nat 0)).
    rewrite (outer_loop frameBuffer w h 0 EmptyString) by (cbn; lia).
    reflexivity. }
  split; [reflexivity|].
  split; [reflexivity|]. split; [exact Hl|]. split; [exact Hf|].
  split; [exact Hc|].
  pose proof (pixels_range frameBuffer) as Hrange.
  rewrite Forall_forall in *. intros [[r g] b] Hin.
  specialize (Hrange _ Hin). cbn in Hrange. destruct Hrange as (Hr & Hg & Hb).
  destruct (char_defined r g b Hr Hg Hb) as [c Hchar].
  exists c. split.
  - rewrite char_at_charIndex in Hchar by assumption.
    clear - Hchar. revert Hchar. generalize (Z.to_nat (charIndex r g b)).
    intros n. unfold ASCII_CHARS.
    do 10 (destruct n as [|n];
           [cbn; intros [= <-]; cbn; tauto|]).
    cbn. discriminate.
  - cbn [cellText fst snd]. rewrite Hchar. reflexivity.
Qed.

Lemma renderOutput_format_witness :
  let frameBuffer :=
    [x00; x00; x00; xff; xff; xff; xff; x00; x00; x80; x80; x80]%byte in
  let rows := rasterRows 2 2 (pixels frameBuffer) in
  renderOutput frameBuffer 2 2 = blockText 2 2 frameBuffer
  /\ blockText 2 2 frameBuffer = join (map lineText rows)
  /\ (forall row, lineText row
                  = (join (map cellText row) ++ RESET ++ LF)%string)
  /\ List.length rows = 2%nat
  /\ Forall (fun row => List.length row = 2%nat) rows
  /\ List.concat rows = pixels frameBuffer
  /\ Forall (fun px => exists c,
               In c (list_ascii_of_string ASCII_CHARS)
               /\ cellText px
                  = (colorSet (colorIndex_spec (fst (fst px)) (snd (fst px)) (snd px))
                     ++ String c EmptyString)%string)
            (pixels frameBuffer).
Proof.
  apply (renderOutput_format
           [x00; x00; x00; xff; xff; xff; xff; x00; x00; x80; x80; x80]%byte 2 2).
  reflexivity.
Defined.

(** ** Process lifecycle: C7 *)

Lemma cursorVisible_app ops1 : forall v ops2,
  cursorVisible v (ops1 ++ ops2) = cursorVisible (cursorVisible v ops1) ops2.
Proof.
  induction ops1 as [|[s|] ops1 IH]; intros v ops2; cbn [cursorVisible app];
    [reflexivity| |apply IH].
  destruct (String.eqb s CURSOR_HIDE); [apply IH|].
  destruct (String.eqb s CURSOR_SHOW); apply IH.
Qed.

Lemma cursorVisible_neutral ops : forall v,
  forallb neutralOp ops = true -> cursorVisible v ops = v.
Proof.
  induction ops as [|[s|] ops IH]; intros v H;
    cbn [cursorVisible forallb neutralOp] in *; [reflexivity| |].
  - apply andb_prop in H. destruct H as [H1 H2].
    apply andb_prop in H1. destruct H1 as [Hh Hs].
    apply negb_true_iff in Hh, Hs. rewrite Hh, Hs. apply IH, H2.
  - apply IH, H.
Qed.

Lemma lastChar_app a : forall b,
  b <> EmptyString -> lastChar (a ++ b)%string = lastChar b.
Proof.
  induction a as [|c a IH]; intros b Hb; [reflexivity|].
  cbn [String.append lastChar].
  destruct (a ++ b)%string eqn:E.
  - destruct a; [cbn in E; contradiction | discriminate E].
  - rewrite <- E. apply IH, Hb.
Qed.

Lemma fullLines_neutral s : fullLines s -> neutralOp (Write s) = true.
Proof.
  intros [->|H]; [reflexivity|]. cbn [neutralOp].
  destruct (String.eqb_spec s CURSOR_HIDE) as [->|_]; [discriminate H|].
  destruct (String.eqb_spec s CURSOR_SHOW) as [->|_]; [discriminate H|].
  reflexivity.
Qed.

Lemma console_log_neutral s : neutralOp (Write (s ++ LF)) = true.
Proof.
  apply fullLines_neutral. right. rewrite lastChar_app; [reflexivity|discriminate].
Qed.

Lemma renderOutput_fullLines frameBuffer width height :
  fullLines (renderOutput frameBuffer width height).
Proof.
  unfold renderOutput, for_lt.
  assert (H : forall n i s, fullLines s ->
            fullLines (for_loop n i (renderRow frameBuffer width) s)).
  { induction n as [|n IH]; intros i s Hs; [exact Hs|].
    cbn [for_loop]. apply IH. right. unfold renderRow. cbv zeta.
    rewrite lastChar_app; [reflexivity|discriminate]. }
  apply H. left. reflexivity.
Qed.

Lemma quietly_refl p : quietly_extends p p.
Proof. exists []. rewrite app_nil_r. split; reflexivity. Qed.

Lemma quietly_trans p q r :
  quietly_extends p q -> quietly_extends q r -> quietly_extends p r.
Proof.
  intros (o1 & E1 & N1) (o2 & E2 & N2). exists (o1 ++ o2).
  rewrite E2, E1, <- app_assoc. split; [reflexivity|].
  rewrite forallb_app, N1, N2. reflexivity.
Qed.

Section QuietPlayback.

Variables (width height : Z) (frameInterval : Q).

Local Abbreviation playNextFrame := (playNextFrame width height frameInterval).
Local Abbreviation takeFrame := (takeFrame width height frameInterval).
Local Abbreviation drain := (drain width height frameInterval).
Local Abbreviation onData := (onData width height frameInterval).
Local Abbreviation onTimeout := (onTimeout width height frameInterval).
Local Abbreviation session := (session width height frameInterval).

Lemma playNextFrame_quiet p q :
  stdout q = stdout p -> quietly_extends p (playNextFrame q).
Proof.
  intros E. unfold playNextFrame. destruct (frameQueue q) as [|f rest].
  - exists []. cbn. rewrite app_nil_r. split; [exact E|reflexivity].
  - exists [Write CURSOR_HOME; Write (renderOutput f width height)].
    split.
    + cbn. rewrite E, <- app_assoc. reflexivity.
    + cbn [forallb].
      rewrite (fullLines_neutral _ (renderOutput_fullLines f width height)).
      reflexivity.
Qed.

Lemma takeFrame_quiet p : quietly_extends p (takeFrame p).
Proof.
  unfold takeFrame. cbv zeta. destruct (negb _ && _).
  - apply playNextFrame_quiet. reflexivity.
  - exists []. cbn. rewrite app_nil_r. split; reflexivity.
Qed.

Lemma drain_quiet fuel : forall p p',
  drain fuel p = Some p' -> quietly_extends p p'.
Proof.
  induction fuel as [|fuel IH]; intros p p' Hd; cbn [drain] in Hd;
    destruct (Z.of_nat (List.length (buffer p)) >=? frameSize width height)%Z;
    try discriminate; try (injection Hd as <-; apply quietly_refl).
  eapply quietly_trans; [apply takeFrame_quiet | apply IH, Hd].
Qed.

Lemma onData_quiet data p p' : onData data p = Some p' -> quietly_extends p p'.
Proof.
  unfold onData. cbv zeta. intros Hd. apply drain_quiet in Hd.
  destruct Hd as (ops & E & N). exists ops. split; assumption.
Qed.

Lemma onTimeout_quiet p : quietly_extends p (onTimeout p).
Proof.
  unfold onTimeout. destruct (timers p); [apply quietly_refl|].
  apply playNextFrame_quiet. reflexivity.
Qed.

Lemma shown_quiet p p' : shown p -> quietly_extends p p' -> shown p'.
Proof.
  intros [Hv Hin] (ops & E & N). split; rewrite E.
  - rewrite cursorVisible_app, Hv. apply cursorVisible_neutral, N.
  - apply in_or_app. left. exact Hin.
Qed.

Lemma shown_write_show p : shown (stdout_write CURSOR_SHOW p).
Proof.
  split; cbn.
  - rewrite cursorVisible_app. reflexivity.
  - apply in_or_app. right. left. reflexivity.
Qed.

Lemma shown_console_log s p : shown p -> shown (console_log s p).
Proof.
  intros H. apply (shown_quiet p); [exact H|].
  exists [Write (s ++ LF)%string]. split; [reflexivity|].
  cbn [forallb]. rewrite console_log_neutral. reflexivity.
Qed.

(** However a session ends, if it ends with an exit or a rejection the
    cursor has been shown. *)
Lemma session_shown es : forall settled p p' c,
  session es settled p = (p', c) ->
  (settled = true -> shown p) ->
  match c with
  | Exit path code =>
      shown p' /\ code = 0%Z /\ (path = Completed \/ path = InterruptedByUser)
  | Reject path _ => shown p' /\ path = DecodeFailure
  | Pending | Looping => True
  | Killed | Uncaught _ => False
  end.
Proof.
  induction es as [|e es IH]; intros settled p p' c Hs Hpre.
  - cbn in Hs. injection Hs as <- <-. exact I.
  - destruct e as [[data|]| |message|]; cbn [session] in Hs.
    + destruct settled; [apply (IH _ _ _ _ Hs Hpre)|].
      destruct (onData data p) as [p1|] eqn:Hd.
      * apply (IH _ _ _ _ Hs). discriminate.
      * injection Hs as <- <-. exact I.
    + pose proof (onTimeout_quiet p) as Hq.
      destruct settled.
      * pose proof (shown_quiet _ _ (Hpre eq_refl) Hq) as Hsh.
        destruct (timers (onTimeout p)).
        -- injection Hs as <- <-. repeat split; try apply Hsh. left. reflexivity.
        -- apply (IH _ _ _ _ Hs). intros _. exact Hsh.
      * apply (IH _ _ _ _ Hs). discriminate.
    + destruct settled; [apply (IH _ _ _ _ Hs Hpre)|].
      pose proof (shown_console_log (LF ++ "Playback finished")
                    _ (shown_write_show p)) as Hsh.
      cbv zeta in Hs.
      destruct (timers _).
      * injection Hs as <- <-. repeat split; try apply Hsh. left. reflexivity.
      * apply (IH _ _ _ _ Hs). intros _. exact Hsh.
    + pose proof (shown_write_show p) as Hsh. cbv zeta in Hs.
      destruct settled.
      * apply (IH _ _ _ _ Hs). intros _. exact Hsh.
      * injection Hs as <- <-. split; [exact Hsh|reflexivity].
    + cbv zeta in Hs. injection Hs as <- <-.
      pose proof (shown_console_log (LF ++ LF ++ "Stopped by user")
                    _ (shown_write_show p)) as Hsh.
      repeat split; try apply Hsh. right. reflexivity.
Qed.

End QuietPlayback.





(** * Further properties *)

(** ** Dimension Fitter and terminal size *)

Lemma js_or_safe v d : reported v -> safe d -> safe (js_or v d).
Proof.
  intros Hv Hd. destruct v as [z|]; cbn in *; [|exact Hd].
  destruct (Z.eqb_spec z 0); [exact Hd|]. unfold safe. lia.
Qed.

(** The first quotient of the fitter is never negative. *)
Lemma first_fit_nonneg maxWidth ratio :
  (0 <= maxWidth)%Z -> 0 < ratio ->
  (0 <= Math_floor (of_Z maxWidth * (1 # 2) / ratio)%js)%Z.
Proof.
  intros Hw Hr. unfold Math_floor, fdiv, fmul, of_Z.
  rewrite <- (Qfloor_Z 0). apply Qfloor_resp_le.
  change (inject_Z 0) with 0. apply rnd_nonneg.
  apply Qle_shift_div_l; [exact Hr|]. rewrite Qmult_0_l.
  apply rnd_nonneg.
  assert (0 <= inject_Z maxWidth)
    by (change 0 with (inject_Z 0); rewrite <- Zle_Qle; exact Hw).
  lra.
Qed.

(** The bounds of the fitted raster, in terms of the terminal size the
    fitter works with. *)
Lemma fit_bounds maxWidth maxHeight videoWidth videoHeight :
  safe videoWidth -> safe videoHeight -> safe maxWidth -> safe maxHeight ->
  let d := calculateAspectRatioDimensions (Some maxWidth) (Some maxHeight)
             videoWidth videoHeight in
  (width d <= maxWidth /\ height d <= maxHeight - 2)%Z
  /\ (2 <= maxHeight -> 0 <= width d /\ 0 <= height d)%Z.
Proof.
  intros Hvw Hvh Hc Hr.
  pose proof (videoAspectRatio_pos videoWidth videoHeight Hvw Hvh) as Hvar.
  unfold calculateAspectRatioDimensions, getTerminalSize, js_or; cbn [width height].
  destruct Hc as [Hc1 Hc2]. destruct Hr as [Hr1 Hr2].
  replace (maxWidth =? 0)%Z with false by (symmetry; apply Z.eqb_neq; lia).
  replace (maxHeight =? 0)%Z with false by (symmetry; apply Z.eqb_neq; lia).
  set (var := (of_Z videoWidth / of_Z videoHeight)%js) in *. clearbody var.
  set (maxH := (maxHeight - 2)%Z).
  pose proof (first_fit_nonneg maxWidth var ltac:(lia) Hvar) as H0.
  destruct (Z.gtb_spec (Math_floor (of_Z maxWidth * (1 # 2) / var)%js) maxH)
    as [Hgt|Hle]; cbn [width height]; [|lia].
  unfold Math_floor, fdiv, fmul, of_Z in *.
  assert (Hq1 : inject_Z (maxH + 1)
                <= rnd (rnd (inject_Z maxWidth * (1 # 2)) / var)).
  { eapply Qle_trans; [|apply Qfloor_le]. rewrite <- Zle_Qle. lia. }
  rewrite rnd_half in Hq1 by lia.
  assert (Hcols : inject_Z 0 < inject_Z maxWidth) by (rewrite <- Zlt_Qlt; lia).
  change (inject_Z 0) with 0 in Hcols.
  assert (Hprod : inject_Z maxH * var <= inject_Z maxWidth * (1 # 2)).
  { destruct (Z_le_gt_dec maxH 0) as [Hn|Hp].
    - assert (H : inject_Z maxH <= inject_Z 0) by (rewrite <- Zle_Qle; lia).
      change (inject_Z 0) with 0 in H.
      assert (0 <= (- inject_Z maxH) * var) by (apply Qmult_le_0_compat; lra).
      lra.
    - apply Qnot_lt_le. intros Hcontra.
      assert (Hdiv : inject_Z maxWidth * (1 # 2) / var <= inject_Z maxH).
      { apply Qle_shift_div_r; [assumption|]. lra. }
      apply rnd_mono in Hdiv. rewrite rnd_Z in Hdiv by lia.
      rewrite inject_Z_plus in Hq1. change (inject_Z 1) with 1 in Hq1. lra. }
  split; [split; [|lia]|].
  - apply rnd_mono in Hprod. rewrite rnd_half in Hprod by lia.
    assert (Hw : rnd (inject_Z maxH * var) / (1 # 2) <= inject_Z maxWidth).
    { apply Qle_shift_div_r; [reflexivity|]. lra. }
    apply rnd_mono in Hw. rewrite rnd_Z in Hw by lia.
    rewrite <- (Qfloor_Z maxWidth). apply Qfloor_resp_le. exact Hw.
  - intros H2. split; [|lia].
    rewrite <- (Qfloor_Z 0). apply Qfloor_resp_le. change (inject_Z 0) with 0.
    apply rnd_nonneg. apply Qle_shift_div_l; [reflexivity|]. rewrite Qmult_0_l.
    apply rnd_nonneg.
    assert (0 <= inject_Z maxH)
      by (change 0 with (inject_Z 0); rewrite <- Zle_Qle; lia).
    apply Qmult_le_0_compat; lra.
Qed.

Lemma fit_uses_terminal_size columns rows videoWidth videoHeight :
  let term := getTerminalSize columns rows in
  calculateAspectRatioDimensions columns rows videoWidth videoHeight
  = calculateAspectRatioDimensions (Some (width term)) (Some (height term))
      videoWidth videoHeight.
Proof.
  cbv zeta. unfold calculateAspectRatioDimensions, getTerminalSize.
  cbn [width height].
  assert (H : forall v d, d <> 0%Z -> js_or (Some (js_or v d)) d = js_or v d).
  { intros [z|] d Hd; cbn.
    - destruct (Z.eqb_spec z 0) as [->|Hz].
      + destruct (Z.eqb_spec d 0); [contradiction|reflexivity].
      + destruct (Z.eqb_spec z 0); [contradiction|reflexivity].
    - destruct (Z.eqb_spec d 0); [contradiction|reflexivity]. }
  rewrite !H by discriminate. reflexivity.
Qed.

(** X1: the terminal size and its defaults.  [getTerminalSize] returns
    the number of columns and of rows the terminal reports; where none is
    reported (the output is not a terminal) or 0 is reported it returns 80
    columns, 24 rows.  The raster is fitted to that size: it is at most as
    wide, and at most as high as its height less the two reserved rows; so
    with nothing reported it is at most 80 wide and 22 high. *)
Theorem fit_within_terminal_size columns rows videoWidth videoHeight :
  reported columns -> reported rows -> safe videoWidth -> safe videoHeight ->
  let term := getTerminalSize columns rows in
  let d := calculateAspectRatioDimensions columns rows videoWidth videoHeight in
  (columns = None \/ columns = Some 0%Z -> width term = 80%Z)
  /\ (forall c, columns = Some c -> c <> 0%Z -> width term = c)
  /\ (rows = None \/ rows = Some 0%Z -> height term = 24%Z)
  /\ (forall r, rows = Some r -> r <> 0%Z -> height term = r)
  /\ (0 < width term /\ 0 < height term
      /\ width d <= width term /\ height d <= height term - 2)%Z
  /\ (columns = None -> rows = None -> width d <= 80 /\ height d <= 22)%Z.
Proof.
  intros Hc Hr Hvw Hvh. cbv zeta.
  assert (Hfit : (0 < width (getTerminalSize columns rows)
                  /\ 0 < height (getTerminalSize columns rows)
                  /\ width (calculateAspectRatioDimensions columns rows
                              videoWidth videoHeight)
                     <= width (getTerminalSize columns rows)
                  /\ height (calculateAspectRatioDimensions columns rows
                               videoWidth videoHeight)
                     <= height (getTerminalSize columns rows) - 2)%Z).
  { rewrite fit_uses_terminal_size.
    assert (Hw : safe (width (getTerminalSize columns rows)))
      by (apply js_or_safe; [exact Hc | split; reflexivity]).
    assert (Hh : safe (height (getTerminalSize columns rows)))
      by (apply js_or_safe; [exact Hr | split; reflexivity]).
    destruct (fit_bounds _ _ videoWidth videoHeight Hvw Hvh Hw Hh) as [[H1 H2] _].
    destruct Hw, Hh. repeat split; assumption. }
  split; [intros [-> | ->]; reflexivity|].
  split.
  { intros c -> Hne. cbn. destruct (Z.eqb_spec c 0); [contradiction|reflexivity]. }
  split; [intros [-> | ->]; reflexivity|].
  split.
  { intros r -> Hne. cbn. destruct (Z.eqb_spec r 0); [contradiction|reflexivity]. }
  split; [exact Hfit|].
  intros -> ->. destruct Hfit as (_ & _ & H1 & H2).
  change (width (getTerminalSize None None)) with 80%Z in H1.
  change (height (getTerminalSize None None)) with 24%Z in H2.
  split; [exact H1 | lia].
Qed.

Lemma fit_within_terminal_size_witness :
  let term := getTerminalSize None (Some 0%Z) in
  let d := calculateAspectRatioDimensions None (Some 0%Z) 1920 1080 in
  (@None Z = None \/ @None Z = Some 0%Z -> width term = 80%Z)
  /\ (forall c, None = Some c -> c <> 0%Z -> width term = c)
  /\ (Some 0%Z = None \/ Some 0%Z = Some 0%Z -> height term = 24%Z)
  /\ (forall r, Some 0%Z = Some r -> r <> 0%Z -> height term = r)
  /\ (0 < width term /\ 0 < height term
      /\ width d <= width term /\ height d <= height term - 2)%Z
  /\ (@None Z = None -> Some 0%Z = None -> width d <= 80 /\ height d <= 22)%Z.
Proof.
  apply (fit_within_terminal_size None (Some 0%Z) 1920 1080);
    cbn; unfold safe; try exact I; lia.
Defined.

(** X2: a raster of at least one cell.  In a terminal of three rows or
    more, a video whose aspect ratio is at least 1 : (rows - 2) and at most
    columns : 2 is fitted to a raster of at least one column and one row;
    the size of a frame is then positive. *)
Theorem fit_at_least_one_cell maxWidth maxHeight videoWidth videoHeight :
  safe videoWidth -> safe videoHeight -> safe maxWidth -> safe maxHeight ->
  (3 <= maxHeight)%Z ->
  (2 * videoWidth <= maxWidth * videoHeight)%Z ->
  (videoHeight <= (maxHeight - 2) * videoWidth)%Z ->
  let d := calculateAspectRatioDimensions (Some maxWidth) (Some maxHeight)
             videoWidth videoHeight in
  (1 <= width d /\ 1 <= height d /\ 0 < frameSize (width d) (height d))%Z.
Proof.
  intros Hvw Hvh Hc Hr H3 Hwide Htall.
  pose proof (videoAspectRatio_pos videoWidth videoHeight Hvw Hvh) as Hvar.
  assert (Hone : rnd 1 == 1) by (vm_compute; reflexivity).
  assert (Hhalf : rnd (1 # 2) == 1 # 2) by (vm_compute; reflexivity).
  assert (Hfl : forall x, 1 <= x -> (1 <= Qfloor (rnd x))%Z).
  { intros x Hx. rewrite <- (Qfloor_Z 1). apply Qfloor_resp_le.
    change (inject_Z 1) with 1. rewrite <- Hone. apply rnd_mono, Hx. }
  cut (let d := calculateAspectRatioDimensions (Some maxWidth) (Some maxHeight)
                  videoWidth videoHeight in (1 <= width d /\ 1 <= height d)%Z).
  { cbv zeta. intros [H1 H2]. repeat split; try assumption.
    unfold frameSize. nia. }
  unfold calculateAspectRatioDimensions, getTerminalSize, js_or; cbn [width height].
  destruct Hc as [Hc1 Hc2]. destruct Hr as [Hr1 Hr2].
  destruct Hvw as [Hvw1 Hvw2]. destruct Hvh as [Hvh1 Hvh2].
  replace (maxWidth =? 0)%Z with false by (symmetry; apply Z.eqb_neq; lia).
  replace (maxHeight =? 0)%Z with false by (symmetry; apply Z.eqb_neq; lia).
  assert (Qvw : 0 < inject_Z videoWidth)
    by (change 0 with (inject_Z 0); rewrite <- Zlt_Qlt; lia).
  assert (Qvh : 0 < inject_Z videoHeight)
    by (change 0 with (inject_Z 0); rewrite <- Zlt_Qlt; lia).
  unfold Math_floor, fdiv, fmul, of_Z in *.
  set (x := inject_Z videoWidth / inject_Z videoHeight) in *.
  set (maxH := (maxHeight - 2)%Z) in *.
  destruct (Z.gtb_spec (Qfloor (rnd (rnd (inject_Z maxWidth * (1 # 2)) / rnd x)))
              maxH) as [Hgt|Hle]; cbn [width height].
  - (* the height is the limit: the width follows from it *)
    split; [|lia]. apply Hfl.
    apply Qle_shift_div_l; [reflexivity|]. rewrite Qmult_1_l.
    rewrite <- Hhalf. apply rnd_mono.
    assert (QmaxH : 1 <= inject_Z maxH)
      by (change 1 with (inject_Z 1); rewrite <- Zle_Qle; lia).
    assert (Hmx : 1 <= inject_Z maxH * x).
    { unfold x. unfold Qdiv. rewrite Qmult_assoc.
      apply Qle_shift_div_l; [exact Qvh|]. rewrite Qmult_1_l.
      rewrite <- inject_Z_mult, <- Zle_Qle. exact Htall. }
    assert (Hx : pow2 (-1022) <= x).
    { apply Qle_trans with (pow2 (-53)); [apply pow2_le; lia|].
      unfold x. apply Qle_shift_div_l; [exact Qvh|].
      assert (inject_Z videoHeight <= inject_Z (2 ^ 53))
        by (rewrite <- Zle_Qle; lia).
      assert (1 <= inject_Z videoWidth)
        by (change 1 with (inject_Z 1); rewrite <- Zle_Qle; lia).
      change (inject_Z (2 ^ 53)) with (9007199254740992 # 1) in *.
      change (pow2 (-53)) with (1 # 9007199254740992). lra. }
    destruct (rnd_relative x Hx) as [Hlo _].
    assert (Hu : 1 - ulp53 == 9007199254740991 # 9007199254740992)
      by (vm_compute; reflexivity).
    rewrite Hu in Hlo.
    assert (Hx0 : 0 < x) by (apply Qlt_le_trans with (pow2 (-1022)); [apply pow2_pos | exact Hx]).
    set (v := rnd x) in *. clearbody v. clearbody x.
    set (m := inject_Z maxH) in *. clearbody m.
    nra.
  - (* the width is the limit: the height follows from it *)
    split; [lia|]. apply Hfl.
    rewrite rnd_half by lia.
    apply Qle_shift_div_l; [exact Hvar|]. rewrite Qmult_1_l.
    rewrite <- (rnd_half maxWidth) by lia. apply rnd_mono.
    unfold x. apply Qle_shift_div_r; [exact Qvh|].
    assert (H : inject_Z (2 * videoWidth) <= inject_Z (maxWidth * videoHeight))
      by (rewrite <- Zle_Qle; exact Hwide).
    rewrite !inject_Z_mult in H. change (inject_Z 2) with 2 in H. lra.
Qed.

Lemma fit_at_least_one_cell_witness :
  let d := calculateAspectRatioDimensions (Some 80%Z) (Some 24%Z) 640 480 in
  (1 <= width d /\ 1 <= height d /\ 0 < frameSize (width d) (height d))%Z.
Proof.
  apply (fit_at_least_one_cell 80 24 640 480); unfold safe; lia.
Defined.

(** In a terminal of two rows nothing is left for the video: the raster
    has no row. *)
Lemma fit_two_rows columns videoWidth videoHeight :
  reported columns -> safe videoWidth -> safe videoHeight ->
  height (calculateAspectRatioDimensions columns (Some 2%Z) videoWidth videoHeight)
  = 0%Z.
Proof.
  intros Hc Hvw Hvh. rewrite fit_uses_terminal_size.
  assert (Hw : safe (width (getTerminalSize columns (Some 2%Z))))
    by (apply js_or_safe; [exact Hc | split; reflexivity]).
  change (height (getTerminalSize columns (Some 2%Z))) with 2%Z.
  destruct (fit_bounds _ 2 videoWidth videoHeight Hvw Hvh Hw ltac:(split; reflexivity))
    as [[_ H1] H2].
  specialize (H2 ltac:(lia)). lia.
Qed.

(** Once the loop of the ['data'] handler has taken its first turn the
    scheduler is Playing, and every further turn only adds a frame to the
    queue: whatever the number of turns, the terminal is as the first turn
    left it. *)
Lemma loop_writes_in_first_turn width height frameInterval p : forall n,
  stdout (Nat.iter n (takeFrame width height frameInterval)
            (takeFrame width height frameInterval p))
  = stdout (takeFrame width height frameInterval p)
  /\ isPlaying (Nat.iter n (takeFrame width height frameInterval)
                  (takeFrame width height frameInterval p)) = true.
Proof.
  assert (Hfirst : isPlaying (takeFrame width height frameInterval p) = true).
  { unfold takeFrame. cbv zeta. set (p1 := push _ _).
    destruct (isPlaying p1) eqn:Hi; cbn [negb andb]; [exact Hi|].
    assert (Hq : exists f rest, frameQueue (set_isPlaying true p1) = f :: rest).
    { subst p1. cbn. destruct (frameQueue p); eexists; eexists; reflexivity. }
    destruct Hq as (f & rest & Hq).
    replace (0 <? List.length (frameQueue p1))%nat with true.
    2:{ symmetry. apply Nat.ltb_lt. change (frameQueue p1)
          with (frameQueue (set_isPlaying true p1)). rewrite Hq. cbn. lia. }
    destruct (playNextFrame_render width height frameInterval _ _ _ Hq)
      as (_ & _ & _ & H).
    rewrite H. reflexivity. }
  assert (Hnext : forall q, isPlaying q = true ->
            stdout (takeFrame width height frameInterval q) = stdout q
            /\ isPlaying (takeFrame width height frameInterval q) = true).
  { intros q Hq. unfold takeFrame. cbv zeta. set (q1 := push _ _).
    assert (Hc : negb (isPlaying q1) && (0 <? List.length (frameQueue q1))%nat
                 = false) by (subst q1; cbn; rewrite Hq; reflexivity).
    rewrite Hc. subst q1. split; [reflexivity | exact Hq]. }
  induction n as [|n [IH1 IH2]]; [split; [reflexivity | exact Hfirst]|].
  change (Nat.iter (S n) (takeFrame width height frameInterval)
            (takeFrame width height frameInterval p))
    with (takeFrame width height frameInterval
            (Nat.iter n (takeFrame width height frameInterval)
               (takeFrame width height frameInterval p))).
  destruct (Hnext _ IH2) as [H1 H2].
  split; [rewrite H1; exact IH1 | exact H2].
Qed.

(** The first turn of the loop, when the scheduler is Idle: the frame
    cut from the buffer is rendered at once. *)
Lemma takeFrame_idle_stdout width height frameInterval p :
  isPlaying p = false -> frameQueue p = [] ->
  stdout (takeFrame width height frameInterval p)
  = stdout p
    ++ renderWrites width height (slice (buffer p) 0 (frameSize width height)).
Proof.
  intros Hi Hq. unfold takeFrame. cbv zeta.
  set (f := slice (buffer p) 0 (frameSize width height)).
  set (p1 := push f _).
  assert (Hc : negb (isPlaying p1) && (0 <? List.length (frameQueue p1))%nat = true)
    by (subst p1; cbn; rewrite Hi, Hq; reflexivity).
  rewrite Hc.
  assert (Hq1 : frameQueue (set_isPlaying true p1) = [f])
    by (subst p1; cbn; rewrite Hq; reflexivity).
  destruct (playNextFrame_render width height frameInterval _ _ _ Hq1)
    as (Hs & _).
  rewrite Hs. reflexivity.
Qed.

(** X3: in a terminal of two rows the player hangs.  The raster has no
    row, the size of a frame is 0 and the loop of the ['data'] handler
    never ends: at the first chunk the decoder delivers, even an empty one,
    the program is caught in that loop.  The first turn of the loop renders
    a frame of no byte: after the start of the playback the terminal
    receives one cursor-home sequence and one empty block, and nothing
    more; the cursor stays hidden. *)
Theorem two_row_terminal_hangs (w : World) inputFile rest info data es :
  argv w = inputFile :: rest ->
  existsSync w inputFile = true ->
  ffprobe w inputFile = ProbeClosed ->
  getVideoInfo w inputFile = inl info ->
  safe (info_width info) -> safe (info_height info) ->
  reported (columns w) -> rows w = Some 2%Z ->
  startupInterrupt w = None ->
  events w = Playback (OnData data) :: es ->
  result (main w) = Looping
  /\ cursorVisible true (terminal (main w)) = false
  /\ exists l1 l2 l3 l4,
       terminal (main w)
       = [Write l1; Write l2; Write l3; Write l4; Write CURSOR_HIDE; Clear;
          Write CURSOR_HOME; Write EmptyString].
Proof.
  intros Hargv Hex Hprobe Hinfo Hvw Hvh Hc Hrows Hstart Hev.
  unfold main. rewrite Hargv, Hex. cbn [negb].
  unfold playVideo. rewrite Hprobe, Hinfo, Hstart, Hev, Hrows. cbv zeta.
  cbn [session].
  rewrite (fit_two_rows _ _ _ Hc Hvw Hvh).
  unfold onData. cbv zeta. rewrite drain_diverges
    by (unfold frameSize; lia).
  cbn [result terminal]. split; [reflexivity|].
  match goal with
  | |- context [takeFrame ?wd 0 ?fi ?p0] =>
      pose proof (takeFrame_idle_stdout wd 0 fi p0 eq_refl eq_refl) as Ht
  end.
  unfold renderWrites in Ht.
  match type of Ht with
  | context [renderOutput ?f ?wd 0] =>
      change (renderOutput f wd 0) with EmptyString in Ht
  end.
  rewrite Ht.
  cbn [console_log stdout_write console_clear initialPlayer set_buffer stdout app].
  split.
  - cbn [cursorVisible].
    repeat match goal with
    | |- context [String.eqb (?s ++ LF)%string ?c] =>
        let H := fresh in
        pose proof (console_log_neutral s) as H; cbn [neutralOp] in H;
        apply andb_prop in H; destruct H as [H1 H2];
        apply negb_true_iff in H1, H2; rewrite ?H1, ?H2; clear H1 H2
    end.
    reflexivity.
  - do 4 eexists. reflexivity.
Qed.

Lemma two_row_terminal_hangs_witness :
  let w := {| argv := ["clip.mp4"%string]; existsSync := fun _ => true;
              ffprobe := fun _ => ProbeClosed;
              getVideoInfo := fun _ => inl clipInfo;
              columns := Some 80%Z; rows := Some 2%Z;
              startupInterrupt := None;
              events := [Playback (OnData [x00]%byte)] |} in
  result (main w) = Looping
  /\ cursorVisible true (terminal (main w)) = false
  /\ exists l1 l2 l3 l4,
       terminal (main w)
       = [Write l1; Write l2; Write l3; Write l4; Write CURSOR_HIDE; Clear;
          Write CURSOR_HOME; Write EmptyString].
Proof.
  apply (two_row_terminal_hangs
           {| argv := ["clip.mp4"%string]; existsSync := fun _ => true;
              ffprobe := fun _ => ProbeClosed;
              getVideoInfo := fun _ => inl clipInfo;
              columns := Some 80%Z; rows := Some 2%Z;
              startupInterrupt := None;
              events := [Playback (OnData [x00]%byte)] |}
           "clip.mp4" [] clipInfo [x00]%byte []);
    try reflexivity; cbn; unfold safe; lia.
Defined.

(** ** Ingestor, scheduler and renderer together *)

(** X4: the ['data'] handler returns exactly when the size of a frame is
    positive; with a frame size of 0 or less its loop never ends, whatever
    the state and the chunk: it is still running after any number of
    iterations. *)
Theorem onData_returns_iff width height frameInterval data p :
  ((exists p', onData width height frameInterval data p = Some p')
   <-> (0 < frameSize width height)%Z)
  /\ ((frameSize width height <= 0)%Z ->
      forall fuel q, drain width height frameInterval fuel q = None).
Proof.
  split; [split|].
  - intros [p' Hd]. destruct (Z_lt_le_dec 0 (frameSize width height)) as [H|H];
      [exact H|].
    unfold onData in Hd. cbv zeta in Hd.
    rewrite drain_diverges in Hd by exact H. discriminate Hd.
  - intros Hfs.
    destruct (onData_spec width height frameInterval data p Hfs)
      as (p' & frames & Hd & _).
    exists p'. exact Hd.
  - intros Hfs fuel q. apply drain_diverges, Hfs.
Qed.

(** X5: what the ingestor holds depends on the bytes received only: two
    runs that received the same bytes, cut into chunks in any way and with
    timers firing at any moment, have enqueued the same frames and hold the
    same residue, also when the bytes end in the middle of a frame. *)
Theorem ingest_independent_of_chunking width height frameInterval
    es1 es2 out1 out2 :
  (0 < frameSize width height)%Z ->
  received es1 = received es2 ->
  exists p1 p2,
    run width height frameInterval es1 (initialPlayer out1) = Some p1
    /\ run width height frameInterval es2 (initialPlayer out2) = Some p2
    /\ enqueued p1 = enqueued p2
    /\ buffer p1 = buffer p2.
Proof.
  intros Hfs Hrec.
  destruct (run_spec width height frameInterval es1 (initialPlayer out1) Hfs)
    as (p1 & fr1 & Hr1 & He1 & Hf1 & Hc1 & Hb1); [cbn; exact Hfs|].
  destruct (run_spec width height frameInterval es2 (initialPlayer out2) Hfs)
    as (p2 & fr2 & Hr2 & He2 & Hf2 & Hc2 & Hb2); [cbn; exact Hfs|].
  exists p1, p2. split; [exact Hr1|]. split; [exact Hr2|].
  cbn in He1, He2, Hc1, Hc2. rewrite He1, He2.
  destruct (framed_unique (frameSize width height) fr1 fr2 (buffer p1) (buffer p2)
              Hfs Hf1 Hf2 Hb1 Hb2) as [-> ->]; [|split; reflexivity].
  rewrite Hc1, Hc2. exact Hrec.
Qed.

Lemma ingest_independent_of_chunking_witness :
  exists p1 p2,
    run 1 1 40 [OnData [x01; x02; x03; x04]%byte] (initialPlayer []) = Some p1
    /\ run 1 1 40 [OnData [x01]%byte; OnTimeout; OnData [x02; x03; x04]%byte]
         (initialPlayer [Clear]) = Some p2
    /\ enqueued p1 = enqueued p2
    /\ buffer p1 = buffer p2.
Proof.
  apply (ingest_independent_of_chunking 1 1 40
           [OnData [x01; x02; x03; x04]%byte]
           [OnData [x01]%byte; OnTimeout; OnData [x02; x03; x04]%byte]
           [] [Clear]); reflexivity.
Defined.

Section PacingFacts.

Variables (width height : Z) (frameInterval : Q).

Local Abbreviation playNextFrame := (playNextFrame width height frameInterval).
Local Abbreviation takeFrame := (takeFrame width height frameInterval).
Local Abbreviation drain := (drain width height frameInterval).
Local Abbreviation onData := (onData width height frameInterval).
Local Abbreviation onTimeout := (onTimeout width height frameInterval).
Local Abbreviation step := (step width height frameInterval).
Local Abbreviation reachable := (reachable width height frameInterval).
Local Abbreviation scheduler_inv := (scheduler_inv frameInterval).
Local Abbreviation renderWrites := (renderWrites width height).

Lemma playNextFrame_writes p :
  stdout (playNextFrame p) = stdout p
  \/ exists f, stdout (playNextFrame p) = (stdout p ++ renderWrites f)%list.
Proof.
  destruct (frameQueue p) as [|f rest] eqn:Hq.
  - left. apply (playNextFrame_idle width height frameInterval p Hq).
  - right. exists f. apply (playNextFrame_render width height frameInterval p f rest Hq).
Qed.

Lemma takeFrame_writes p :
  stdout (takeFrame p) = stdout p
  \/ exists f, stdout (takeFrame p) = (stdout p ++ renderWrites f)%list.
Proof.
  unfold takeFrame. cbv zeta. set (p1 := push _ _).
  destruct (negb _ && _); [|left; reflexivity].
  apply (playNextFrame_writes (set_isPlaying true p1)).
Qed.

(** X6: one event, one frame at most.  In every reachable state a chunk
    of decoder output, however many frames it completes, and a timer that
    fires each write nothing to the terminal or render exactly one frame:
    frames are never rendered in a burst. *)
Theorem one_render_per_event e p p' :
  reachable p -> step e p = Some p' ->
  stdout p' = stdout p
  \/ exists f, stdout p' = (stdout p ++ renderWrites f)%list.
Proof.
  intros Hreach Hs.
  pose proof (reachable_scheduler_inv width height frameInterval p Hreach) as Hinv.
  destruct e as [data|]; cbn [step] in Hs.
  - unfold onData in Hs. cbv zeta in Hs. cbn [drain] in Hs.
    set (p0 := set_buffer (buffer p ++ data) p) in *.
    destruct (Z.of_nat (List.length (buffer p0)) >=? frameSize width height)%Z;
      [|injection Hs as <-; left; reflexivity].
    assert (Hinv0 : scheduler_inv p0)
      by (destruct Hinv as [[[Hi Ht] Hq]|[Hi Ht]]; [left|right];
          repeat split; assumption).
    pose proof (takeFrame_playing width height frameInterval p0 Hinv0) as HP.
    rewrite (drain_playing_silent width height frameInterval _ _ _ HP Hs).
    apply (takeFrame_writes p0).
  - injection Hs as <-. unfold onTimeout.
    destruct (timers p); [left; reflexivity|].
    apply (playNextFrame_writes (set_timers l p)).
Qed.

End PacingFacts.

Lemma one_render_per_event_witness :
  let p := initialPlayer [] in
  let p' := match step 1 1 40 (OnData [x00; x00; x00; xff; xff; xff]%byte) p with
            | Some p' => p'
            | None => p
            end in
  stdout p' = stdout p
  \/ exists f, stdout p' = (stdout p ++ renderWrites 1 1 f)%list.
Proof.
  intros p p'.
  apply (one_render_per_event 1 1 40
           (OnData [x00; x00; x00; xff; xff; xff]%byte) p p').
  - apply reachable_init.
  - vm_compute. reflexivity.
Defined.

(** For a complete frame the loops of [renderFrame] assemble the block of
    the specification. *)
Lemma renderOutput_blockText frameBuffer (w h : nat) :
  List.length frameBuffer = (w * h * 3)%nat ->
  renderOutput frameBuffer (Z.of_nat w) (Z.of_nat h) = blockText w h frameBuffer.
Proof.
  intros Hlen.
  assert (Hpx : List.length (pixels frameBuffer) = (h * w)%nat)
    by (apply pixels_length; rewrite Hlen; lia).
  unfold renderOutput, for_lt. rewrite Nat2Z.id.
  change (@for_loop string h 0%Z) with (@for_loop string h (Z.of_nat 0)).
  rewrite (outer_loop frameBuffer w h 0 EmptyString) by (cbn; lia).
  reflexivity.
Qed.

(** X7: the pipeline as a whole.  After any run of events on a raster of
    [w] columns and [h] rows the terminal shows, after what was there
    before, one cursor-home and one block for each of the first frames of
    the byte stream, in their order: a frame is [w*h*3] consecutive bytes
    of the stream, its block the [h] lines of [w] cells of the
    specification.  The frames not yet rendered wait in the queue, the
    bytes after the last complete frame in the buffer: the renderer never
    sees a part of a frame. *)
Theorem playback_renders_stream_frames (w h : nat) frameInterval es out :
  (0 < w * h)%nat ->
  exists p played,
    run (Z.of_nat w) (Z.of_nat h) frameInterval es (initialPlayer out) = Some p
    /\ (List.concat (played ++ frameQueue p) ++ buffer p)%list = received es
    /\ Forall (fun f => List.length f = (w * h * 3)%nat)
              (played ++ frameQueue p)%list
    /\ (List.length (buffer p) < w * h * 3)%nat
    /\ stdout p
       = (out ++ flat_map (fun f => [Write CURSOR_HOME; Write (blockText w h f)])
                   played)%list.
Proof.
  intros Hwh.
  assert (Hfs : frameSize (Z.of_nat w) (Z.of_nat h) = Z.of_nat (w * h * 3))
    by (unfold frameSize; lia).
  destruct (run_spec (Z.of_nat w) (Z.of_nat h) frameInterval es (initialPlayer out))
    as (p & frames & Hr & He & Hf & Hc & Hb); [lia | cbn; lia |].
  destruct (frames_rendered_in_order _ _ _ es out p Hr) as (played & Hq & Hs).
  cbn in He, Hc. rewrite Hfs in Hb.
  assert (Hlen : Forall (fun f => List.length f = (w * h * 3)%nat) frames).
  { unfold framed in Hf. rewrite Forall_forall in *. intros f Hin.
    specialize (Hf f Hin). lia. }
  exists p, played. rewrite <- Hq, He.
  split; [exact Hr|]. split; [exact Hc|]. split; [exact Hlen|].
  split; [lia|].
  rewrite Hs. f_equal.
  assert (Hpl : Forall (fun f => List.length f = (w * h * 3)%nat) played).
  { rewrite He in Hq. rewrite Hq in Hlen. apply Forall_app in Hlen. apply Hlen. }
  clear - Hpl. induction Hpl as [|f played Hf _ IH]; [reflexivity|].
  cbn [flat_map]. rewrite IH. unfold renderWrites.
  rewrite (renderOutput_blockText f w h Hf). reflexivity.
Qed.

Lemma playback_renders_stream_frames_witness :
  exists p played,
    run 1 1 40 [OnData [x00; x00; x00; xff; xff]%byte; OnTimeout]
      (initialPlayer []) = Some p
    /\ (List.concat (played ++ frameQueue p) ++ buffer p)%list
       = [x00; x00; x00; xff; xff]%byte
    /\ Forall (fun f => List.length f = 3%nat) (played ++ frameQueue p)%list
    /\ (List.length (buffer p) < 3)%nat
    /\ stdout p
       = flat_map (fun f => [Write CURSOR_HOME; Write (blockText 1 1 f)]) played.
Proof.
  apply (playback_renders_stream_frames 1 1 40
           [OnData [x00; x00; x00; xff; xff]%byte; OnTimeout] []).
  lia.
Defined.

(** ** Colour quantization and glyph selection: further properties *)

(** X8: the 24 indices 232..255 of the grey ramp are used for pixels with
    three equal components only (and, of those, for the components 8..248);
    every other pixel is given an index of the 6x6x6 colour cube,
    16..231. *)
Theorem grey_ramp_for_exact_greys_only r g b :
  (0 <= r <= 255)%Z -> (0 <= g <= 255)%Z -> (0 <= b <= 255)%Z ->
  ((232 <= rgbToAnsi256 r g b)%Z -> r = g /\ g = b /\ (8 <= r <= 248)%Z)
  /\ (r = g -> g = b -> (8 <= r <= 248)%Z ->
      (232 <= rgbToAnsi256 r g b <= 255)%Z)
  /\ (~ (r = g /\ g = b) -> (16 <= rgbToAnsi256 r g b <= 231)%Z).
Proof.
  intros Hr Hg Hb. rewrite (rgbToAnsi256_eq_spec r g b Hr Hg Hb).
  unfold colorIndex_spec.
  pose proof (cube_level_range r Hr). pose proof (cube_level_range g Hg).
  pose proof (cube_level_range b Hb).
  destruct (Z.eqb_spec r g) as [Erg|Erg]; [destruct (Z.eqb_spec g b) as [Egb|Egb]|];
    cbn [andb].
  - destruct (Z.ltb_spec r 8); [repeat split; lia|].
    destruct (Z.ltb_spec 248 r); [repeat split; lia|].
    pose proof (grey_step_range r ltac:(lia)). repeat split; lia.
  - repeat split; lia.
  - repeat split; lia.
Qed.

Lemma grey_ramp_for_exact_greys_only_witness :
  ((232 <= rgbToAnsi256 128 128 128)%Z ->
   128%Z = 128%Z /\ 128%Z = 128%Z /\ (8 <= 128 <= 248)%Z)
  /\ (128%Z = 128%Z -> 128%Z = 128%Z -> (8 <= 128 <= 248)%Z ->
      (232 <= rgbToAnsi256 128 128 128 <= 255)%Z)
  /\ (~ (128%Z = 128%Z /\ 128%Z = 128%Z) ->
      (16 <= rgbToAnsi256 128 128 128 <= 231)%Z).
Proof. apply (grey_ramp_for_exact_greys_only 128 128 128); lia. Defined.

(** X9: the index of a pixel that is not an exact grey encodes its three
    cube levels, each in 0..5, and they can be read back from it: the red
    level is the quotient of (index - 16) by 36, the green level the next
    digit in base 6, the blue level the last. *)
Theorem cube_index_decodes r g b :
  (0 <= r <= 255)%Z -> (0 <= g <= 255)%Z -> (0 <= b <= 255)%Z ->
  ~ (r = g /\ g = b) ->
  let level c := Math_round (of_Z c / 255 * 5)%js in
  let i := (rgbToAnsi256 r g b - 16)%Z in
  ((0 <= level r <= 5) /\ (0 <= level g <= 5) /\ (0 <= level b <= 5)
   /\ i / 36 = level r /\ (i / 6) mod 6 = level g /\ i mod 6 = level b)%Z.
Proof.
  intros Hr Hg Hb Hne. cbv zeta. unfold rgbToAnsi256.
  replace ((r =? g) && (g =? b))%Z with false.
  2:{ symmetry. apply andb_false_iff.
      destruct (Z.eqb_spec r g); [|left; reflexivity].
      destruct (Z.eqb_spec g b); [|right; reflexivity]. exfalso; auto. }
  cbv zeta. rewrite !cube_level_exact by assumption.
  pose proof (cube_level_range r Hr). pose proof (cube_level_range g Hg).
  pose proof (cube_level_range b Hb).
  set (R := round_exact (inject_Z r / 255 * 5)) in *.
  set (G := round_exact (inject_Z g / 255 * 5)) in *.
  set (B := round_exact (inject_Z b / 255 * 5)) in *.
  clearbody R G B.
  replace (16 + 36 * R + 6 * G + B - 16)%Z with (B + (G + R * 6) * 6)%Z by lia.
  repeat split; try lia.
  - replace (B + (G + R * 6) * 6)%Z with ((B + G * 6) + R * 36)%Z by lia.
    rewrite Z.div_add by lia. rewrite Z.div_small by lia. lia.
  - rewrite Z.div_add by lia. rewrite (Z.div_small B) by lia.
    rewrite Z.add_0_l, Z.mod_add by lia. apply Z.mod_small. lia.
  - rewrite Z.mod_add by lia. apply Z.mod_small. lia.
Qed.

Lemma cube_index_decodes_witness :
  let level c := Math_round (of_Z c / 255 * 5)%js in
  let i := (rgbToAnsi256 12 200 77 - 16)%Z in
  ((0 <= level 12 <= 5) /\ (0 <= level 200 <= 5) /\ (0 <= level 77 <= 5)
   /\ i / 36 = level 12 /\ (i / 6) mod 6 = level 200 /\ i mod 6 = level 77)%Z.
Proof. apply (cube_index_decodes 12 200 77); lia. Defined.

(** X10: the glyph follows the brightness.  Of two pixels the one that is
    at least as bright in each component is given a glyph at least as far
    along the ramp, from the space to the '@'. *)
Theorem glyph_monotone r g b r' g' b' :
  (0 <= r <= r')%Z -> (r' <= 255)%Z ->
  (0 <= g <= g')%Z -> (g' <= 255)%Z ->
  (0 <= b <= b')%Z -> (b' <= 255)%Z ->
  exists i i' : nat,
    (i <= i' <= 9)%nat
    /\ char r g b = String.get i ASCII_CHARS
    /\ char r' g' b' = String.get i' ASCII_CHARS.
Proof.
  intros Hr Hr' Hg Hg' Hb Hb'.
  pose proof (charIndex_mono r g b r' g' b' ltac:(lia) ltac:(lia) ltac:(lia)) as Hm.
  pose proof (charIndex_range r g b ltac:(lia) ltac:(lia) ltac:(lia)) as H1.
  pose proof (charIndex_range r' g' b' ltac:(lia) ltac:(lia) ltac:(lia)) as H2.
  exists (Z.to_nat (charIndex r g b)), (Z.to_nat (charIndex r' g' b')).
  split; [lia|]. split; apply char_at_charIndex; lia.
Qed.

Lemma glyph_monotone_witness :
  exists i i' : nat,
    (i <= i' <= 9)%nat
    /\ char 10 20 30 = String.get i ASCII_CHARS
    /\ char 10 200 30 = String.get i' ASCII_CHARS.
Proof. apply (glyph_monotone 10 20 30 10 200 30); lia. Defined.

(** X11: the glyph in integer arithmetic.  Unless 9 * (299 r + 587 g +
    114 b) is a multiple of 255000 (the exact scaled luma is then an
    integer, and rounding may select the glyph before), the glyph is the
    character of the ramp at the integer quotient of 9 * (299 r + 587 g +
    114 b) by 255000: the binary64 arithmetic of the program has no other
    effect on the glyph. *)
Theorem glyph_by_integer_arithmetic r g b :
  (0 <= r <= 255)%Z -> (0 <= g <= 255)%Z -> (0 <= b <= 255)%Z ->
  ((9 * (299 * r + 587 * g + 114 * b)) mod 255000 <> 0)%Z ->
  char r g b
  = String.get (Z.to_nat (9 * (299 * r + 587 * g + 114 * b) / 255000)) ASCII_CHARS.
Proof.
  intros Hr Hg Hb Hne.
  destruct (charIndex_exactIndex r g b Hr Hg Hb) as [_ H].
  rewrite char_at_charIndex by assumption.
  rewrite (H Hne). reflexivity.
Qed.

Lemma glyph_by_integer_arithmetic_witness :
  char 10 200 30
  = String.get (Z.to_nat (9 * (299 * 10 + 587 * 200 + 114 * 30) / 255000))
      ASCII_CHARS.
Proof.
  apply (glyph_by_integer_arithmetic 10 200 30); try lia.
  vm_compute. discriminate.
Defined.

(** ** The end of a session *)

Lemma renders_app ops1 ops2 :
  renders (ops1 ++ ops2) = (renders ops1 + renders ops2)%nat.
Proof.
  induction ops1 as [|[s|] ops1 IH]; cbn [renders app]; [reflexivity| |exact IH].
  rewrite IH. lia.
Qed.

Lemma fullLines_not_home s : fullLines s -> String.eqb s CURSOR_HOME = false.
Proof.
  intros [->|H]; [reflexivity|].
  destruct (String.eqb_spec s CURSOR_HOME) as [->|_]; [discriminate H|reflexivity].
Qed.

Lemma renders_line s p :
  renders (stdout (console_log s p)) = renders (stdout p).
Proof.
  cbn [console_log stdout_write stdout]. rewrite renders_app. cbn [renders].
  rewrite fullLines_not_home; [lia|].
  right. rewrite lastChar_app; [reflexivity|discriminate].
Qed.

Lemma renders_show p :
  renders (stdout (stdout_write CURSOR_SHOW p)) = renders (stdout p).
Proof.
  unfold stdout_write. cbn [stdout]. rewrite renders_app.
  assert (H : renders [Write CURSOR_SHOW] = 0%nat) by reflexivity.
  rewrite H. lia.
Qed.

Lemma renders_rendered frameBuffer width height :
  renders [Write CURSOR_HOME; Write (renderOutput frameBuffer width height)] = 1%nat.
Proof.
  cbn [renders].
  rewrite (fullLines_not_home _ (renderOutput_fullLines frameBuffer width height)).
  reflexivity.
Qed.

Section SessionFacts.

Variables (width height : Z) (frameInterval : Q).

Local Abbreviation playNextFrame := (playNextFrame width height frameInterval).
Local Abbreviation takeFrame := (takeFrame width height frameInterval).
Local Abbreviation drain := (drain width height frameInterval).
Local Abbreviation onData := (onData width height frameInterval).
Local Abbreviation onTimeout := (onTimeout width height frameInterval).
Local Abbreviation session := (session width height frameInterval).
Local Abbreviation scheduler_inv := (scheduler_inv frameInterval).

Lemma playNextFrame_accounted p q :
  stdout q = stdout p -> frameQueue q = frameQueue p -> enqueued q = enqueued p ->
  accounted p -> accounted (playNextFrame q).
Proof.
  unfold accounted. intros Hs Hq He H.
  rewrite (playNextFrame_enqueued width height frameInterval q), He.
  destruct (frameQueue q) as [|f rest] eqn:E.
  - destruct (playNextFrame_idle width height frameInterval q E) as (Hs' & Hq' & _).
    rewrite Hs', Hq', Hs. rewrite <- Hq in H. exact H.
  - destruct (playNextFrame_render width height frameInterval q f rest E)
      as (Hs' & Hq' & _).
    rewrite Hs', Hq', Hs, renders_app, renders_rendered.
    rewrite <- Hq in H. cbn [List.length] in H. lia.
Qed.

Lemma takeFrame_accounted p : accounted p -> accounted (takeFrame p).
Proof.
  intros H. unfold takeFrame. cbv zeta. set (p1 := push _ _).
  assert (H1 : accounted p1).
  { subst p1. unfold accounted in *. cbn. rewrite !length_app. cbn. lia. }
  destruct (negb _ && _); [|exact H1].
  apply (playNextFrame_accounted p1); [reflexivity..|exact H1].
Qed.

Lemma drain_accounted fuel : forall p p',
  accounted p -> drain fuel p = Some p' -> accounted p'.
Proof.
  induction fuel as [|fuel IH]; intros p p' H Hd; cbn [drain] in Hd;
    destruct (Z.of_nat (List.length (buffer p)) >=? frameSize width height)%Z;
    try discriminate; try (injection Hd as <-; exact H).
  revert Hd. apply IH, takeFrame_accounted, H.
Qed.

Lemma onData_accounted data p p' :
  accounted p -> onData data p = Some p' -> accounted p'.
Proof.
  intros H Hd. unfold onData in Hd. cbv zeta in Hd.
  revert Hd. apply drain_accounted. exact H.
Qed.

Lemma onTimeout_accounted p : accounted p -> accounted (onTimeout p).
Proof.
  intros H. unfold onTimeout. destruct (timers p); [exact H|].
  apply (playNextFrame_accounted p); [reflexivity..|exact H].
Qed.

(** With no timer pending the scheduler is Idle, and nothing waits. *)
Lemma no_timer_no_frame p :
  scheduler_inv p -> accounted p -> timers p = [] ->
  frameQueue p = [] /\ isPlaying p = false
  /\ renders (stdout p) = List.length (enqueued p).
Proof.
  intros [[[Hi Ht] Hq]|[Hi Ht]] H Hnil.
  - unfold accounted in H. rewrite Hq in H. cbn in H.
    repeat split; [assumption..|lia].
  - rewrite Hnil in Ht. discriminate Ht.
Qed.

Lemma session_completed es : forall settled p p' code,
  session es settled p = (p', Exit Completed code) ->
  scheduler_inv p -> accounted p ->
  frameQueue p' = [] /\ isPlaying p' = false /\ timers p' = []
  /\ renders (stdout p') = List.length (enqueued p').
Proof.
  induction es as [|e es IH]; intros settled p p' code Hs Hinv Hacc.
  - discriminate Hs.
  - destruct e as [[data|]| |message|]; cbn [session] in Hs.
    + destruct settled; [apply (IH _ _ _ _ Hs Hinv Hacc)|].
      destruct (onData data p) as [p1|] eqn:Hd; [|discriminate Hs].
      apply (IH _ _ _ _ Hs).
      * apply (onData_scheduler_inv width height frameInterval data p p1 Hinv Hd).
      * apply (onData_accounted data p p1 Hacc Hd).
    + pose proof (onTimeout_scheduler_inv width height frameInterval p Hinv) as Hinv'.
      pose proof (onTimeout_accounted p Hacc) as Hacc'.
      destruct settled; [|apply (IH _ _ _ _ Hs Hinv' Hacc')].
      destruct (timers (onTimeout p)) eqn:Ht; [|apply (IH _ _ _ _ Hs Hinv' Hacc')].
      injection Hs as <- <-.
      destruct (no_timer_no_frame _ Hinv' Hacc' Ht) as (H1 & H2 & H3).
      repeat split; assumption.
    + destruct settled; [apply (IH _ _ _ _ Hs Hinv Hacc)|].
      cbv zeta in Hs.
      set (p1 := console_log _ (stdout_write CURSOR_SHOW p)) in *.
      assert (Hinv1 : scheduler_inv p1) by exact Hinv.
      assert (Hacc1 : accounted p1).
      { unfold accounted in *. subst p1. rewrite renders_line, renders_show.
        exact Hacc. }
      destruct (timers p1) eqn:Ht; [|apply (IH _ _ _ _ Hs Hinv1 Hacc1)].
      injection Hs as <- <-.
      destruct (no_timer_no_frame _ Hinv1 Hacc1 Ht) as (H1 & H2 & H3).
      repeat split; assumption.
    + cbv zeta in Hs. destruct settled; [|discriminate Hs].
      apply (IH _ _ _ _ Hs); [exact Hinv|].
      unfold accounted in *. rewrite renders_show. exact Hacc.
    + discriminate Hs.
Qed.

Lemma session_interrupted es : forall settled p p' code,
  session es settled p = (p', Exit InterruptedByUser code) ->
  code = 0%Z
  /\ exists before,
       stdout p'
       = (before ++ [Write CURSOR_SHOW;
                     Write ((LF ++ LF ++ "Stopped by user") ++ LF)])%list.
Proof.
  induction es as [|e es IH]; intros settled p p' code Hs.
  - discriminate Hs.
  - destruct e as [[data|]| |message|]; cbn [session] in Hs.
    + destruct settled; [apply (IH _ _ _ _ Hs)|].
      destruct (onData data p) as [p1|]; [apply (IH _ _ _ _ Hs)|discriminate Hs].
    + destruct settled; [|apply (IH _ _ _ _ Hs)].
      destruct (timers (onTimeout p)); [discriminate Hs|apply (IH _ _ _ _ Hs)].
    + destruct settled; [apply (IH _ _ _ _ Hs)|].
      cbv zeta in Hs.
      destruct (timers _); [discriminate Hs|apply (IH _ _ _ _ Hs)].
    + cbv zeta in Hs. destruct settled; [apply (IH _ _ _ _ Hs)|discriminate Hs].
    + cbv zeta in Hs. injection Hs as <- <-. split; [reflexivity|].
      exists (stdout p). cbn. rewrite <- app_assoc. reflexivity.
Qed.

End SessionFacts.

(** X12: when the player exits on completion every frame the ingestor
    enqueued has been rendered, each once: the queue is empty, no timer is
    pending, and the number of cursor-home sequences on the terminal is the
    number of frames enqueued.  The frames still queued when the decoder
    closes are played to the end. *)
Theorem completion_renders_every_frame (w : World) inputFile p code :
  playVideo w inputFile = (p, Exit Completed code) ->
  frameQueue p = [] /\ isPlaying p = false /\ timers p = []
  /\ renders (stdout p) = List.length (enqueued p).
Proof.
  unfold playVideo. destruct (ffprobe w inputFile); try discriminate.
  destruct (getVideoInfo w inputFile) as [videoInfo|message];
    [|discriminate].
  cbv zeta. destruct (startupInterrupt w); [discriminate|]. intros Hs.
  apply (session_completed _ _ _ _ _ _ _ _ Hs).
  - left. repeat split.
  - unfold accounted.
    cbn [stdout console_clear stdout_write frameQueue enqueued List.length].
    rewrite !renders_app. cbn [renders].
    change (String.eqb CURSOR_HIDE CURSOR_HOME) with false.
    rewrite !renders_line. reflexivity.
Qed.

(** Two frames of a raster of 2x1 arrive in one chunk; the decoder closes
    while the second still waits. *)
Lemma completion_renders_every_frame_witness :
  let w := {| argv := ["clip.mp4"%string]; existsSync := fun _ => true;
              ffprobe := fun _ => ProbeClosed;
              getVideoInfo := fun _ =>
                inl {| info_width := 1; info_height := 1; fps := 25 |};
              columns := Some 2%Z; rows := Some 3%Z;
              startupInterrupt := None;
              events := [Playback (OnData (List.repeat x80 12)); OnClose;
                         Playback OnTimeout; Playback OnTimeout] |} in
  let p := fst (playVideo w "clip.mp4") in
  frameQueue p = [] /\ isPlaying p = false /\ timers p = []
  /\ renders (stdout p) = List.length (enqueued p).
Proof.
  intros w p.
  apply (completion_renders_every_frame w "clip.mp4" p 0).
  vm_compute. reflexivity.
Defined.

(** X13: an interrupt ends the run at once.  When the player exits on
    Ctrl+C the exit code is 0, nothing was written to the standard error,
    and the last two writes to the terminal are the cursor-show sequence
    and the notice "Stopped by user": no frame is rendered after the
    interrupt, whatever waits in the queue. *)
Theorem interrupt_ends_the_run (w : World) code :
  result (main w) = Exit InterruptedByUser code ->
  code = 0%Z
  /\ stderr (main w) = []
  /\ exists before,
       terminal (main w)
       = (before ++ [Write CURSOR_SHOW;
                     Write ((LF ++ LF ++ "Stopped by user") ++ LF)])%list.
Proof.
  unfold main. destruct (argv w) as [|inputFile rest]; [discriminate|].
  destruct (existsSync w inputFile); [|discriminate]. cbn [negb].
  unfold playVideo. destruct (ffprobe w inputFile); try discriminate.
  destruct (getVideoInfo w inputFile) as [videoInfo|message];
    [|discriminate].
  cbv zeta. destruct (startupInterrupt w); [discriminate|].
  match goal with
  | |- context [session ?wd ?ht ?fi ?es false ?p0] =>
      pose proof (session_interrupted wd ht fi es false p0) as Hs;
      pose proof (session_shown wd ht fi es false p0) as Hr;
      destruct (session wd ht fi es false p0) as [p' c]
  end.
  specialize (Hr p' c eq_refl ltac:(discriminate)).
  destruct c as [path' code'|path' message| | | |message];
    cbn [result terminal stderr]; try discriminate.
  - intros [= -> ->]. destruct (Hs p' code eq_refl) as [H0 H1].
    repeat split; assumption.
  - destruct Hr as [_ ->]. discriminate.
Qed.

Lemma interrupt_ends_the_run_witness :
  let w := clipWorld true (inl clipInfo)
             [Playback (OnData [x00; x00; x00]%byte); OnSigint; OnClose] in
  0%Z = 0%Z
  /\ stderr (main w) = []
  /\ exists before,
       terminal (main w)
       = (before ++ [Write CURSOR_SHOW;
                     Write ((LF ++ LF ++ "Stopped by user") ++ LF)])%list.
Proof.
  apply (interrupt_ends_the_run
           (clipWorld true (inl clipInfo)
              [Playback (OnData [x00; x00; x00]%byte); OnSigint; OnClose]) 0).
  vm_compute. reflexivity.
Defined.

(** X14: the diagnostics say whether the run failed.  Whenever the
    program exits the exit code is 0 or 1; it is 1 exactly on the paths
    other than completion and interrupt; and it is 1 exactly when a
    diagnostic reached the standard error: a line the program wrote there
    (usage error, missing file, failed probe, failed spawn of the decoder)
    or, when the spawn of the probe fails, the error Node reports because
    the ['error'] event of the probe has no listener.  On that last path
    the program itself writes nothing, neither to the standard error nor to
    the terminal. *)
Theorem diagnostics_iff_failure (w : World) path code :
  result (main w) = Exit path code ->
  (code = 0%Z \/ code = 1%Z)
  /\ (stderr (main w) <> [] \/ uncaught (main w) <> None <-> code = 1%Z)
  /\ (code = 1%Z <-> path <> Completed /\ path <> InterruptedByUser)
  /\ (uncaught (main w) <> None <-> path = ProbeSpawnFailure)
  /\ (uncaught (main w) <> None ->
      stderr (main w) = [] /\ terminal (main w) = []).
Proof.
  assert (Hcases : forall (err : list string) (unc : option string)
                     (term : list termOp),
            (err <> [] /\ unc = None /\ code = 1%Z
             /\ path <> Completed /\ path <> InterruptedByUser
             /\ path <> ProbeSpawnFailure)
            \/ (err = [] /\ unc <> None /\ term = [] /\ code = 1%Z
                /\ path = ProbeSpawnFailure)
            \/ (err = [] /\ unc = None /\ code = 0%Z
                /\ (path = Completed \/ path = InterruptedByUser)) ->
            (code = 0%Z \/ code = 1%Z)
            /\ (err <> [] \/ unc <> None <-> code = 1%Z)
            /\ (code = 1%Z <-> path <> Completed /\ path <> InterruptedByUser)
            /\ (unc <> None <-> path = ProbeSpawnFailure)
            /\ (unc <> None -> err = [] /\ term = [])).
  { intros err unc term
      [(H1 & H2 & H3 & H4 & H5 & H6)
      |[(H1 & H2 & H3 & H4 & H5)|(H1 & H2 & H3 & H4)]].
    - subst unc code. intuition congruence.
    - subst err term code path. intuition congruence.
    - subst err unc code. intuition congruence. }
  unfold main. destruct (argv w) as [|inputFile rest].
  { cbn [result stderr uncaught terminal]. intros [= <- <-]. apply Hcases.
    left. repeat split; discriminate. }
  destruct (existsSync w inputFile).
  2:{ cbn [negb result stderr uncaught terminal]. intros [= <- <-].
      apply Hcases. left. repeat split; discriminate. }
  cbn [negb].
  unfold playVideo. destruct (ffprobe w inputFile) as [|message|].
  2:{ cbn [result stderr uncaught terminal stdout initialPlayer].
      intros [= <- <-]. apply Hcases.
      right. left. repeat split; discriminate. }
  2:{ cbn [result]. discriminate. }
  destruct (getVideoInfo w inputFile) as [videoInfo|message].
  2:{ cbn [result stderr uncaught terminal]. intros [= <- <-]. apply Hcases.
      left. repeat split; discriminate. }
  cbv zeta. destruct (startupInterrupt w); [cbn [result]; discriminate|].
  match goal with
  | |- context [session ?wd ?ht ?fi ?es false ?p0] =>
      pose proof (session_shown wd ht fi es false p0) as Hs;
      destruct (session wd ht fi es false p0) as [p' c]
  end.
  specialize (Hs p' c eq_refl ltac:(discriminate)).
  destruct c as [path' code'|path' message| | | |message];
    cbn [result terminal stderr uncaught]; try discriminate;
    try contradiction.
  - intros [= <- <-]. destruct Hs as (_ & -> & Hp). apply Hcases.
    right. right. repeat split; try reflexivity. exact Hp.
  - intros [= <- <-]. destruct Hs as (_ & ->). apply Hcases.
    left. repeat split; discriminate.
Qed.

Lemma diagnostics_iff_failure_witness :
  let w := {| argv := ["clip.mp4"%string]; existsSync := fun _ => true;
              ffprobe := fun _ => ProbeSpawnFailed "spawn ffprobe ENOENT";
              getVideoInfo := fun _ => inl clipInfo;
              columns := Some 80%Z; rows := Some 24%Z;
              startupInterrupt := None;
              events := [] |} in
  (1%Z = 0%Z \/ 1%Z = 1%Z)
  /\ (stderr (main w) <> [] \/ uncaught (main w) <> None <-> 1%Z = 1%Z)
  /\ (1%Z = 1%Z <-> ProbeSpawnFailure <> Completed
                    /\ ProbeSpawnFailure <> InterruptedByUser)
  /\ (uncaught (main w) <> None <-> ProbeSpawnFailure = ProbeSpawnFailure)
  /\ (uncaught (main w) <> None ->
      stderr (main w) = [] /\ terminal (main w) = []).
Proof.
  apply (diagnostics_iff_failure
           {| argv := ["clip.mp4"%string]; existsSync := fun _ => true;
              ffprobe := fun _ => ProbeSpawnFailed "spawn ffprobe ENOENT";
              getVideoInfo := fun _ => inl clipInfo;
              columns := Some 80%Z; rows := Some 24%Z;
              startupInterrupt := None;
              events := [] |}
           ProbeSpawnFailure 1).
  reflexivity.
Defined.

(** ** The characters of a rendered block *)

Lemma string_all_app P a b :
  string_all P (a ++ b)%string = string_all P a && string_all P b.
Proof.
  induction a as [|c a IH]; cbn [String.append string_all]; [reflexivity|].
  rewrite IH, andb_assoc. reflexivity.
Qed.

Lemma string_all_In P s c :
  string_all P s = true -> In c (list_ascii_of_string s) -> P c = true.
Proof.
  induction s as [|x s IH]; cbn [string_all list_ascii_of_string In];
    intros H Hin; [contradiction|].
  apply andb_prop in H. destruct H as [Hx Hs].
  destruct Hin as [<-|Hin]; [exact Hx | apply IH; assumption].
Qed.

Lemma rgbToAnsi256_range r g b :
  (0 <= r <= 255)%Z -> (0 <= g <= 255)%Z -> (0 <= b <= 255)%Z ->
  (16 <= rgbToAnsi256 r g b <= 255)%Z.
Proof.
  intros Hr Hg Hb. rewrite (rgbToAnsi256_eq_spec r g b Hr Hg Hb).
  unfold colorIndex_spec.
  destruct ((r =? g) && (g =? b))%Z.
  - destruct (Z.ltb_spec r 8); [lia|].
    destruct (Z.ltb_spec 248 r); [lia|].
    pose proof (grey_step_range r ltac:(lia)). lia.
  - pose proof (cube_level_range r Hr). pose proof (cube_level_range g Hg).
    pose proof (cube_level_range b Hb). lia.
Qed.

Lemma buf_get_inside frameBuffer i :
  (0 <= i < Z.of_nat (List.length frameBuffer))%Z ->
  exists v, buf_get frameBuffer i = Some v /\ (0 <= v <= 255)%Z.
Proof.
  intros Hi. unfold buf_get.
  replace (i <? 0)%Z with false by (symmetry; apply Z.ltb_ge; lia).
  destruct (nth_error frameBuffer (Z.to_nat i)) as [x|] eqn:E.
  - exists (byteZ x). split; [reflexivity | apply byteZ_range].
  - apply nth_error_None in E. lia.
Qed.

(** The text of a pixel that lies inside the frame. *)
Lemma pixelText_chars frameBuffer index :
  (0 <= index)%Z -> (index + 2 < Z.of_nat (List.length frameBuffer))%Z ->
  string_all blockChar (pixelText frameBuffer index) = true.
Proof.
  intros H0 H2. unfold pixelText.
  destruct (buf_get_inside frameBuffer index) as (r & -> & Hr); [lia|].
  destruct (buf_get_inside frameBuffer (index + 1)) as (g & -> & Hg); [lia|].
  destruct (buf_get_inside frameBuffer (index + 2)) as (b & -> & Hb); [lia|].
  cbv zeta.
  pose proof (rgbToAnsi256_range r g b Hr Hg Hb) as Hc.
  pose proof (charIndex_range r g b Hr Hg Hb) as Hi.
  assert (E1 : colorSet_ok (rgbToAnsi256 r g b) = true).
  { apply (all_below_spec 256 colorSet_ok); [vm_compute; reflexivity | lia]. }
  assert (E2 : ramp_ok (charIndex r g b) = true).
  { apply (all_below_spec 10 ramp_ok); [vm_compute; reflexivity | lia]. }
  unfold colorSet_ok in E1. unfold ramp_ok in E2.
  rewrite !string_all_app in *. unfold char.
  apply andb_prop in E1. destruct E1 as [A1 E1].
  apply andb_prop in E1. destruct E1 as [A2 E1].
  apply andb_prop in E1. destruct E1 as [A3 A4].
  rewrite A1, A2, A3, A4, E2. reflexivity.
Qed.

Lemma for_loop_invariant {T : Type} (P : T -> Prop) (body : Z -> T -> T) :
  forall n i t,
  P t ->
  (forall j s, (i <= j < i + Z.of_nat n)%Z -> P s -> P (body j s)) ->
  P (for_loop n i body t).
Proof.
  induction n as [|n IH]; intros i t Ht Hbody; [exact Ht|].
  cbn [for_loop]. apply IH.
  - apply Hbody; [lia | exact Ht].
  - intros j s Hj. apply Hbody. lia.
Qed.

(** X15: what a rendered block is made of.  The block of a complete
    frame consists of the characters of the colour-set and reset sequences
    (the escape character, '[', ';', 'm' and the digits), the ten
    characters of the ramp and the line feed, and of nothing else: no
    letter of "NaN" or "undefined", and no '?', so that no cursor-hide or
    cursor-show sequence can occur inside a block. *)
Theorem block_characters frameBuffer (w h : nat) :
  List.length frameBuffer = (w * h * 3)%nat ->
  let output := renderOutput frameBuffer (Z.of_nat w) (Z.of_nat h) in
  string_all blockChar output = true
  /\ (forall c, In c (list_ascii_of_string output) ->
        In c (list_ascii_of_string blockAlphabet))
  /\ ~ In "?"%char (list_ascii_of_string output)
  /\ ~ In "N"%char (list_ascii_of_string output)
  /\ ~ In "u"%char (list_ascii_of_string output).
Proof.
  intros Hlen. cbv zeta.
  assert (H : string_all blockChar
                (renderOutput frameBuffer (Z.of_nat w) (Z.of_nat h)) = true).
  { unfold renderOutput, for_lt. rewrite Nat2Z.id.
    apply (for_loop_invariant (fun s => string_all blockChar s = true));
      [reflexivity|].
    intros y s Hy Hs. unfold renderRow, for_lt. cbv zeta. rewrite Nat2Z.id.
    rewrite string_all_app.
    replace (string_all blockChar (RESET ++ LF)) with true
      by (vm_compute; reflexivity).
    rewrite andb_true_r.
    apply (for_loop_invariant (fun s => string_all blockChar s = true));
      [exact Hs|].
    intros x s' Hx Hs'. rewrite string_all_app, Hs'. cbn [andb].
    apply pixelText_chars; [nia|]. rewrite Hlen. nia. }
  split; [exact H|].
  assert (Hin : forall c,
            In c (list_ascii_of_string
                    (renderOutput frameBuffer (Z.of_nat w) (Z.of_nat h))) ->
            blockChar c = true)
    by (intros c; apply string_all_In, H).
  split; [|split; [|split]].
  - intros c Hc. specialize (Hin c Hc). unfold blockChar in Hin.
    apply existsb_exists in Hin. destruct Hin as (x & Hx & E).
    apply Ascii.eqb_eq in E. subst x. exact Hx.
  - intros Hc. specialize (Hin _ Hc). vm_compute in Hin. discriminate Hin.
  - intros Hc. specialize (Hin _ Hc). vm_compute in Hin. discriminate Hin.
  - intros Hc. specialize (Hin _ Hc). vm_compute in Hin. discriminate Hin.
Qed.

Lemma block_characters_witness :
  let output := renderOutput [x00; x80; xff; x10; x10; x10]%byte 2 1 in
  string_all blockChar output = true
  /\ (forall c, In c (list_ascii_of_string output) ->
        In c (list_ascii_of_string blockAlphabet))
  /\ ~ In "?"%char (list_ascii_of_string output)
  /\ ~ In "N"%char (list_ascii_of_string output)
  /\ ~ In "u"%char (list_ascii_of_string output).
Proof.
  apply (block_characters [x00; x80; xff; x10; x10; x10]%byte 2 1). reflexivity.
Defined.

(** ** Timers *)

Section TickFacts.

Variables (width height : Z) (frameInterval : Q).

Local Abbreviation playNextFrame := (playNextFrame width height frameInterval).
Local Abbreviation onTimeout := (onTimeout width height frameInterval).
Local Abbreviation run := (run width height frameInterval).
Local Abbreviation Playing := (Playing frameInterval).
Local Abbreviation renderWrites := (renderWrites width height).

Lemma ticks_drain_queue : forall queue p,
  frameQueue p = queue -> Playing p ->
  exists p',
    run (List.repeat OnTimeout (S (List.length queue))) p = Some p'
    /\ stdout p' = (stdout p ++ flat_map renderWrites queue)%list
    /\ frameQueue p' = [] /\ Idle p'
    /\ enqueued p' = enqueued p /\ buffer p' = buffer p.
Proof.
  induction queue as [|f rest IH]; intros p Hq [Hi Ht].
  - exists (onTimeout p). split; [reflexivity|].
    unfold onTimeout. rewrite Ht.
    destruct (playNextFrame_idle width height frameInterval (set_timers [] p) Hq)
      as (Hs & Hq' & Ht' & Hi').
    rewrite Hs, playNextFrame_enqueued, playNextFrame_buffer.
    cbn [flat_map]. rewrite app_nil_r.
    repeat split; assumption.
  - set (p1 := onTimeout p).
    assert (H1 : stdout p1 = (stdout p ++ renderWrites f)%list
                 /\ frameQueue p1 = rest /\ Playing p1
                 /\ enqueued p1 = enqueued p /\ buffer p1 = buffer p).
    { subst p1. unfold onTimeout. rewrite Ht.
      destruct (playNextFrame_render width height frameInterval
                  (set_timers [] p) f rest Hq) as (Hs & Hq' & Ht' & Hi').
      rewrite playNextFrame_enqueued, playNextFrame_buffer.
      repeat split; try assumption. rewrite Hi'. exact Hi. }
    destruct H1 as (Hs1 & Hq1 & HP1 & He1 & Hb1).
    destruct (IH p1 Hq1 HP1) as (p' & Hr & Hs & Hq' & Hidle & He & Hb).
    exists p'. split; [exact Hr|].
    rewrite Hs, Hs1, He, He1, Hb, Hb1. cbn [flat_map]. rewrite <- app_assoc.
    repeat split; try assumption; apply Hidle.
Qed.

(** X16: the timers play the queue to its end.  When the scheduler is
    Playing and no more data arrives, one tick per frame waiting renders
    the frames of the queue, in their order, one per tick, and one more
    tick leaves the scheduler Idle with an empty queue; nothing else is
    written. *)
Theorem ticks_play_the_queue p :
  Playing p ->
  exists p',
    run (List.repeat OnTimeout (S (List.length (frameQueue p)))) p = Some p'
    /\ stdout p' = (stdout p ++ flat_map renderWrites (frameQueue p))%list
    /\ frameQueue p' = [] /\ Idle p'.
Proof.
  intros HP.
  destruct (ticks_drain_queue (frameQueue p) p eq_refl HP)
    as (p' & Hr & Hs & Hq & Hi & _).
  exists p'. repeat split; try assumption; apply Hi.
Qed.

End TickFacts.

Lemma ticks_play_the_queue_witness :
  let p := match onData 1 1 40 [x00; x00; x00; x80; x80; x80; xff; xff; xff]%byte
                   (initialPlayer []) with
           | Some p => p
           | None => initialPlayer []
           end in
  exists p',
    run 1 1 40 (List.repeat OnTimeout (S (List.length (frameQueue p)))) p = Some p'
    /\ stdout p' = (stdout p ++ flat_map (renderWrites 1 1) (frameQueue p))%list
    /\ frameQueue p' = [] /\ Idle p'.
Proof.
  intros p. apply (ticks_play_the_queue 1 1 40 p).
  split; vm_compute; reflexivity.
Defined.

(** X17: the delay of the timers.  For a frame rate [num/den] of two
    positive integers below 2^53, as [getVideoInfo] computes it, the frame
    rate and the frame interval [1000 / fps] are positive numbers; for an
    integral rate [num/1] the frame rate is [num] exactly. *)
Theorem frameInterval_positive (num den : Z) :
  safe num -> safe den ->
  let fps := (of_Z num / of_Z den)%js in
  0 < fps /\ 0 < (1000 / fps)%js /\ (den = 1%Z -> fps == inject_Z num).
Proof.
  intros [Hn1 Hn2] [Hd1 Hd2]. cbv zeta. unfold fdiv, of_Z.
  assert (Qn : 1 <= inject_Z num /\ inject_Z num <= 9007199254740992).
  { split; [change 1 with (inject_Z 1) | change 9007199254740992 with (inject_Z (2 ^ 53))];
      rewrite <- Zle_Qle; lia. }
  assert (Qd : 1 <= inject_Z den /\ inject_Z den <= 9007199254740992).
  { split; [change 1 with (inject_Z 1) | change 9007199254740992 with (inject_Z (2 ^ 53))];
      rewrite <- Zle_Qle; lia. }
  destruct Qn as [Qn1 Qn2]. destruct Qd as [Qd1 Qd2].
  set (x := inject_Z num / inject_Z den).
  assert (Hlo : (1 # 9007199254740992) <= x).
  { unfold x. apply Qle_shift_div_l; [lra|]. lra. }
  assert (Hhi : x <= 9007199254740992).
  { unfold x. apply Qle_shift_div_r; [lra|]. nra. }
  assert (Elo : rnd (1 # 9007199254740992) == 1 # 9007199254740992)
    by (vm_compute; reflexivity).
  assert (Ehi : rnd 9007199254740992 == 9007199254740992)
    by (vm_compute; reflexivity).
  apply rnd_mono in Hlo. apply rnd_mono in Hhi. rewrite Elo in Hlo. rewrite Ehi in Hhi.
  split; [lra|]. split.
  - apply Qlt_le_trans with (1 # 9007199254740992); [reflexivity|].
    rewrite <- Elo. apply rnd_mono.
    apply Qle_shift_div_l; [lra|]. set (v := rnd x) in *. clearbody v. lra.
  - intros ->. apply Qeq_trans with (rnd (inject_Z num)); [|apply rnd_Z; lia].
    apply rnd_comp. unfold x. change (inject_Z 1) with 1. field.
Qed.

Lemma frameInterval_positive_witness :
  let fps := (of_Z 30000 / of_Z 1001)%js in
  0 < fps /\ 0 < (1000 / fps)%js /\ (1001%Z = 1%Z -> fps == inject_Z 30000).
Proof. apply (frameInterval_positive 30000 1001); unfold safe; lia. Defined.

(** ** Counting frames *)




(** ** The first frame *)

Section StartFacts.

Variables (width height : Z) (frameInterval : Q).

Local Abbreviation playNextFrame := (playNextFrame width height frameInterval).
Local Abbreviation takeFrame := (takeFrame width height frameInterval).
Local Abbreviation drain := (drain width height frameInterval).
Local Abbreviation onData := (onData width height frameInterval).
Local Abbreviation Playing := (Playing frameInterval).
Local Abbreviation renderWrites := (renderWrites width height).

(** While the scheduler is Playing the frames cut from the buffer join
    the queue, in their order. *)
Lemma drain_playing_queue fuel : forall p p',
  Playing p -> drain fuel p = Some p' ->
  exists frames,
    enqueued p' = (enqueued p ++ frames)%list
    /\ frameQueue p' = (frameQueue p ++ frames)%list
    /\ stdout p' = stdout p /\ Playing p'.
Proof.
  induction fuel as [|fuel IH]; intros p p' HP Hd; cbn [drain] in Hd;
    destruct (Z.of_nat (List.length (buffer p)) >=? frameSize width height)%Z;
    try discriminate;
    try (injection Hd as <-; exists []; rewrite !app_nil_r;
         repeat split; solve [reflexivity | apply HP]).
  pose proof (takeFrame_playing width height frameInterval p (or_intror HP)) as HP1.
  destruct (IH _ _ HP1 Hd) as (frames & He & Hq & Hs & HP').
  pose proof (takeFrame_playing_silent width height frameInterval p HP) as Hs1.
  assert (H1 : exists f, enqueued (takeFrame p) = (enqueued p ++ [f])%list
                         /\ frameQueue (takeFrame p) = (frameQueue p ++ [f])%list).
  { destruct HP as [Hi Ht]. unfold takeFrame. cbv zeta. set (p1 := push _ _).
    assert (Hc : negb (isPlaying p1) && (0 <? List.length (frameQueue p1))%nat = false)
      by (subst p1; cbn; rewrite Hi; reflexivity).
    rewrite Hc. eexists. split; reflexivity. }
  destruct H1 as (f & He1 & Hq1).
  exists (f :: frames). rewrite He, Hq, Hs, He1, Hq1, Hs1, <- !app_assoc.
  repeat split; solve [reflexivity | apply HP'].
Qed.

(** X19: the first frame is rendered at once.  When the scheduler is Idle
    and a chunk completes one frame or more, the first of them is rendered
    within the handler, with no delay, and the others are queued behind it;
    a chunk that completes no frame writes nothing and leaves the scheduler
    Idle. *)
Theorem first_frame_rendered_at_once data p p' :
  Idle p -> frameQueue p = [] ->
  onData data p = Some p' ->
  (enqueued p' = enqueued p /\ stdout p' = stdout p /\ frameQueue p' = []
   /\ Idle p')
  \/ (exists f rest,
        enqueued p' = (enqueued p ++ f :: rest)%list
        /\ stdout p' = (stdout p ++ renderWrites f)%list
        /\ frameQueue p' = rest
        /\ Playing p').
Proof.
  intros [Hi Ht] Hq Hd. unfold onData in Hd. cbv zeta in Hd.
  cbn [drain] in Hd.
  set (p0 := set_buffer (buffer p ++ data) p) in *.
  destruct (Z.of_nat (List.length (buffer p0)) >=? frameSize width height)%Z.
  2:{ injection Hd as <-. left. repeat split; assumption. }
  right.
  set (f := slice (buffer p0) 0 (frameSize width height)).
  set (p1 := push f (set_buffer (slice_from (buffer p0) (frameSize width height)) p0)).
  assert (Hq1 : frameQueue (set_isPlaying true p1) = [f])
    by (subst p1 p0; cbn; rewrite Hq; reflexivity).
  assert (Ht1 : takeFrame p0 = playNextFrame (set_isPlaying true p1)).
  { unfold takeFrame. cbv zeta. fold f. fold p1.
    assert (Hc : negb (isPlaying p1) && (0 <? List.length (frameQueue p1))%nat = true)
      by (subst p1 p0; cbn; rewrite Hi, Hq; reflexivity).
    rewrite Hc. reflexivity. }
  destruct (playNextFrame_render width height frameInterval _ _ _ Hq1)
    as (Hs2 & Hq2 & Ht2 & Hi2).
  pose proof (playNextFrame_enqueued width height frameInterval
                (set_isPlaying true p1)) as He2.
  rewrite <- Ht1 in Hs2, Hq2, Ht2, Hi2, He2.
  assert (HP : Playing (takeFrame p0)).
  { split; [rewrite Hi2; reflexivity|]. rewrite Ht2. subst p1 p0. cbn.
    rewrite Ht. reflexivity. }
  destruct (drain_playing_queue _ _ _ HP Hd) as (frames & He & Hq' & Hs & HP').
  exists f, frames. rewrite He, Hq', Hs, He2, Hs2, Hq2.
  repeat split; try apply HP'.
  subst p1 p0. cbn. rewrite <- app_assoc. reflexivity.
Qed.

End StartFacts.

Lemma first_frame_rendered_at_once_witness :
  let p := initialPlayer [] in
  let p' := match onData 1 1 40 [x00; x00; x00; xff; xff; xff]%byte p with
            | Some p' => p'
            | None => p
            end in
  (enqueued p' = enqueued p /\ stdout p' = stdout p /\ frameQueue p' = []
   /\ Idle p')
  \/ (exists f rest,
        enqueued p' = (enqueued p ++ f :: rest)%list
        /\ stdout p' = (stdout p ++ renderWrites 1 1 f)%list
        /\ frameQueue p' = rest
        /\ Playing 40 p').
Proof.
  intros p p'.
  apply (first_frame_rendered_at_once 1 1 40
           [x00; x00; x00; xff; xff; xff]%byte p p').
  - split; reflexivity.
  - reflexivity.
  - vm_compute. reflexivity.
Defined.

(** ** A terminal of one row *)

(** X20: in a terminal of one row the raster is negative.  The height
    limit is -1; the fitted height is -1 and the fitted width is negative
    too, so that the size of a frame, their product by 3, is positive; and
    the loops of [renderFrame] do not run: every block is empty. *)
Theorem one_row_terminal_renders_empty_blocks columns videoWidth videoHeight :
  reported columns -> safe videoWidth -> safe videoHeight ->
  let d := calculateAspectRatioDimensions columns (Some 1%Z)
             videoWidth videoHeight in
  (height d = -1 /\ width d <= -1 /\ 0 < frameSize (width d) (height d))%Z
  /\ forall frameBuffer,
       renderOutput frameBuffer (width d) (height d) = EmptyString.
Proof.
  intros Hc [Hvw1 Hvw2] [Hvh1 Hvh2]. cbv zeta.
  rewrite fit_uses_terminal_size.
  assert (Hw : safe (width (getTerminalSize columns (Some 1%Z))))
    by (apply js_or_safe; [exact Hc | split; reflexivity]).
  change (height (getTerminalSize columns (Some 1%Z))) with 1%Z.
  set (maxWidth := width (getTerminalSize columns (Some 1%Z))) in *.
  clearbody maxWidth. destruct Hw as [Hw1 Hw2].
  assert (Qvw : 1 <= inject_Z videoWidth)
    by (change 1 with (inject_Z 1); rewrite <- Zle_Qle; lia).
  assert (Qvh : 1 <= inject_Z videoHeight
                /\ inject_Z videoHeight <= 9007199254740992).
  { split; [change 1 with (inject_Z 1)
           | change 9007199254740992 with (inject_Z (2 ^ 53))];
      rewrite <- Zle_Qle; lia. }
  destruct Qvh as [Qvh1 Qvh2].
  assert (Hvar : (1 # 9007199254740992) <= (of_Z videoWidth / of_Z videoHeight)%js).
  { unfold fdiv, of_Z.
    assert (E : rnd (1 # 9007199254740992) == 1 # 9007199254740992)
      by (vm_compute; reflexivity).
    rewrite <- E. apply rnd_mono. apply Qle_shift_div_l; lra. }
  assert (Hd : let d := calculateAspectRatioDimensions (Some maxWidth) (Some 1%Z)
                          videoWidth videoHeight in
               (height d = -1 /\ width d <= -1)%Z).
  { unfold calculateAspectRatioDimensions, getTerminalSize, js_or; cbn [width height].
    replace (maxWidth =? 0)%Z with false by (symmetry; apply Z.eqb_neq; lia).
    change (1 =? 0)%Z with false. cbv iota. change (1 - 2)%Z with (-1)%Z.
    set (var := (of_Z videoWidth / of_Z videoHeight)%js) in *. clearbody var.
    pose proof (first_fit_nonneg maxWidth var ltac:(lia) ltac:(lra)) as H0.
    destruct (Z.gtb_spec (Math_floor (of_Z maxWidth * (1 # 2) / var)%js) (-1))
      as [_|Hle]; [|lia].
    cbn [width height]. split; [reflexivity|].
    unfold Math_floor, fdiv, fmul, of_Z.
    assert (E1 : rnd (- (1 # 9007199254740992)) == - (1 # 9007199254740992))
      by (vm_compute; reflexivity).
    assert (E2 : rnd (- (1 # 4503599627370496)) == - (1 # 4503599627370496))
      by (vm_compute; reflexivity).
    assert (H1 : rnd (inject_Z (-1) * var) <= - (1 # 9007199254740992)).
    { rewrite <- E1. apply rnd_mono. change (inject_Z (-1)) with (- (1)). lra. }
    assert (H2 : rnd (rnd (inject_Z (-1) * var) / (1 # 2))
                 <= - (1 # 4503599627370496)).
    { rewrite <- E2. apply rnd_mono.
      apply Qle_shift_div_r; [reflexivity|].
      set (v := rnd (inject_Z (-1) * var)) in *. clearbody v. lra. }
    destruct (Z_le_gt_dec
                (Qfloor (rnd (rnd (inject_Z (-1) * var) / (1 # 2)))) (-1))
      as [Hok|Hbad]; [exact Hok|].
    exfalso.
    assert (H3 : inject_Z 0
                 <= rnd (rnd (inject_Z (-1) * var) / (1 # 2))).
    { eapply Qle_trans; [|apply Qfloor_le]. rewrite <- Zle_Qle. lia. }
    change (inject_Z 0) with 0 in H3. lra. }
  cbv zeta in Hd. destruct Hd as [Hh Hwd].
  split.
  - split; [exact Hh|]. split; [exact Hwd|]. unfold frameSize. rewrite Hh. lia.
  - intros frameBuffer. rewrite Hh. reflexivity.
Qed.

Lemma one_row_terminal_renders_empty_blocks_witness :
  let d := calculateAspectRatioDimensions (Some 80%Z) (Some 1%Z) 640 480 in
  (height d = -1 /\ width d <= -1 /\ 0 < frameSize (width d) (height d))%Z
  /\ forall frameBuffer,
       renderOutput frameBuffer (width d) (height d) = EmptyString.
Proof.
  apply (one_row_terminal_renders_empty_blocks (Some 80%Z) 640 480);
    cbn; unfold safe; lia.
Defined.
